(** * PhysicsConstrainedNMF: the multiplicative-update engine of [models.py]

    A shallow embedding of [_mu_update], [NMFBase] and [NMF].

    Numbers.  Tensor entries and Python floats are modelled by [fl]: the
    IEEE-754 values with exact rational arithmetic on the finite ones
    (results are kept in lowest terms, so that equal results are the same
    term).
    Rounding, overflow and the sign of zero are not modelled (every zero is
    +0); the special values are, because the update divides by a
    denominator that can be zero.  A result that is finite here can
    therefore be an infinity, or a NaN born of one, in float32.  The
    statements below are kept to what rounding and overflow leave alone:
    signs, the identities [p / p = 1], [0 / p = 0] and [0 * x], which
    entry is computed from which, shapes, control flow and exceptions.
    None of them says that a computed value is finite.  The scalar
    arguments of [fit] ([beta], [tol], [alpha], [l1_ratio]) are finite
    Python numbers, modelled by [Q].

    Tensors.  A block of a factor is a [1 x k] tensor (a [row]); a matrix
    is the list of its rows.  Broadcasting, [torch.cat], [@] and the
    in-place operators raise where torch raises.

    Effects.  Python exceptions are values of [exn]; code that mutates the
    model and may raise runs in the state-and-error monad [SE], so that the
    state left behind by an exception is still there to be observed. *)

From Stdlib Require Import QArith Qpower ZArith List Bool Lia PeanoNat.
Import ListNotations.

Set Implicit Arguments.

Local Open Scope Q_scope.

(** ** Exceptions and the two monads *)

Inductive exn : Type :=
| UnboundLocalError
| ZeroDivisionError
| AttributeError
| IndexError
| RuntimeError
| ValueError
| TypeError
| NotImplementedError.

Inductive result (A : Type) : Type :=
| Ok (a : A)
| Raise (e : exn).

Arguments Ok {A} a.
Arguments Raise {A} e.

Definition rbind {A B} (r : result A) (k : A -> result B) : result B :=
  match r with
  | Ok a => k a
  | Raise e => Raise e
  end.

Declare Scope res_scope.
Delimit Scope res_scope with res.
Notation "x <- r ;; k" := (rbind r (fun x => k))
  (at level 61, r at next level, right associativity) : res_scope.

Fixpoint mapM {A B} (f : A -> result B) (xs : list A) : result (list B) :=
  match xs with
  | [] => Ok []
  | x :: rest =>
      (y <- f x ;; ys <- mapM f rest ;; Ok (y :: ys))%res
  end.

(** State and error: the final state is returned also when the code raises. *)
Definition SE (S A : Type) : Type := S -> S * result A.

Definition ret {S A} (a : A) : SE S A := fun s => (s, Ok a).
Definition bind {S A B} (m : SE S A) (k : A -> SE S B) : SE S B :=
  fun s => match m s with
           | (s', Ok a) => k a s'
           | (s', Raise e) => (s', Raise e)
           end.

Declare Scope se_scope.
Delimit Scope se_scope with se.
Notation "x <~ m ;; k" := (bind m (fun x => k))
  (at level 61, m at next level, right associativity) : se_scope.

(** ** Floating-point values *)

Inductive fl : Type :=
| Fin (q : Q)
| PInf
| NInf
| NaN.

Definition Qltb (x y : Q) : bool := negb (Qle_bool y x).

(** A finite result, kept in lowest terms. *)
Definition fin (q : Q) : fl := Fin (Qred q).

Arguments fin q : simpl never.

Module Float.

Definition zero : fl := Fin 0.
Definition one : fl := Fin 1.

Definition neg (x : fl) : fl :=
  match x with
  | Fin q => fin (- q)
  | PInf => NInf
  | NInf => PInf
  | NaN => NaN
  end.

Definition add (x y : fl) : fl :=
  match x, y with
  | NaN, _ | _, NaN => NaN
  | Fin a, Fin b => fin (a + b)
  | PInf, NInf | NInf, PInf => NaN
  | PInf, _ | _, PInf => PInf
  | NInf, _ | _, NInf => NInf
  end.

Definition sub (x y : fl) : fl := add x (neg y).

(** Sign of a value that is not NaN. *)
Definition sign (x : fl) : comparison :=
  match x with
  | Fin q => q ?= 0
  | PInf => Gt
  | NInf => Lt
  | NaN => Eq
  end.

Definition signed_inf (s1 s2 : comparison) : fl :=
  match s1, s2 with
  | Eq, _ | _, Eq => NaN
  | Gt, Gt | Lt, Lt => PInf
  | _, _ => NInf
  end.

Definition mul (x y : fl) : fl :=
  match x, y with
  | NaN, _ | _, NaN => NaN
  | Fin a, Fin b => fin (a * b)
  | _, _ => signed_inf (sign x) (sign y)
  end.

(** IEEE division: nothing raises; [x / 0] is an infinity of the sign of
    [x], and [0 / 0], [inf / inf] are NaN. *)
Definition div (x y : fl) : fl :=
  match x, y with
  | NaN, _ | _, NaN => NaN
  | Fin a, Fin b =>
      match b ?= 0 with
      | Eq => match a ?= 0 with
              | Eq => NaN
              | Gt => PInf
              | Lt => NInf
              end
      | _ => fin (a / b)
      end
  | Fin _, _ => Fin 0
  | _, Fin b =>
      match b ?= 0 with
      | Lt => neg x
      | _ => x
      end
  | _, _ => NaN
  end.

(** [F.relu]: [max(x, 0)], NaN is propagated. *)
Definition relu (x : fl) : fl :=
  match x with
  | Fin q => if Qltb 0 q then Fin q else Fin 0
  | PInf => PInf
  | NInf => Fin 0
  | NaN => NaN
  end.

(** Comparisons are false as soon as one side is NaN. *)
Definition ltb (x y : fl) : bool :=
  match x, y with
  | NaN, _ | _, NaN => false
  | Fin a, Fin b => Qltb a b
  | Fin _, PInf | NInf, Fin _ | NInf, PInf => true
  | _, _ => false
  end.

Definition leb (x y : fl) : bool :=
  match x, y with
  | NaN, _ | _, NaN => false
  | Fin a, Fin b => Qle_bool a b
  | NInf, _ | _, PInf => true
  | _, _ => false
  end.

Definition is_zero (x : fl) : bool :=
  match x with
  | Fin q => Qeq_bool q 0
  | _ => false
  end.

(** [nn x]: [x] is not negative, that is [x >= 0] or [x] is NaN. *)
Definition nn (x : fl) : Prop :=
  match x with
  | Fin q => 0 <= q
  | NInf => False
  | PInf | NaN => True
  end.

(** [nonneg x]: the Python test [x >= 0] is true. *)
Definition nonneg (x : fl) : Prop := leb zero x = true.

End Float.

(** ** Tensors *)

Definition row : Type := list fl.
Definition matrix : Type := list row.

Module Tensor.

Definition shape (a : matrix) : nat * nat :=
  (length a, match a with
             | [] => 0%nat
             | r :: _ => length r
             end).

Definition shape_eqb (s t : nat * nat) : bool :=
  (fst s =? fst t)%nat && (snd s =? snd t)%nat.

Fixpoint zip_with {A B C} (f : A -> B -> C) (xs : list A) (ys : list B)
  : list C :=
  match xs, ys with
  | x :: xs', y :: ys' => f x y :: zip_with f xs' ys'
  | _, _ => []
  end.

(** Broadcasting along one axis: equal sizes, or one of them is 1. *)
Definition bcast {A B C} (f : A -> B -> result C)
           (xs : list A) (ys : list B) : result (list C) :=
  if (length xs =? length ys)%nat then mapM (fun p => p) (zip_with f xs ys)
  else match xs, ys with
       | [x], _ => mapM (f x) ys
       | _, [y] => mapM (fun x => f x y) xs
       | _, _ => Raise RuntimeError
       end.

Definition row_op (f : fl -> fl -> fl) (r s : row) : result row :=
  bcast (fun x y => Ok (f x y)) r s.

(** An out-of-place binary operator on two 2-d tensors. *)
Definition op (f : fl -> fl -> fl) (a b : matrix) : result matrix :=
  bcast (row_op f) a b.

(** An in-place operator [a.op_(b)]: the broadcast shape must be [a]'s. *)
Definition op_ (f : fl -> fl -> fl) (a b : matrix) : result matrix :=
  (c <- op f a b ;;
   if shape_eqb (shape c) (shape a) then Ok c else Raise RuntimeError)%res.

(** [r.op_(s)] for a [1 x k] block [r] and a 1-d tensor [s]. *)
Definition row_op_ (f : fl -> fl -> fl) (r s : row) : result row :=
  (c <- row_op f r s ;;
   if (length c =? length r)%nat then Ok c else Raise RuntimeError)%res.

Definition map_entries (f : fl -> fl) (a : matrix) : matrix :=
  map (map f) a.

Definition zeros_like (r : row) : row := map (fun _ => Float.zero) r.

Fixpoint same_width (k : nat) (rows : list row) : bool :=
  match rows with
  | [] => true
  | r :: rest => (length r =? k)%nat && same_width k rest
  end.

(** [torch.cat] of [1 x k] tensors along axis 0: an empty list is a
    ValueError, blocks of different widths a RuntimeError. *)
Definition cat (blocks : list row) : result matrix :=
  match blocks with
  | [] => Raise ValueError
  | r :: rest =>
      if same_width (length r) rest then Ok blocks else Raise RuntimeError
  end.

Definition sum (r : row) : fl := fold_left Float.add r Float.zero.

Definition dot (r s : row) : fl := sum (zip_with Float.mul r s).

Definition column (j : nat) (a : matrix) : row :=
  map (fun r => nth j r Float.zero) a.

(** [a.t()] *)
Definition t (a : matrix) : matrix :=
  map (fun j => column j a) (seq 0 (snd (shape a))).

(** [a @ b] *)
Definition matmul (a b : matrix) : result matrix :=
  if (snd (shape a) =? length b)%nat
  then Ok (map (fun r => map (dot r) (t b)) a)
  else Raise RuntimeError.

(** [a.sum(dim=1)] and [a.sum(dim=0)] *)
Definition sum_dim1 (a : matrix) : row := map sum a.
Definition sum_dim0 (a : matrix) : row := map sum (t a).

(** [v[None, :]] and [v[:, None]] *)
Definition unsqueeze0 (v : row) : matrix := [v].
Definition unsqueeze1 (v : row) : matrix := map (fun x => [x]) v.

End Tensor.

(** ** What the code takes from outside

    [torch.pow] with a real exponent and [torch.rand] are library
    functions; [beta_divergence] is imported from the module [metrics].
    They are parameters of the development. *)

Class Torch : Type := {
  (** [x.pow(g)] on one entry *)
  pow : fl -> Q -> fl;
  (** entry [j] of the tensor returned by the [n]-th call of [torch.rand] *)
  rand : nat -> nat -> Q
}.

Class Metrics : Type := {
  (** [beta_divergence(estimate, target, beta)], a scalar *)
  beta_divergence : matrix -> matrix -> Q -> fl;
  (** its derivative in [estimate], as [loss.backward()] computes it *)
  d_beta_divergence : matrix -> matrix -> Q -> matrix
}.

(** ** Parameters and [_mu_update] *)

(** An [nn.Parameter] holding one block. *)
Record Param : Type := mkParam {
  data : row;
  requires_grad : bool;
  grad : option row
}.

Definition set_data (x : Param) (d : row) : Param :=
  mkParam d (requires_grad x) (grad x).

Definition set_grad (x : Param) (g : option row) : Param :=
  mkParam (data x) (requires_grad x) g.

Definition set_requires_grad (x : Param) (b : bool) : Param :=
  mkParam (data x) b (grad x).

(** The first argument of [_mu_update]: an [nn.ParameterList] of blocks, or
    one tensor with its [.grad]. *)
Inductive param_arg : Type :=
| ParameterList (ps : list Param)
| TensorParam (value : matrix) (tgrad : option matrix).

Definition blocks_of (p : param_arg) (default : list Param)
  : list Param :=
  match p with
  | ParameterList ps => ps
  | TensorParam _ _ => default
  end.

Section MuUpdate.

Context {torch : Torch}.

(** [x.grad if x.requires_grad else torch.zeros_like(x)]; [torch.cat]
    rejects a [None]. *)
Definition block_grad (x : Param) : result row :=
  if requires_grad x
  then match grad x with
       | Some g => Ok g
       | None => Raise TypeError
       end
  else Ok (Tensor.zeros_like (data x)).

(** Lines 8-13.  [None] is the early [return]. *)
Definition gradient_of (param : param_arg) : result (option matrix) :=
  match param with
  | ParameterList ps =>
      (gs <- mapM block_grad ps ;; g <- Tensor.cat gs ;; Ok (Some g))%res
  | TensorParam _ None => Ok None
  | TensorParam _ (Some g) => Ok (Some g)
  end.

(** [torch.cat([x for x in param])] or [param] itself (lines 19-22). *)
Definition reg_param_of (param : param_arg) : result matrix :=
  match param with
  | ParameterList ps => Tensor.cat (map data ps)
  | TensorParam v _ => Ok v
  end.

(** Lines 16-26: the regularised denominator and what the caller's [pos]
    object holds afterwards.  [pos.add_] writes into the caller's tensor;
    [pos = pos + ...] rebinds the local name only. *)
Definition regularise (param : param_arg) (pos : matrix) (l1_reg l2_reg : Q)
  : matrix * result matrix :=
  let pos1 :=
    if Qltb 0 l1_reg
    then Tensor.map_entries (fun x => Float.add x (Fin l1_reg)) pos
    else pos in
  if Qltb 0 l2_reg
  then match reg_param_of param with
       | Raise e => (pos1, Raise e)
       | Ok reg_param =>
           let scaled :=
             Tensor.map_entries (Float.mul (Fin l2_reg)) reg_param in
           if negb (Tensor.shape_eqb (Tensor.shape pos1)
                                     (Tensor.shape reg_param))
           then (pos1, Tensor.op Float.add pos1 scaled)
           else match Tensor.op_ Float.add pos1 scaled with
                | Ok pos2 => (pos2, Ok pos2)
                | Raise e => (pos1, Raise e)
                end
       end
  else (pos1, Ok pos1).

(** Lines 32-33: [sub_param.mul_(multiplier[i, :])] for each block, from
    index [i] on.  The blocks before a raising one stay multiplied. *)
Fixpoint mul_blocks (i : nat) (ps : list Param) (multiplier : matrix)
  : list Param * result unit :=
  match ps with
  | [] => ([], Ok tt)
  | sub_param :: rest =>
      match nth_error multiplier i with
      | None => (ps, Raise IndexError)
      | Some m_i =>
          match Tensor.row_op_ Float.mul (data sub_param) m_i with
          | Raise e => (ps, Raise e)
          | Ok d =>
              let (rest', r) := mul_blocks (S i) rest multiplier in
              (set_data sub_param d :: rest', r)
          end
      end
  end.

(** Lines 31-35. *)
Definition apply_multiplier (param : param_arg) (multiplier : matrix)
  : param_arg * result unit :=
  match param with
  | ParameterList ps =>
      let (ps', r) := mul_blocks 0 ps multiplier in (ParameterList ps', r)
  | TensorParam v g =>
      match Tensor.op_ Float.mul v multiplier with
      | Ok v' => (TensorParam v' g, Ok tt)
      | Raise e => (param, Raise e)
      end
  end.

(** [_mu_update(param, pos, gamma, l1_reg, l2_reg)].  The state is the
    pair of the two objects the function writes into: [param] and the
    caller's [pos]. *)
Definition _mu_update (gamma l1_reg l2_reg : Q)
  : SE (param_arg * matrix) unit :=
  fun '(param, pos) =>
    match gradient_of param with
    | Raise e => ((param, pos), Raise e)
    | Ok None => ((param, pos), Ok tt)
    | Ok (Some grad) =>
        match Tensor.op Float.sub pos grad with
        | Raise e => ((param, pos), Raise e)
        | Ok diff =>
            let multiplier := Tensor.map_entries Float.relu diff in
            match regularise param pos l1_reg l2_reg with
            | (buf, Raise e) => ((param, buf), Raise e)
            | (buf, Ok pos') =>
                match Tensor.op_ Float.div multiplier pos' with
                | Raise e => ((param, buf), Raise e)
                | Ok multiplier =>
                    let multiplier :=
                      if negb (Qeq_bool gamma 1)
                      then Tensor.map_entries (fun x => pow x gamma)
                                              multiplier
                      else multiplier in
                    let (param', r) := apply_multiplier param multiplier in
                    ((param', buf), r)
                end
            end
        end
    end.

End MuUpdate.

(** ** The model object *)

Record Model : Type := mkModel {
  rank : nat;
  W_list : list Param;
  H_list : list Param
}.

Definition with_W (m : Model) (ws : list Param) : Model :=
  mkModel (rank m) ws (H_list m).

Definition with_H (m : Model) (hs : list Param) : Model :=
  mkModel (rank m) (W_list m) hs.

(** [self.fix_neg = nn.Threshold(0.0, 1e-8)]: an entry [x <= 0] is replaced
    by [1e-8]. *)
Definition fix_neg_entry (x : fl) : fl :=
  if Float.leb x Float.zero then Fin (1 # 100000000) else x.

Definition fix_neg (a : matrix) : matrix := Tensor.map_entries fix_neg_entry a.

(** What [get_W_positive] / [get_H_positive] return: the pair
    [(denominator, cache)].  When the denominator is a view of the cache,
    [s[None, :]] or [s[:, None]], an in-place write to the one is a write
    to the other. *)
Inductive positive : Type :=
| Fresh (denominator : matrix) (cache : option row)
| View0 (s : row)
| View1 (s : row).

Definition denominator_of (p : positive) : matrix :=
  match p with
  | Fresh d _ => d
  | View0 s => Tensor.unsqueeze0 s
  | View1 s => Tensor.unsqueeze1 s
  end.

Definition cache_of (p : positive) : option row :=
  match p with
  | Fresh _ c => c
  | View0 s | View1 s => Some s
  end.

(** The cache once the denominator object holds [buf]. *)
Definition written_back (p : positive) (buf : matrix) : option row :=
  match p with
  | Fresh _ c => c
  | View0 _ => Some (hd [] buf)
  | View1 _ => Some (map (hd Float.zero) buf)
  end.

(** The methods a subclass supplies, and the gradients [loss.backward()]
    leaves for its [reconstruct]: [backward_W H W WH X beta] is the
    gradient of [beta_divergence(fix_neg(WH), X, beta)] in [W], one row per
    block, and [backward_H] the same in [H]. *)
Class Methods : Type := {
  reconstruct : matrix -> matrix -> result matrix;
  get_W_positive : Model -> matrix -> Q -> option row -> result positive;
  get_H_positive : Model -> matrix -> Q -> option row -> result positive;
  backward_W : matrix -> matrix -> matrix -> matrix -> Q -> matrix;
  backward_H : matrix -> matrix -> matrix -> matrix -> Q -> matrix
}.

(** The local [loss] of [fit]: a 0-d tensor after a step, a Python float
    after [.item()]. *)
Inductive pyloss : Type :=
| LossTensor (v : fl)
| LossFloat (v : fl).

(** The model and the locals of [fit]; [stdout] is what [print] wrote, one
    pair (epoch, loss) a line. *)
Record FitState : Type := mkFitState {
  model : Model;
  H_sum : option row;
  W_sum : option row;
  loss : option pyloss;
  loss_init : option fl;
  previous_loss : option fl;
  n_iter : option nat;
  stdout : list (nat * fl)
}.

Definition with_model (s : FitState) (m : Model) : FitState :=
  mkFitState m (H_sum s) (W_sum s) (loss s) (loss_init s) (previous_loss s)
             (n_iter s) (stdout s).
Definition with_H_sum (s : FitState) (c : option row) : FitState :=
  mkFitState (model s) c (W_sum s) (loss s) (loss_init s) (previous_loss s)
             (n_iter s) (stdout s).
Definition with_W_sum (s : FitState) (c : option row) : FitState :=
  mkFitState (model s) (H_sum s) c (loss s) (loss_init s) (previous_loss s)
             (n_iter s) (stdout s).
Definition with_loss (s : FitState) (l : option pyloss) : FitState :=
  mkFitState (model s) (H_sum s) (W_sum s) l (loss_init s) (previous_loss s)
             (n_iter s) (stdout s).
Definition with_loss_init (s : FitState) (l : option fl) : FitState :=
  mkFitState (model s) (H_sum s) (W_sum s) (loss s) l (previous_loss s)
             (n_iter s) (stdout s).
Definition with_previous_loss (s : FitState) (l : option fl) : FitState :=
  mkFitState (model s) (H_sum s) (W_sum s) (loss s) (loss_init s) l
             (n_iter s) (stdout s).
Definition with_n_iter (s : FitState) (n : option nat) : FitState :=
  mkFitState (model s) (H_sum s) (W_sum s) (loss s) (loss_init s)
             (previous_loss s) n (stdout s).
Definition print (s : FitState) (line : nat * fl) : FitState :=
  mkFitState (model s) (H_sum s) (W_sum s) (loss s) (loss_init s)
             (previous_loss s) (n_iter s) (stdout s ++ [line]).

Module NMFBase.

Section Init.

Context {torch : Torch}.

(** [nn.Parameter(t)]: trainable, no gradient yet. *)
Definition new_parameter (t : row) : Param := mkParam t true None.

(** [torch.rand(1, width)], the [n]-th call. *)
Definition rand_block (n width : nat) : row :=
  map (fun j => Fin (rand n j)) (seq 0 width).

(** Lines 70-71 and 78-79: [ps[i].requires_grad = not flags[i]] for every
    index of [flags]; indexing past the end of [ps] raises. *)
Fixpoint set_fixed (flags : list bool) (ps : list Param)
  : result (list Param) :=
  match flags, ps with
  | [], _ => Ok ps
  | _ :: _, [] => Raise IndexError
  | f :: flags', p :: ps' =>
      (rest <- set_fixed flags' ps' ;;
       Ok (set_requires_grad p (negb f) :: rest))%res
  end.

(** Lines 65-72 (and 73-80): one factor's blocks.  [first_call] numbers
    the calls of [torch.rand]. *)
Definition init_blocks (first_call : nat) (shape : nat * nat)
           (initial : option (list row)) (fixed : list bool)
  : result (list Param) :=
  let blocks :=
    match initial with
    | Some values => map new_parameter values
    | None =>
        map (fun i => new_parameter (rand_block (first_call + i) (snd shape)))
            (seq 0 (fst shape))
    end in
  set_fixed fixed blocks.

(** [NMFBase.__init__]; the device plays no part. *)
Definition __init__ (W_shape H_shape : nat * nat) (n_components : nat)
           (initial_components : option (list row)) (fix_components : list bool)
           (initial_weights : option (list row)) (fix_weights : list bool)
  : result Model :=
  (w_list <- init_blocks 0 W_shape initial_weights fix_weights ;;
   h_list <- init_blocks (fst W_shape) H_shape initial_components
                         fix_components ;;
   Ok (mkModel n_components w_list h_list))%res.

End Init.

(** The properties [self.W] and [self.H]. *)
Definition W (m : Model) : result matrix := Tensor.cat (map data (W_list m)).
Definition H (m : Model) : result matrix := Tensor.cat (map data (H_list m)).

(** [self.zero_grad()] *)
Definition zero_grad (m : Model) : Model :=
  mkModel (rank m)
          (map (fun x => set_grad x None) (W_list m))
          (map (fun x => set_grad x None) (H_list m)).

(** After [loss.backward()]: block [i], if trainable, holds row [i] of the
    gradient [g]. *)
Fixpoint populate (i : nat) (g : matrix) (ps : list Param) : list Param :=
  match ps with
  | [] => []
  | x :: rest =>
      (if requires_grad x
       then set_grad x (Some (nth i g (Tensor.zeros_like (data x))))
       else x) :: populate (S i) g rest
  end.

(** Lines 122-127. *)
Definition select_gamma (beta : Q) : Q :=
  if Qltb beta 1 then 1 / (2 - beta)
  else if Qltb 2 beta then 1 / (beta - 1)
  else 1.

(** [torch.prod(torch.tensor(X.shape)).float()] *)
Definition loss_scale_of (X : matrix) : fl :=
  Fin (inject_Z (Z.of_nat (fst (Tensor.shape X) * snd (Tensor.shape X)))).

Section Fit.

Context {torch : Torch} {metrics : Metrics} {methods : Methods}.

Variables (X : matrix) (update_W update_H : bool) (beta tol : Q).
Variables (gamma l1_reg l2_reg : Q) (loss_scale : fl).

(** Lines 134-141, the body of the first [if]. *)
Definition W_step : SE FitState unit :=
  fun s =>
    let m0 := zero_grad (model s) in
    let s := with_model s m0 in
    match (Hm <- H m0 ;; Wm <- W m0 ;; WH <- reconstruct Hm Wm ;;
           Ok (Hm, Wm, WH))%res with
    | Raise e => (s, Raise e)
    | Ok (Hm, Wm, WH) =>
        let s :=
          with_loss s (Some (LossTensor (beta_divergence (fix_neg WH) X beta))) in
        let m1 := with_W m0 (populate 0 (backward_W Hm Wm WH X beta) (W_list m0)) in
        let s := with_model s m1 in
        match get_W_positive m1 WH beta (H_sum s) with
        | Raise e => (s, Raise e)
        | Ok p =>
            let s := with_H_sum s (cache_of p) in
            let '((param, buf), r) :=
              _mu_update gamma l1_reg l2_reg
                         (ParameterList (W_list m1), denominator_of p) in
            let s := with_model s (with_W m1 (blocks_of param (W_list m1))) in
            let s := with_H_sum s (written_back p buf) in
            match r with
            | Raise e => (s, Raise e)
            | Ok _ => (with_W_sum s None, Ok tt)
            end
        end
    end.

(** Lines 144-151, the body of the second [if]. *)
Definition H_step : SE FitState unit :=
  fun s =>
    let m0 := zero_grad (model s) in
    let s := with_model s m0 in
    match (Hm <- H m0 ;; Wm <- W m0 ;; WH <- reconstruct Hm Wm ;;
           Ok (Hm, Wm, WH))%res with
    | Raise e => (s, Raise e)
    | Ok (Hm, Wm, WH) =>
        let s :=
          with_loss s (Some (LossTensor (beta_divergence (fix_neg WH) X beta))) in
        let m1 := with_H m0 (populate 0 (backward_H Hm Wm WH X beta) (H_list m0)) in
        let s := with_model s m1 in
        match get_H_positive m1 WH beta (W_sum s) with
        | Raise e => (s, Raise e)
        | Ok p =>
            let s := with_W_sum s (cache_of p) in
            let '((param, buf), r) :=
              _mu_update gamma l1_reg l2_reg
                         (ParameterList (H_list m1), denominator_of p) in
            let s := with_model s (with_H m1 (blocks_of param (H_list m1))) in
            let s := with_W_sum s (written_back p buf) in
            match r with
            | Raise e => (s, Raise e)
            | Ok _ => (with_H_sum s None, Ok tt)
            end
        end
    end.

(** The two guards, lines 133 and 143. *)
Definition W_enabled (m : Model) : bool :=
  update_W && existsb requires_grad (W_list m).
Definition H_enabled (m : Model) : bool :=
  update_H && existsb requires_grad (H_list m).

(** Lines 153-160; the answer is [true] on [break]. *)
Definition report (i : nat) : SE FitState bool :=
  fun s =>
    match loss s with
    | None => (s, Raise UnboundLocalError)
    | Some (LossFloat _) => (s, Raise AttributeError)
    | Some (LossTensor v) =>
        let l := Float.div v loss_scale in
        let s := print (with_loss s (Some (LossFloat l))) (i, l) in
        if (i =? 0)%nat
        then (with_previous_loss (with_loss_init s (Some l)) (Some l), Ok false)
        else match previous_loss s, loss_init s with
             | Some previous, Some init =>
                 if Float.is_zero init then (s, Raise ZeroDivisionError)
                 else if Float.ltb (Float.div (Float.sub previous l) init)
                                   (Fin tol)
                      then (s, Ok true)
                      else (with_previous_loss s (Some l), Ok false)
             | _, _ => (s, Raise UnboundLocalError)
             end
    end.

(** One pass through the body of the [for] loop, lines 133-160. *)
Definition iteration (i : nat) : SE FitState bool :=
  (_ <~ (fun s => if W_enabled (model s) then W_step s else (s, Ok tt)) ;;
   _ <~ (fun s => if H_enabled (model s) then H_step s else (s, Ok tt)) ;;
   report i)%se.

(** [for n_iter in iters: ...] *)
Fixpoint loop (iters : list nat) : SE FitState unit :=
  match iters with
  | [] => ret tt
  | i :: rest =>
      (stop <~ (fun s => iteration i (with_n_iter s (Some i))) ;;
       if stop : bool then ret tt else loop rest)%se
  end.

End Fit.

Section FitEntry.

Context {torch : Torch} {metrics : Metrics} {methods : Methods}.

(** [fit(X, update_W, update_H, beta, tol, max_iter, alpha, l1_ratio)] on
    the model [m].  The result is the final state, with the model in it,
    and the value returned or the exception raised. *)
Definition fit (X : matrix) (update_W update_H : bool) (beta tol : Q)
           (max_iter : Z) (alpha l1_ratio : Q) (m : Model)
  : FitState * result nat :=
  let X := fix_neg X in
  let gamma := select_gamma beta in
  let l1_reg := alpha * l1_ratio in
  let l2_reg := alpha * (1 - l1_ratio) in
  let loss_scale := loss_scale_of X in
  let s0 := mkFitState m None None None None None None [] in
  match loop X update_W update_H beta tol gamma l1_reg l2_reg loss_scale
             (seq 0 (Z.to_nat max_iter)) s0 with
  | (s, Raise e) => (s, Raise e)
  | (s, Ok _) =>
      match n_iter s with
      | Some n => (s, Ok n)
      | None => (s, Raise UnboundLocalError)
      end
  end.

(** [fit_transform]: the value of [fit] and [torch.cat] of the W blocks. *)
Definition fit_transform (X : matrix) (update_W update_H : bool) (beta tol : Q)
           (max_iter : Z) (alpha l1_ratio : Q) (m : Model)
  : FitState * result (nat * matrix) :=
  match fit X update_W update_H beta tol max_iter alpha l1_ratio m with
  | (s, Raise e) => (s, Raise e)
  | (s, Ok n) =>
      match Tensor.cat (map data (W_list (model s))) with
      | Ok w => (s, Ok (n, w))
      | Raise e => (s, Raise e)
      end
  end.

End FitEntry.

(** [NMFBase] itself: the three methods raise. *)
Definition abstract_methods : Methods := {|
  reconstruct := fun _ _ => Raise NotImplementedError;
  get_W_positive := fun _ _ _ _ => Raise NotImplementedError;
  get_H_positive := fun _ _ _ _ => Raise NotImplementedError;
  backward_W := fun _ _ _ _ _ => [];
  backward_H := fun _ _ _ _ _ => []
|}.

End NMFBase.

(** ** The plain matrix-product model *)

Module NMF.

Section Methods.

Context {torch : Torch} {metrics : Metrics}.

(** [NMF.__init__(X_shape, n_components, **kwargs)] *)
Definition __init__ (X_shape : nat * nat) (n_components : nat)
           (initial_components : option (list row)) (fix_components : list bool)
           (initial_weights : option (list row)) (fix_weights : list bool)
  : result Model :=
  let (m_examples, n_features) := X_shape in
  NMFBase.__init__ (m_examples, n_components) (n_components, n_features)
                   n_components initial_components fix_components
                   initial_weights fix_weights.

(** [return W @ H] *)
Definition reconstruct (H W : matrix) : result matrix := Tensor.matmul W H.

(** Lines 183-194. *)
Definition get_W_positive (self : Model) (WH : matrix) (beta : Q)
           (H_sum : option row) : result positive :=
  (H <- NMFBase.H self ;;
   if Qeq_bool beta 1
   then
     let H_sum := match H_sum with
                  | None => Tensor.sum_dim1 H
                  | Some s => s
                  end in
     Ok (View0 H_sum)
   else
     let WH := if negb (Qeq_bool beta 2)
               then Tensor.map_entries (fun x => pow x (beta - 1)) WH
               else WH in
     WHHt <- Tensor.matmul WH (Tensor.t H) ;;
     Ok (Fresh WHHt H_sum))%res.

(** Lines 196-207. *)
Definition get_H_positive (self : Model) (WH : matrix) (beta : Q)
           (W_sum : option row) : result positive :=
  (W <- NMFBase.W self ;;
   if Qeq_bool beta 1
   then
     let W_sum := match W_sum with
                  | None => Tensor.sum_dim0 W
                  | Some s => s
                  end in
     Ok (View1 W_sum)
   else
     let WH := if negb (Qeq_bool beta 2)
               then Tensor.map_entries (fun x => pow x (beta - 1)) WH
               else WH in
     WtWH <- Tensor.matmul (Tensor.t W) WH ;;
     Ok (Fresh WtWH W_sum))%res.

(** The gradient of the loss in [WH]: that of the divergence where
    [fix_neg] lets [WH] through, and 0 where it puts the constant. *)
Definition d_loss (WH X : matrix) (beta : Q) : matrix :=
  Tensor.zip_with
    (Tensor.zip_with (fun x d => if Float.leb x Float.zero then Float.zero else d))
    WH (d_beta_divergence (fix_neg WH) X beta).

Definition or_empty (r : result matrix) : matrix :=
  match r with
  | Ok a => a
  | Raise _ => []
  end.

(** Back-propagation through [W @ H]: [G @ H.t()] for W and [W.t() @ G]
    for H, where [G] is the gradient in [WH]. *)
Definition backward_W (H W WH X : matrix) (beta : Q) : matrix :=
  or_empty (Tensor.matmul (d_loss WH X beta) (Tensor.t H)).

Definition backward_H (H W WH X : matrix) (beta : Q) : matrix :=
  or_empty (Tensor.matmul (Tensor.t W) (d_loss WH X beta)).

#[global] Instance methods : Methods :=
  Build_Methods reconstruct get_W_positive get_H_positive
                backward_W backward_H.

End Methods.

End NMF.

(** ** Concrete collaborators, for running the model

    The squared error, the divergence at [beta = 2], with its derivative;
    and a power for the integer exponents, where the result is rational.
    At any other exponent [torch.pow] gives a number that [fl] cannot
    hold in general; [pow_int] answers NaN there, which is not what torch
    computes, so the instance stands for torch at integer exponents only.
    The runs below are at [beta = 1] or [beta = 2], where [fit] calls no
    power at all, and no statement is made through it at another
    exponent. *)

Module Concrete.

Definition pow_int (x : fl) (g : Q) : fl :=
  if Qeq_bool g 0 then Float.one
  else if negb (Z.eqb (Z.pos (Qden (Qred g))) 1) then NaN
  else
    let n := Qnum (Qred g) in
    match x with
    | NaN => NaN
    | PInf => if (0 <? n)%Z then PInf else Float.zero
    | NInf => if (0 <? n)%Z then (if Z.even n then PInf else NInf)
              else Float.zero
    | Fin q => if Qeq_bool q 0 && (n <? 0)%Z then PInf else fin (q ^ n)
    end.

#[global] Instance torch : Torch := {|
  pow := pow_int;
  rand := fun _ _ => 1 # 2
|}.

Definition half_square (x y : fl) : fl :=
  Float.mul (Fin (1 # 2)) (Float.mul (Float.sub x y) (Float.sub x y)).

Definition squared_error (estimate target : matrix) (beta : Q) : fl :=
  Tensor.sum
    (concat (Tensor.zip_with (Tensor.zip_with half_square) estimate target)).

Definition d_squared_error (estimate target : matrix) (beta : Q) : matrix :=
  Tensor.zip_with (Tensor.zip_with Float.sub) estimate target.

#[global] Instance metrics : Metrics := {|
  beta_divergence := squared_error;
  d_beta_divergence := d_squared_error
|}.

Definition block (trainable : bool) (values : list Q) : Param :=
  mkParam (map Fin values) trainable None.

Definition mat (rows : list (list Q)) : matrix := map (map Fin) rows.

(** A 2 x 2 target with a rank-1 model, every block trainable. *)
Definition X22 : matrix := mat [[1; 2]; [3; 4]].
Definition rank1_model : Model :=
  mkModel 1 [block true [1]; block true [1]] [block true [1; 1]].

(** A 1 x 1 target and model. *)
Definition X11 : matrix := mat [[1]].
Definition unit_model : Model := mkModel 1 [block true [1]] [block true [1]].

(** The same with every block fixed. *)
Definition all_fixed_model : Model :=
  mkModel 1 [block false [1]] [block false [1]].

(** A 2 x 1 target; W has a fixed block [1] and a trainable one. *)
Definition X21 : matrix := mat [[1]; [1]].
Definition fixed_first_model : Model :=
  mkModel 1 [block false [1]; block true [1]] [block true [1]].

(** The rank-1 model with its H block fixed. *)
Definition fixed_H_model : Model :=
  mkModel 1 [block true [1]; block true [1]] [block false [1; 1]].

(** A trainable block [1] whose gradient is 0, and the block it becomes
    under the denominator 2 with [l1_reg = 2]. *)
Definition graded_block : Param := mkParam [Fin 1] true (Some [Fin 0]).
Definition halved_block : Param := mkParam [Fin (1 # 2)] true (Some [Fin 0]).

(** The model of a 2 x 2 target of rank 1 built on one W block of width
    3: W is 1 x 3 where 2 x 1 was declared, and H is 1 x 2. *)
Definition misshapen_model : Model :=
  mkModel 1 [block true [1; 2; 3]] [block true [1; 1]].

(** A fixed block beside a trainable one that holds its gradient. *)
Definition kept_block : Param := mkParam [Fin 3] false None.
Definition moved_block : Param := mkParam [Fin 1] true (Some [Fin 1]).

(** A trainable block whose first gradient is above the denominator 2 of
    the run it is used in. *)
Definition steep_block : Param :=
  mkParam [Fin 1; Fin 1] true (Some [Fin 3; Fin 1]).

(** A trainable block with a zero entry, and its gradient. *)
Definition sparse_block : Param :=
  mkParam [Fin 0; Fin 1] true (Some [Fin 1; Fin 1]).

(** The locals of [fit] on the rank-1 model when a cache [H_sum] is there. *)
Definition cached_state : FitState :=
  mkFitState rank1_model (Some [Fin 5]) None None None None None [].

(** What [NMF((2, 2), 1)] builds when every random number is 1/2. *)
Definition rank1_half : Model :=
  mkModel 1 [block true [1 # 2]; block true [1 # 2]]
          [block true [1 # 2; 1 # 2]].

(** A 1 x 1 model whose only component is zero. *)
Definition zero_component_model : Model :=
  mkModel 1 [block true [1]] [block true [0]].

End Concrete.

(** ** Predicates of the statements *)

(** No entry is negative. *)
Definition nn_row (r : row) : Prop := Forall Float.nn r.
Definition nn_matrix (a : matrix) : Prop := Forall nn_row a.
Definition nn_blocks (ps : list Param) : Prop :=
  Forall (fun p => nn_row (data p)) ps.
Definition nn_model (m : Model) : Prop :=
  nn_blocks (W_list m) /\ nn_blocks (H_list m).
Definition nn_cache (c : option row) : Prop :=
  match c with
  | None => True
  | Some s => nn_row s
  end.
Definition nn_positive (p : positive) : Prop :=
  nn_matrix (denominator_of p) /\ nn_cache (cache_of p).

(** Every entry passes the Python test [x >= 0]. *)
Definition nonneg_blocks (ps : list Param) : Prop :=
  Forall (fun p => Forall Float.nonneg (data p)) ps.

(** The invariant of the loop of [fit]: the model and the two caches. *)
Definition nn_state (s : FitState) : Prop :=
  nn_model (model s) /\ nn_cache (H_sum s) /\ nn_cache (W_sum s).

(** An entry that is [>= 0] or NaN, for every block. *)
Definition never_negative (ps : list Param) : Prop :=
  Forall (fun p => Forall (fun x => Float.nonneg x \/ x = NaN) (data p)) ps.

(** The model a call of [fit] on [m] leaves behind, whether the call
    returns or raises. *)
Definition after_fit {torch : Torch} {metrics : Metrics} {methods : Methods}
           (X : matrix) (update_W update_H : bool) (beta tol : Q)
           (max_iter : Z) (alpha l1_ratio : Q) (m : Model) : Model :=
  model (fst (NMFBase.fit X update_W update_H beta tol max_iter alpha
                          l1_ratio m)).

(** ** Observations on a run of [fit] *)

(** An iteration that reaches line 154 prints one line: the lines printed
    count the iterations performed. *)
Definition iterations_performed (s : FitState) : nat := length (stdout s).

(** The losses reported, in order. *)
Definition losses (s : FitState) : list fl := map snd (stdout s).

(** No reported loss is above the one reported before it. *)
Fixpoint never_increases (ls : list fl) : Prop :=
  match ls with
  | a :: (b :: _) as rest => Float.leb b a = true /\ never_increases rest
  | _ => True
  end.

(** The first loss reported is not negative. *)
Definition starts_not_negative (ls : list fl) : Prop :=
  match ls with
  | init :: _ => Float.nn init
  | [] => True
  end.

(** The locals that only lines 153-160 write. *)
Definition same_report_locals (s s' : FitState) : Prop :=
  stdout s' = stdout s /\ loss_init s' = loss_init s
  /\ previous_loss s' = previous_loss s /\ n_iter s' = n_iter s.

(** Before iteration [i]: [i] lines are printed and, from the second
    iteration on, [loss_init] and [previous_loss] hold the first and the
    last loss printed. *)
Definition tracks (i : nat) (s : FitState) : Prop :=
  length (stdout s) = i
  /\ (i <> 0%nat ->
      exists init prev pre,
        loss_init s = Some init /\ previous_loss s = Some prev
        /\ losses s = pre ++ [prev] /\ hd_error (losses s) = Some init).

(** The test of line 158 held on the last two losses printed. *)
Definition broke (tol : Q) (s : FitState) : Prop :=
  exists init pre prev cur,
    losses s = pre ++ [prev; cur] /\ hd_error (losses s) = Some init
    /\ Float.ltb (Float.div (Float.sub prev cur) init) (Fin tol) = true.

(** ** The positive terms as the specification words them *)

Module Spec.

Section Positive.

Context {torch : Torch}.

(** The reconstruction raised to [beta - 1], the power skipped when
    [beta == 2]. *)
Definition powered (WH : matrix) (beta : Q) : matrix :=
  if Qeq_bool beta 2 then WH
  else Tensor.map_entries (fun x => pow x (beta - 1)) WH.

(** For W: when [beta == 1] the cached row sums of H, computed only when
    there is no cache, as a one-row tensor that broadcasts along the
    example axis; otherwise [WH^(beta-1) @ H.t()]. *)
Definition W_positive (H WH : matrix) (beta : Q) (H_sum : option row)
  : result positive :=
  if Qeq_bool beta 1
  then match H_sum with
       | Some s => Ok (View0 s)
       | None => Ok (View0 (map Tensor.sum H))
       end
  else (d <- Tensor.matmul (powered WH beta) (Tensor.t H) ;;
        Ok (Fresh d H_sum))%res.

(** For H: when [beta == 1] the cached column sums of W as a one-column
    tensor; otherwise [W.t() @ WH^(beta-1)]. *)
Definition H_positive (W WH : matrix) (beta : Q) (W_sum : option row)
  : result positive :=
  if Qeq_bool beta 1
  then match W_sum with
       | Some s => Ok (View1 s)
       | None => Ok (View1 (map Tensor.sum (Tensor.t W)))
       end
  else (d <- Tensor.matmul (Tensor.t W) (powered WH beta) ;;
        Ok (Fresh d W_sum))%res.

End Positive.

End Spec.

(** ** Entries of the update *)

(** Entry [i] of a list under broadcasting: the only entry of a list of
    length 1, entry [i] otherwise. *)
Definition bnth {A} (xs : list A) (i : nat) : option A :=
  match xs with
  | [x] => Some x
  | _ => nth_error xs i
  end.

(** Entry [(i, j)] of a tensor broadcast against another. *)
Definition bget (a : matrix) (i j : nat) : option fl :=
  match bnth a i with
  | Some r => bnth r j
  | None => None
  end.

(** Entry [(i, j)] of a tensor. *)
Definition mget (a : matrix) (i j : nat) : option fl :=
  match nth_error a i with
  | Some r => nth_error r j
  | None => None
  end.

(** The values a factor holds, block after block. *)
Definition values (param : param_arg) : matrix :=
  match param with
  | ParameterList ps => map data ps
  | TensorParam v _ => v
  end.

Section Entry.

Context {torch : Torch}.

Variables gamma l1_reg l2_reg : Q.

(** What the code computes for one entry: each regularisation term is
    there only when its coefficient is positive. *)
Definition mu_entry (old p g : fl) : fl :=
  let p1 := if Qltb 0 l1_reg then Float.add p (Fin l1_reg) else p in
  let p2 := if Qltb 0 l2_reg
            then Float.add p1 (Float.mul (Fin l2_reg) old)
            else p1 in
  let ratio := Float.div (Float.relu (Float.sub p g)) p2 in
  Float.mul old (if Qeq_bool gamma 1 then ratio else pow ratio gamma).

(** The entry as the specification words it:
    [old * (relu(pos - grad) / (pos + l1_reg + l2_reg * old))^gamma]. *)
Definition claimed_entry (old p g : fl) : fl :=
  let den := Float.add (Float.add p (Fin l1_reg))
                       (Float.mul (Fin l2_reg) old) in
  let ratio := Float.div (Float.relu (Float.sub p g)) den in
  Float.mul old (if Qeq_bool gamma 1 then ratio else pow ratio gamma).

End Entry.

(** ** The monitoring methods of [NMFBase] *)

Module Monitoring.

Section Methods.

Context {metrics : Metrics} {methods : Methods}.

(** [loss(X, beta)], lines 90-93: the divergence of the clamped
    reconstruction of the current factors; [X] is taken as it is. *)
Definition loss (self : Model) (X : matrix) (beta : Q) : result fl :=
  (Hm <- NMFBase.H self ;; Wm <- NMFBase.W self ;;
   WH <- reconstruct Hm Wm ;;
   Ok (beta_divergence (fix_neg WH) X beta))%res.

(** [forward(H=None, W=None)], lines 95-100. *)
Definition forward (self : Model) (H W : option matrix) : result matrix :=
  (Hm <- match H with
         | None => NMFBase.H self
         | Some h => Ok h
         end ;;
   Wm <- match W with
         | None => NMFBase.W self
         | Some w => Ok w
         end ;;
   reconstruct Hm Wm)%res.

End Methods.

End Monitoring.

(** ** Further predicates *)

(** What fitting must not touch in a list of blocks: which blocks are
    trainable and how wide each one is. *)
Definition skeleton (ps : list Param) : list (bool * nat) :=
  map (fun p => (requires_grad p, length (data p))) ps.

Definition same_structure (m m' : Model) : Prop :=
  rank m' = rank m
  /\ skeleton (W_list m') = skeleton (W_list m)
  /\ skeleton (H_list m') = skeleton (H_list m).

(** Finite values by sign. *)
Definition finite (x : fl) : Prop :=
  match x with
  | Fin _ => True
  | _ => False
  end.

Definition finite_nonneg (x : fl) : Prop :=
  match x with
  | Fin q => 0 <= q
  | _ => False
  end.

Definition finite_positive (x : fl) : Prop :=
  match x with
  | Fin q => 0 < q
  | _ => False
  end.

(** The same number, whatever the fraction that writes it. *)
Definition same_value (x y : fl) : Prop :=
  match x, y with
  | Fin a, Fin b => a == b
  | PInf, PInf | NInf, NInf | NaN, NaN => True
  | _, _ => False
  end.

(** The number of blocks a factor gets at construction. *)
Definition block_count (declared : nat) (initial : option (list row)) : nat :=
  match initial with
  | Some values => length values
  | None => declared
  end.

(** What a stretch of [fit] may do to the model: the structure stays, and
    so do the values of a side whose guard is false. *)
Definition effect (update_W update_H : bool) (m m' : Model) : Prop :=
  same_structure m m'
  /\ (NMFBase.W_enabled update_W m = false ->
      map data (W_list m') = map data (W_list m))
  /\ (NMFBase.H_enabled update_H m = false ->
      map data (H_list m') = map data (H_list m)).

(** The blocks of one factor at construction, before the flags are
    applied (lines 65-68 and 73-76). *)
Definition fresh {torch : Torch} (first_call : nat) (shape : nat * nat)
           (initial : option (list row)) : list Param :=
  match initial with
  | Some values => map NMFBase.new_parameter values
  | None =>
      map (fun i => NMFBase.new_parameter
                      (NMFBase.rand_block (first_call + i) (snd shape)))
          (seq 0 (fst shape))
  end.

(** The epochs printed, in order. *)
Definition epochs (s : FitState) : list nat := map fst (stdout s).

(** The lines printed so far carry the epochs [0, 1, ...] in order. *)
Definition numbered (s : FitState) : Prop :=
  epochs s = seq 0 (length (stdout s)).

(** [s'] has printed what [s] had, and possibly more. *)
Definition extends (s s' : FitState) : Prop :=
  exists more, stdout s' = stdout s ++ more.

(** The first loss printed is there and is not zero. *)
Definition first_loss_not_zero (s : FitState) : Prop :=
  exists init, hd_error (losses s) = Some init /\ Float.is_zero init = false.

(** A cached sum after [pos.add_(l1_reg)] went through a view of it. *)
Definition penalised (l1_reg : Q) (cache : row) : row :=
  map (fun x => Float.add x (Fin l1_reg)) cache.

(** * Properties *)

(** ** Signs of floating-point results *)

Module FloatFacts.

Import Float.

Ltac reduce := cbn [nn add mul div relu neg sub sign signed_inf leb].
Ltac reduce_all :=
  cbn [nn add mul div relu neg sub sign signed_inf leb] in *.

Lemma Qltb_lt (x y : Q) : Qltb x y = true <-> x < y.
Proof.
  unfold Qltb. rewrite negb_true_iff. split; intro H.
  - apply Qnot_le_lt. intro Hle. apply Qle_bool_iff in Hle. congruence.
  - destruct (Qle_bool y x) eqn:E; [|reflexivity].
    apply Qle_bool_iff in E. exfalso. apply (Qlt_not_le _ _ H E).
Qed.

Lemma Qltb_ge (x y : Q) : Qltb x y = false <-> y <= x.
Proof.
  unfold Qltb. rewrite negb_false_iff. apply Qle_bool_iff.
Qed.

Lemma nn_fin (q : Q) : 0 <= q -> nn (fin q).
Proof. intro H. unfold fin, nn. now rewrite Qred_correct. Qed.

Lemma nn_zero : nn zero.
Proof. unfold zero, nn. apply Qle_refl. Qed.

Lemma nn_relu (x : fl) : nn (relu x).
Proof.
  destruct x as [q| | |]; reduce; try exact I; try apply Qle_refl.
  destruct (Qltb 0 q) eqn:E; reduce.
  - apply Qltb_lt in E. now apply Qlt_le_weak.
  - apply Qle_refl.
Qed.

Lemma nn_add (x y : fl) : nn x -> nn y -> nn (add x y).
Proof.
  destruct x as [a| | |], y as [b| | |]; reduce; try tauto.
  intros Ha Hb. apply nn_fin.
  setoid_replace 0 with (0 + 0) by ring. now apply Qplus_le_compat.
Qed.

Lemma sign_nn (x : fl) : nn x -> sign x <> Lt.
Proof.
  destruct x as [a| | |]; reduce; try discriminate; try tauto.
  intros Ha E. apply Qlt_alt in E. apply (Qlt_not_le _ _ E Ha).
Qed.

Lemma nn_signed_inf (s1 s2 : comparison) :
  s1 <> Lt -> s2 <> Lt -> nn (signed_inf s1 s2).
Proof. destruct s1, s2; reduce; congruence || tauto. Qed.

Lemma nn_mul (x y : fl) : nn x -> nn y -> nn (mul x y).
Proof.
  intros Hx Hy.
  destruct x as [a| | |], y as [b| | |]; try exact I; try contradiction;
    try (apply nn_signed_inf; apply sign_nn; assumption).
  apply nn_fin. now apply Qmult_le_0_compat.
Qed.

Lemma nn_div (x y : fl) : nn x -> nn y -> nn (div x y).
Proof.
  intros Hx Hy.
  destruct x as [a| | |], y as [b| | |]; reduce_all;
    try exact I; try contradiction; try apply Qle_refl.
  - destruct (b ?= 0) eqn:Eb.
    + destruct (a ?= 0) eqn:Ea; reduce; try exact I.
      apply Qlt_alt in Ea. apply (Qlt_not_le _ _ Ea Hx).
    + apply Qlt_alt in Eb. exfalso. apply (Qlt_not_le _ _ Eb Hy).
    + apply nn_fin. apply Qgt_alt in Eb. unfold Qdiv.
      apply Qmult_le_0_compat; [assumption|].
      apply Qinv_le_0_compat. now apply Qlt_le_weak.
  - destruct (b ?= 0) eqn:Eb; reduce; try exact I.
    apply Qlt_alt in Eb. apply (Qlt_not_le _ _ Eb Hy).
Qed.

Lemma nn_threshold (x : fl) : nn x -> nn (fix_neg_entry x).
Proof.
  intro H. unfold fix_neg_entry. destruct (leb x zero); [|assumption].
  reduce. discriminate.
Qed.

(** The Python test [x >= 0] fails on NaN, and only there among the values
    that are not negative. *)
Lemma nonneg_nn (x : fl) : nonneg x <-> nn x /\ x <> NaN.
Proof.
  unfold nonneg, zero. destruct x as [q| | |]; reduce.
  - rewrite Qle_bool_iff. intuition congruence.
  - intuition congruence.
  - intuition congruence.
  - intuition congruence.
Qed.

End FloatFacts.

(** ** Signs of tensor results *)

Module TensorFacts.

Import Tensor.

Lemma mapM_Forall {A B} (f : A -> result B) (P : B -> Prop) (xs : list A) :
  (forall x y, In x xs -> f x = Ok y -> P y) ->
  forall ys, mapM f xs = Ok ys -> Forall P ys.
Proof.
  induction xs as [|x xs IH]; intros Hf ys E; cbn [mapM] in E.
  - injection E as <-. constructor.
  - destruct (f x) as [y|e] eqn:Ex; cbn [rbind] in E; [|discriminate].
    destruct (mapM f xs) as [ys'|e] eqn:Exs; cbn [rbind] in E; [|discriminate].
    injection E as <-. constructor.
    + apply (Hf x y); [now left|assumption].
    + apply IH; [|reflexivity]. intros x' y' Hin. apply Hf. now right.
Qed.

Lemma zip_with_In {A B C} (f : A -> B -> C) (xs : list A) (ys : list B) c :
  In c (zip_with f xs ys) -> exists x y, In x xs /\ In y ys /\ c = f x y.
Proof.
  revert ys. induction xs as [|x xs IH]; intros [|y ys] Hin;
    cbn [zip_with] in Hin; try contradiction.
  destruct Hin as [<-|Hin].
  - exists x, y. repeat split; now left.
  - destruct (IH _ Hin) as (x' & y' & Hx & Hy & ->).
    exists x', y'. repeat split; now right.
Qed.

Lemma bcast_Forall {A B C} (f : A -> B -> result C) (P : C -> Prop) xs ys :
  (forall x y z, In x xs -> In y ys -> f x y = Ok z -> P z) ->
  forall zs, bcast f xs ys = Ok zs -> Forall P zs.
Proof.
  intros Hf zs E. unfold bcast in E.
  destruct (length xs =? length ys)%nat.
  - refine (mapM_Forall (fun p => p) P _ _ E).
    intros r z Hin Hr. destruct (zip_with_In _ _ _ _ Hin) as (x & y & Hx & Hy & ->).
    now apply (Hf x y).
  - destruct xs as [|x [|x' xs]].
    + destruct ys as [|y [|y' ys]]; try discriminate.
      cbn [mapM] in E. injection E as <-. constructor.
    + refine (mapM_Forall _ P _ _ E). intros y z Hy. apply Hf; [now left|assumption].
    + destruct ys as [|y [|y' ys]]; try discriminate.
      refine (mapM_Forall _ P _ _ E). intros x0 z Hx. apply Hf; [assumption|now left].
Qed.

Section Closed.

Variable f : fl -> fl -> fl.
Hypothesis f_nn : forall x y, Float.nn x -> Float.nn y -> Float.nn (f x y).

Lemma row_op_nn (r s c : row) :
  nn_row r -> nn_row s -> row_op f r s = Ok c -> nn_row c.
Proof.
  intros Hr Hs E. refine (bcast_Forall _ _ _ _ _ E).
  intros x y z Hx Hy Hz. injection Hz as <-.
  apply f_nn; [exact (proj1 (Forall_forall _ _) Hr x Hx)
              |exact (proj1 (Forall_forall _ _) Hs y Hy)].
Qed.

Lemma row_op__nn (r s c : row) :
  nn_row r -> nn_row s -> row_op_ f r s = Ok c -> nn_row c.
Proof.
  intros Hr Hs E. unfold row_op_ in E.
  destruct (row_op f r s) as [c'|e] eqn:Ec; cbn [rbind] in E; [|discriminate].
  destruct (length c' =? length r)%nat; [|discriminate].
  injection E as <-. exact (row_op_nn Hr Hs Ec).
Qed.

Lemma op_nn (a b c : matrix) :
  nn_matrix a -> nn_matrix b -> op f a b = Ok c -> nn_matrix c.
Proof.
  intros Ha Hb E. refine (bcast_Forall _ _ _ _ _ E).
  intros r s z Hr Hs. apply row_op_nn.
  - exact (proj1 (Forall_forall _ _) Ha r Hr).
  - exact (proj1 (Forall_forall _ _) Hb s Hs).
Qed.

Lemma op__nn (a b c : matrix) :
  nn_matrix a -> nn_matrix b -> op_ f a b = Ok c -> nn_matrix c.
Proof.
  intros Ha Hb E. unfold op_ in E.
  destruct (op f a b) as [c'|e] eqn:Ec; cbn [rbind] in E; [|discriminate].
  destruct (shape_eqb (shape c') (shape a)); [|discriminate].
  injection E as <-. exact (op_nn Ha Hb Ec).
Qed.

End Closed.

Lemma map_entries_nn (g : fl -> fl) (a : matrix) :
  (forall x, Float.nn x -> Float.nn (g x)) ->
  nn_matrix a -> nn_matrix (map_entries g a).
Proof.
  intros Hg Ha. unfold map_entries, nn_matrix, nn_row in *.
  apply Forall_map. eapply Forall_impl; [|exact Ha].
  intros r Hr. apply Forall_map. eapply Forall_impl; [|exact Hr].
  exact Hg.
Qed.

Lemma map_entries_relu_nn (a : matrix) : nn_matrix (map_entries Float.relu a).
Proof.
  unfold map_entries, nn_matrix, nn_row.
  apply Forall_map, Forall_forall. intros r _.
  apply Forall_map, Forall_forall. intros x _. apply FloatFacts.nn_relu.
Qed.

Lemma cat_ok (blocks : list row) (a : matrix) :
  cat blocks = Ok a -> a = blocks /\ blocks <> [].
Proof.
  unfold cat. destruct blocks as [|r rest]; [discriminate|].
  destruct (same_width (length r) rest); [|discriminate].
  intro E. injection E as <-. split; [reflexivity|discriminate].
Qed.

Lemma sum_nn (r : row) : nn_row r -> Float.nn (sum r).
Proof.
  unfold sum. assert (H0 : Float.nn Float.zero) by apply FloatFacts.nn_zero.
  revert H0. generalize Float.zero as acc.
  induction r as [|x r IH]; intros acc Hacc Hr; cbn [fold_left].
  - assumption.
  - inversion Hr as [|x' r' Hx Hr']; subst.
    apply IH; [|assumption]. now apply FloatFacts.nn_add.
Qed.

Lemma zip_with_mul_nn (r s : row) :
  nn_row r -> nn_row s -> nn_row (zip_with Float.mul r s).
Proof.
  intros Hr Hs. apply Forall_forall. intros c Hc.
  destruct (zip_with_In _ _ _ _ Hc) as (x & y & Hx & Hy & ->).
  apply FloatFacts.nn_mul;
    [exact (proj1 (Forall_forall _ _) Hr x Hx)
    |exact (proj1 (Forall_forall _ _) Hs y Hy)].
Qed.

Lemma dot_nn (r s : row) : nn_row r -> nn_row s -> Float.nn (dot r s).
Proof. intros Hr Hs. apply sum_nn. now apply zip_with_mul_nn. Qed.

Lemma nth_nn (j : nat) (r : row) : nn_row r -> Float.nn (nth j r Float.zero).
Proof.
  intro Hr. destruct (nth_in_or_default j r Float.zero) as [Hin| ->].
  - exact (proj1 (Forall_forall _ _) Hr _ Hin).
  - apply FloatFacts.nn_zero.
Qed.

Lemma t_nn (a : matrix) : nn_matrix a -> nn_matrix (t a).
Proof.
  intro Ha. unfold t, column, nn_matrix.
  apply Forall_map, Forall_forall. intros j _.
  apply Forall_map. eapply Forall_impl; [|exact Ha].
  intros r Hr. now apply nth_nn.
Qed.

Lemma matmul_nn (a b c : matrix) :
  nn_matrix a -> nn_matrix b -> matmul a b = Ok c -> nn_matrix c.
Proof.
  intros Ha Hb E. unfold matmul in E.
  destruct (snd (shape a) =? length b)%nat; [|discriminate].
  injection E as <-. apply Forall_map. eapply Forall_impl; [|exact Ha].
  intros r Hr. apply Forall_map. eapply Forall_impl; [|exact (t_nn Hb)].
  intros s Hs. now apply dot_nn.
Qed.

Lemma sum_dim1_nn (a : matrix) : nn_matrix a -> nn_row (sum_dim1 a).
Proof.
  intro Ha. apply Forall_map. eapply Forall_impl; [|exact Ha].
  intros r. apply sum_nn.
Qed.

Lemma sum_dim0_nn (a : matrix) : nn_matrix a -> nn_row (sum_dim0 a).
Proof. intro Ha. apply (sum_dim1_nn (t_nn Ha)). Qed.

Lemma unsqueeze1_nn (v : row) : nn_row v -> nn_matrix (unsqueeze1 v).
Proof.
  intro Hv. apply Forall_map. eapply Forall_impl; [|exact Hv].
  intros x Hx. now constructor.
Qed.

End TensorFacts.

(** ** [_mu_update] never makes an entry negative *)

Module MuFacts.

Section Sign.

Context {torch : Torch}.

Hypothesis pow_nn : forall x g, Float.nn x -> Float.nn (pow x g).

Variables gamma l1_reg l2_reg : Q.

Lemma nn_blocks_data (ps : list Param) :
  nn_blocks ps -> nn_matrix (map data ps).
Proof. intro H. apply Forall_map. exact H. Qed.

Lemma reg_param_nn (ps : list Param) (a : matrix) :
  nn_blocks ps -> reg_param_of (ParameterList ps) = Ok a -> nn_matrix a.
Proof.
  intros Hps E. cbn [reg_param_of] in E.
  destruct (TensorFacts.cat_ok _ E) as [-> _]. now apply nn_blocks_data.
Qed.

Lemma add_l1_nn (pos : matrix) :
  nn_matrix pos ->
  nn_matrix (if Qltb 0 l1_reg
             then Tensor.map_entries (fun x => Float.add x (Fin l1_reg)) pos
             else pos).
Proof.
  intro Hpos. destruct (Qltb 0 l1_reg) eqn:E; [|assumption].
  apply TensorFacts.map_entries_nn; [|assumption].
  intros x Hx. apply FloatFacts.nn_add; [assumption|].
  apply FloatFacts.Qltb_lt in E. cbn [Float.nn]. now apply Qlt_le_weak.
Qed.

Lemma regularise_nn (ps : list Param) (pos buf : matrix) (r : result matrix) :
  nn_blocks ps -> nn_matrix pos ->
  regularise (ParameterList ps) pos l1_reg l2_reg = (buf, r) ->
  nn_matrix buf /\ forall pos', r = Ok pos' -> nn_matrix pos'.
Proof.
  intros Hps Hpos E. unfold regularise in E.
  pose proof (add_l1_nn Hpos) as H1.
  set (pos1 := if Qltb 0 l1_reg then _ else pos) in *.
  destruct (Qltb 0 l2_reg) eqn:E2.
  - destruct (reg_param_of (ParameterList ps)) as [rp|e] eqn:Erp.
    + pose proof (reg_param_nn Hps Erp) as Hrp.
      assert (Hs : nn_matrix (Tensor.map_entries (Float.mul (Fin l2_reg)) rp)).
      { apply TensorFacts.map_entries_nn; [|assumption].
        intros x Hx. apply FloatFacts.nn_mul; [|assumption].
        apply FloatFacts.Qltb_lt in E2. cbn [Float.nn]. now apply Qlt_le_weak. }
      destruct (negb _).
      * injection E as <- <-. split; [assumption|].
        intros pos' E'. exact (TensorFacts.op_nn Float.add FloatFacts.nn_add H1 Hs E').
      * destruct (Tensor.op_ Float.add pos1 _) as [pos2|e] eqn:Eop.
        -- pose proof (TensorFacts.op__nn Float.add FloatFacts.nn_add H1 Hs Eop) as H2.
           injection E as <- <-. split; [assumption|].
           intros pos' E'. now injection E' as <-.
        -- injection E as <- <-. split; [assumption|discriminate].
    + injection E as <- <-. split; [assumption|discriminate].
  - injection E as <- <-. split; [assumption|].
    intros pos' E'. now injection E' as <-.
Qed.

Lemma mul_blocks_nn (multiplier : matrix) :
  nn_matrix multiplier ->
  forall ps i ps' r,
    nn_blocks ps -> mul_blocks i ps multiplier = (ps', r) -> nn_blocks ps'.
Proof.
  intros Hm. induction ps as [|p ps IH]; intros i ps' r Hps E;
    cbn [mul_blocks] in E.
  - injection E as <- _. constructor.
  - destruct (nth_error multiplier i) as [m_i|] eqn:Ei.
    + destruct (Tensor.row_op_ Float.mul (data p) m_i) as [d|e] eqn:Ed.
      * destruct (mul_blocks (S i) ps multiplier) as [rest r'] eqn:Erest.
        injection E as <- _. inversion Hps as [|p' ps0 Hp Hps']; subst.
        constructor.
        -- cbn [set_data data].
           refine (TensorFacts.row_op__nn Float.mul FloatFacts.nn_mul Hp _ Ed).
           exact (proj1 (Forall_forall _ _) Hm _ (nth_error_In _ _ Ei)).
        -- exact (IH _ _ _ Hps' Erest).
      * now injection E as <- _.
    + now injection E as <- _.
Qed.

(** One invocation on a list of blocks: blocks and denominator free of
    negative entries stay so, whatever the gradients are and whether or not
    the call raises. *)
Lemma mu_update_nn (ps : list Param) (pos : matrix) param' buf r :
  nn_blocks ps -> nn_matrix pos ->
  _mu_update gamma l1_reg l2_reg (ParameterList ps, pos) = ((param', buf), r) ->
  nn_blocks (blocks_of param' ps) /\ nn_matrix buf.
Proof.
  intros Hps Hpos E. unfold _mu_update in E.
  destruct (gradient_of (ParameterList ps)) as [[grad|]|e].
  2,3: injection E as <- <- _; now split.
  destruct (Tensor.op Float.sub pos grad) as [diff|e].
  2: injection E as <- <- _; now split.
  destruct (regularise (ParameterList ps) pos l1_reg l2_reg) as [buf0 [pos'|e]] eqn:Ereg.
  2: { injection E as <- <- _. split; [assumption|].
       exact (proj1 (regularise_nn Hps Hpos Ereg)). }
  destruct (regularise_nn Hps Hpos Ereg) as [Hbuf Hpos'].
  specialize (Hpos' _ eq_refl).
  destruct (Tensor.op_ Float.div _ pos') as [m|e] eqn:Ediv.
  2: { injection E as <- <- _. now split. }
  pose proof (TensorFacts.op__nn Float.div FloatFacts.nn_div
                (TensorFacts.map_entries_relu_nn diff) Hpos' Ediv) as Hm.
  set (m' := if negb (Qeq_bool gamma 1) then _ else m) in E.
  assert (Hm' : nn_matrix m').
  { subst m'. destruct (negb _); [|assumption].
    apply TensorFacts.map_entries_nn; [|assumption].
    intros x Hx. now apply pow_nn. }
  cbn [apply_multiplier] in E.
  destruct (mul_blocks 0 ps m') as [ps' r'] eqn:Emul.
  injection E as <- <- _. split; [|assumption].
  cbn [blocks_of]. eapply mul_blocks_nn; [exact Hm'|exact Hps|exact Emul].
Qed.

End Sign.

End MuFacts.

(** ** [fit] never makes an entry negative *)

Module FitSign.

Import NMFBase.

Ltac solve_state :=
  unfold nn_state;
  cbn [with_model with_H_sum with_W_sum with_loss with_loss_init
       with_previous_loss with_n_iter print model H_sum W_sum nn_cache];
  refine (conj _ (conj _ _)); first [assumption | exact I].

Lemma nn_blocks_map (f : Param -> Param) (ps : list Param) :
  (forall p, data (f p) = data p) -> nn_blocks ps -> nn_blocks (map f ps).
Proof.
  intros Hf Hps. apply Forall_map. eapply Forall_impl; [|exact Hps].
  intros p Hp. cbv beta. now rewrite Hf.
Qed.

Lemma zero_grad_nn (m : Model) : nn_model m -> nn_model (zero_grad m).
Proof.
  intros [HW HH]. split; cbn [zero_grad W_list H_list];
    now apply nn_blocks_map.
Qed.

Lemma populate_nn (g : matrix) (ps : list Param) (i : nat) :
  nn_blocks ps -> nn_blocks (populate i g ps).
Proof.
  revert i. induction ps as [|p ps IH]; intros i Hps; cbn [populate].
  - constructor.
  - inversion Hps as [|p' ps' Hp Hps']; subst. constructor.
    + now destruct (requires_grad p).
    + now apply IH.
Qed.

Lemma written_back_nn (p : positive) (buf : matrix) :
  nn_positive p -> nn_matrix buf -> nn_cache (written_back p buf).
Proof.
  intros [_ Hc] Hbuf. destruct p as [d c|s|s]; cbn [written_back nn_cache].
  - exact Hc.
  - destruct buf as [|r buf]; cbn [hd]; [constructor|].
    now inversion Hbuf.
  - apply Forall_map. eapply Forall_impl; [|exact Hbuf].
    intros r Hr. destruct r as [|x r]; cbn [hd].
    + apply FloatFacts.nn_zero.
    + now inversion Hr.
Qed.

Section Generic.

Context {torch : Torch} {metrics : Metrics} {methods : Methods}.

Hypothesis pow_nn : forall x g, Float.nn x -> Float.nn (pow x g).

Hypothesis reconstruct_nn :
  forall Hm Wm WH,
    nn_matrix Hm -> nn_matrix Wm -> reconstruct Hm Wm = Ok WH -> nn_matrix WH.

Hypothesis get_W_positive_nn :
  forall m WH beta c p,
    nn_model m -> nn_matrix WH -> nn_cache c ->
    get_W_positive m WH beta c = Ok p -> nn_positive p.

Hypothesis get_H_positive_nn :
  forall m WH beta c p,
    nn_model m -> nn_matrix WH -> nn_cache c ->
    get_H_positive m WH beta c = Ok p -> nn_positive p.

Variables (X : matrix) (update_W update_H : bool) (beta tol : Q).
Variables (gamma l1_reg l2_reg : Q) (loss_scale : fl).

Lemma current_nn (m : Model) Hm Wm WH :
  nn_model m ->
  (Hm <- H m ;; Wm <- W m ;; WH <- reconstruct Hm Wm ;;
   Ok (Hm, Wm, WH))%res = Ok (Hm, Wm, WH) ->
  nn_matrix WH.
Proof.
  intros [HW HH] E. unfold H, W in E.
  destruct (Tensor.cat (map data (H_list m))) as [h|e] eqn:Eh;
    cbn [rbind] in E; [|discriminate].
  destruct (Tensor.cat (map data (W_list m))) as [w|e] eqn:Ew;
    cbn [rbind] in E; [|discriminate].
  destruct (reconstruct h w) as [wh|e] eqn:Er; cbn [rbind] in E; [|discriminate].
  injection E as -> -> ->.
  destruct (TensorFacts.cat_ok _ Eh) as [-> _].
  destruct (TensorFacts.cat_ok _ Ew) as [-> _].
  eapply reconstruct_nn; [| |exact Er]; now apply MuFacts.nn_blocks_data.
Qed.

Lemma W_step_nn (s s' : FitState) r :
  nn_state s -> W_step X beta gamma l1_reg l2_reg s = (s', r) -> nn_state s'.
Proof.
  intros (Hm & HHs & HWs) E. unfold W_step in E.
  pose proof (zero_grad_nn Hm) as Hm0.
  set (m0 := zero_grad (model s)) in *.
  destruct ((Hm <- H m0 ;; Wm <- W m0 ;; WH <- reconstruct Hm Wm ;;
             Ok (Hm, Wm, WH))%res) as [[[Hmat Wmat] WH]|e] eqn:Ecur.
  2: { injection E as <- _. solve_state. }
  assert (HWH : nn_matrix WH) by (eapply current_nn; [exact Hm0|exact Ecur]).
  cbn [with_loss with_model model H_sum W_sum] in E.
  set (m1 := with_W m0 _) in E.
  assert (Hm1 : nn_model m1).
  { subst m1. destruct Hm0 as [HW0 HH0]. split; cbn [with_W W_list H_list].
    - now apply populate_nn.
    - assumption. }
  destruct (get_W_positive m1 WH beta (H_sum s)) as [p|e] eqn:Ep.
  2: { injection E as <- _. solve_state. }
  assert (Hp : nn_positive p)
    by (eapply get_W_positive_nn; [exact Hm1|exact HWH|exact HHs|exact Ep]).
  cbn [with_H_sum model] in E.
  destruct (_mu_update gamma l1_reg l2_reg
              (ParameterList (W_list m1), denominator_of p))
    as [[param buf] r'] eqn:Emu.
  assert (Hmu : nn_blocks (blocks_of param (W_list m1)) /\ nn_matrix buf)
    by (eapply MuFacts.mu_update_nn;
        [exact pow_nn|exact (proj1 Hm1)|exact (proj1 Hp)|exact Emu]).
  destruct Hmu as [Hps Hbuf].
  assert (Hfinal : nn_model (with_W m1 (blocks_of param (W_list m1)))).
  { split; cbn [with_W W_list H_list]; [assumption|exact (proj2 Hm1)]. }
  assert (Hwb : nn_cache (written_back p buf))
    by (apply written_back_nn; assumption).
  destruct r'; injection E as <- _; solve_state.
Qed.

Lemma H_step_nn (s s' : FitState) r :
  nn_state s -> H_step X beta gamma l1_reg l2_reg s = (s', r) -> nn_state s'.
Proof.
  intros (Hm & HHs & HWs) E. unfold H_step in E.
  pose proof (zero_grad_nn Hm) as Hm0.
  set (m0 := zero_grad (model s)) in *.
  destruct ((Hm <- H m0 ;; Wm <- W m0 ;; WH <- reconstruct Hm Wm ;;
             Ok (Hm, Wm, WH))%res) as [[[Hmat Wmat] WH]|e] eqn:Ecur.
  2: { injection E as <- _. solve_state. }
  assert (HWH : nn_matrix WH) by (eapply current_nn; [exact Hm0|exact Ecur]).
  cbn [with_loss with_model model H_sum W_sum] in E.
  set (m1 := with_H m0 _) in E.
  assert (Hm1 : nn_model m1).
  { subst m1. destruct Hm0 as [HW0 HH0]. split; cbn [with_H W_list H_list].
    - assumption.
    - now apply populate_nn. }
  destruct (get_H_positive m1 WH beta (W_sum s)) as [p|e] eqn:Ep.
  2: { injection E as <- _. solve_state. }
  assert (Hp : nn_positive p)
    by (eapply get_H_positive_nn; [exact Hm1|exact HWH|exact HWs|exact Ep]).
  cbn [with_W_sum model] in E.
  destruct (_mu_update gamma l1_reg l2_reg
              (ParameterList (H_list m1), denominator_of p))
    as [[param buf] r'] eqn:Emu.
  assert (Hmu : nn_blocks (blocks_of param (H_list m1)) /\ nn_matrix buf)
    by (eapply MuFacts.mu_update_nn;
        [exact pow_nn|exact (proj2 Hm1)|exact (proj1 Hp)|exact Emu]).
  destruct Hmu as [Hps Hbuf].
  assert (Hfinal : nn_model (with_H m1 (blocks_of param (H_list m1)))).
  { split; cbn [with_H W_list H_list]; [exact (proj1 Hm1)|assumption]. }
  assert (Hwb : nn_cache (written_back p buf))
    by (apply written_back_nn; assumption).
  destruct r'; injection E as <- _; solve_state.
Qed.

Lemma report_nn (i : nat) (s s' : FitState) r :
  nn_state s -> report tol loss_scale i s = (s', r) -> nn_state s'.
Proof.
  intros (Hm & HHs & HWs) E. unfold report in E.
  destruct (loss s) as [[v|v]|]; try (injection E as <- _; solve_state).
  destruct (i =? 0)%nat; [injection E as <- _; solve_state|].
  cbn [print with_loss previous_loss loss_init] in E.
  destruct (previous_loss s), (loss_init s);
    try (injection E as <- _; solve_state).
  destruct (Float.is_zero _); [injection E as <- _; solve_state|].
  destruct (Float.ltb _ _); injection E as <- _; solve_state.
Qed.

Lemma iteration_nn (i : nat) (s s' : FitState) r :
  nn_state s ->
  iteration X update_W update_H beta tol gamma l1_reg l2_reg loss_scale i s
  = (s', r) ->
  nn_state s'.
Proof.
  intros Hs E. unfold iteration, bind in E.
  destruct (if W_enabled update_W (model s)
            then W_step X beta gamma l1_reg l2_reg s else (s, Ok tt))
    as [s1 r1] eqn:E1.
  assert (H1 : nn_state s1).
  { destruct (W_enabled update_W (model s)).
    - eapply W_step_nn; [exact Hs|exact E1].
    - now injection E1 as <- _. }
  destruct r1; [|now injection E as <- _].
  destruct (if H_enabled update_H (model s1)
            then H_step X beta gamma l1_reg l2_reg s1 else (s1, Ok tt))
    as [s2 r2] eqn:E2.
  assert (H2 : nn_state s2).
  { destruct (H_enabled update_H (model s1)).
    - eapply H_step_nn; [exact H1|exact E2].
    - now injection E2 as <- _. }
  destruct r2; [|now injection E as <- _].
  eapply report_nn; [exact H2|exact E].
Qed.

Lemma loop_nn (iters : list nat) :
  forall s s' r,
    nn_state s ->
    loop X update_W update_H beta tol gamma l1_reg l2_reg loss_scale iters s
    = (s', r) ->
    nn_state s'.
Proof.
  induction iters as [|i iters IH]; intros s s' r Hs E; cbn [loop] in E.
  - now injection E as <- _.
  - unfold bind in E.
    destruct (iteration X update_W update_H beta tol gamma l1_reg l2_reg
                        loss_scale i (with_n_iter s (Some i)))
      as [s1 r1] eqn:E1.
    assert (H1 : nn_state s1).
    { refine (iteration_nn _ _ E1). destruct Hs as (Hm & HHs & HWs).
      solve_state. }
    destruct r1 as [[|]|e].
    + now injection E as <- _.
    + eapply IH; [exact H1|exact E].
    + now injection E as <- _.
Qed.

End Generic.

End FitSign.

(** ** The matrix-product model keeps the invariant *)

Module NMFSign.

Section Sign.

Context {torch : Torch} {metrics : Metrics}.

Hypothesis pow_nn : forall x g, Float.nn x -> Float.nn (pow x g).

Lemma reconstruct_nn (Hm Wm WH : matrix) :
  nn_matrix Hm -> nn_matrix Wm -> NMF.reconstruct Hm Wm = Ok WH ->
  nn_matrix WH.
Proof.
  intros HH HW E. unfold NMF.reconstruct in E.
  eapply TensorFacts.matmul_nn; [exact HW|exact HH|exact E].
Qed.

Lemma powered_nn (beta : Q) (WH : matrix) :
  nn_matrix WH ->
  nn_matrix (if negb (Qeq_bool beta 2)
             then Tensor.map_entries (fun x => pow x (beta - 1)) WH
             else WH).
Proof.
  intro H. destruct (negb _); [|assumption].
  apply TensorFacts.map_entries_nn; [|assumption].
  intros x Hx. now apply pow_nn.
Qed.

Lemma get_W_positive_nn (m : Model) (WH : matrix) (beta : Q)
      (c : option row) (p : positive) :
  nn_model m -> nn_matrix WH -> nn_cache c ->
  NMF.get_W_positive m WH beta c = Ok p -> nn_positive p.
Proof.
  intros [HW HH] HWH Hc E. unfold NMF.get_W_positive, NMFBase.H in E.
  destruct (Tensor.cat (map data (H_list m))) as [Hm|e] eqn:Ecat;
    cbn [rbind] in E; [|discriminate].
  destruct (TensorFacts.cat_ok _ Ecat) as [-> _].
  pose proof (MuFacts.nn_blocks_data HH) as HHm.
  destruct (Qeq_bool beta 1).
  - injection E as <-.
    assert (Hs : nn_row match c with
                        | Some s => s
                        | None => Tensor.sum_dim1 (map data (H_list m))
                        end).
    { destruct c; [exact Hc|now apply TensorFacts.sum_dim1_nn]. }
    split; cbn [denominator_of cache_of nn_cache Tensor.unsqueeze0].
    + now constructor.
    + exact Hs.
  - destruct (Tensor.matmul _ _) as [d|e] eqn:Emm; cbn [rbind] in E;
      [|discriminate].
    injection E as <-. split; cbn [denominator_of cache_of]; [|exact Hc].
    eapply TensorFacts.matmul_nn; [|apply TensorFacts.t_nn; exact HHm|exact Emm].
    now apply powered_nn.
Qed.

Lemma get_H_positive_nn (m : Model) (WH : matrix) (beta : Q)
      (c : option row) (p : positive) :
  nn_model m -> nn_matrix WH -> nn_cache c ->
  NMF.get_H_positive m WH beta c = Ok p -> nn_positive p.
Proof.
  intros [HW HH] HWH Hc E. unfold NMF.get_H_positive, NMFBase.W in E.
  destruct (Tensor.cat (map data (W_list m))) as [Wm|e] eqn:Ecat;
    cbn [rbind] in E; [|discriminate].
  destruct (TensorFacts.cat_ok _ Ecat) as [-> _].
  pose proof (MuFacts.nn_blocks_data HW) as HWm.
  destruct (Qeq_bool beta 1).
  - injection E as <-.
    assert (Hs : nn_row match c with
                        | Some s => s
                        | None => Tensor.sum_dim0 (map data (W_list m))
                        end).
    { destruct c; [exact Hc|now apply TensorFacts.sum_dim0_nn]. }
    split; cbn [denominator_of cache_of nn_cache].
    + now apply TensorFacts.unsqueeze1_nn.
    + exact Hs.
  - destruct (Tensor.matmul _ _) as [d|e] eqn:Emm; cbn [rbind] in E;
      [|discriminate].
    injection E as <-. split; cbn [denominator_of cache_of]; [|exact Hc].
    eapply TensorFacts.matmul_nn; [apply TensorFacts.t_nn; exact HWm| |exact Emm].
    now apply powered_nn.
Qed.

End Sign.

Lemma nonneg_blocks_nn (ps : list Param) : nonneg_blocks ps -> nn_blocks ps.
Proof.
  intro H. eapply Forall_impl; [|exact H]. intros p Hp.
  eapply Forall_impl; [|exact Hp]. intros x Hx.
  exact (proj1 (proj1 (FloatFacts.nonneg_nn x) Hx)).
Qed.

Lemma nn_blocks_never_negative (ps : list Param) :
  nn_blocks ps -> never_negative ps.
Proof.
  intro H. eapply Forall_impl; [|exact H]. intros p Hp.
  eapply Forall_impl; [|exact Hp]. intros x Hx.
  destruct x as [q| | |]; try (now right); left; apply FloatFacts.nonneg_nn;
    (split; [exact Hx|discriminate]).
Qed.

Lemma pow_int_nn (x : fl) (g : Q) : Float.nn x -> Float.nn (Concrete.pow_int x g).
Proof.
  intro Hx. unfold Concrete.pow_int.
  destruct (Qeq_bool g 0); [cbn; discriminate|].
  destruct (negb _); [exact I|].
  destruct x as [q| | |]; try exact I; try contradiction.
  - destruct (Qeq_bool q 0 && _); [exact I|].
    apply FloatFacts.nn_fin. now apply Qpower_0_le.
  - destruct (0 <? _)%Z; [exact I|apply FloatFacts.nn_zero].
Qed.

End NMFSign.

(** C1 (as amended).  Running [fit] of the matrix-product model on factors
    whose entries all pass [x >= 0] never produces a negative entry: in the
    model left by [fit], after any number of iterations, for any [beta],
    [alpha] and [l1_ratio] and whatever the gradients are, every entry of
    every W block and of every H block is [>= 0] or NaN; and each of the two
    steps of an iteration, with its one call of [_mu_update], keeps W, H
    and the cached sums free of negative entries.  The power is assumed to
    send a value that is not negative to one that is not negative. *)
Theorem fit_never_negative
        {torch : Torch} {metrics : Metrics}
        (pow_nn : forall x g, Float.nn x -> Float.nn (pow x g))
        (X : matrix) (update_W update_H : bool) (beta tol : Q) (max_iter : Z)
        (alpha l1_ratio : Q) (m : Model) :
  nonneg_blocks (W_list m) -> nonneg_blocks (H_list m) ->
  (never_negative (W_list (after_fit X update_W update_H beta tol max_iter
                                     alpha l1_ratio m))
   /\ never_negative (H_list (after_fit X update_W update_H beta tol max_iter
                                        alpha l1_ratio m)))
  /\ forall gamma l1_reg l2_reg s,
      nn_state s ->
      nn_state (fst (NMFBase.W_step X beta gamma l1_reg l2_reg s))
      /\ nn_state (fst (NMFBase.H_step X beta gamma l1_reg l2_reg s)).
Proof.
  intros HW HH. split.
  - unfold after_fit, NMFBase.fit.
    set (s0 := mkFitState m None None None None None None []).
    assert (H0 : nn_state s0).
    { repeat split; cbn; try exact I; now apply NMFSign.nonneg_blocks_nn. }
    destruct (NMFBase.loop _ _ _ _ _ _ _ _ _ _ s0) as [s r] eqn:E.
    assert (Hs : nn_state s).
    { eapply FitSign.loop_nn;
        [exact pow_nn
        |exact (@NMFSign.reconstruct_nn)
        |exact (@NMFSign.get_W_positive_nn _ pow_nn)
        |exact (@NMFSign.get_H_positive_nn _ pow_nn)
        |exact H0|exact E]. }
    destruct Hs as ([HWs HHs] & _ & _).
    destruct r as [u|e]; [destruct (n_iter s)|]; cbn [fst];
      split; now apply NMFSign.nn_blocks_never_negative.
  - intros gamma l1_reg l2_reg s Hs. split.
    + destruct (NMFBase.W_step X beta gamma l1_reg l2_reg s) as [s' r] eqn:E.
      eapply FitSign.W_step_nn;
        [exact pow_nn|exact (@NMFSign.reconstruct_nn)
        |exact (@NMFSign.get_W_positive_nn _ pow_nn)|exact Hs|exact E].
    + destruct (NMFBase.H_step X beta gamma l1_reg l2_reg s) as [s' r] eqn:E.
      eapply FitSign.H_step_nn;
        [exact pow_nn|exact (@NMFSign.reconstruct_nn)
        |exact (@NMFSign.get_H_positive_nn _ pow_nn)|exact Hs|exact E].
Qed.

Lemma fit_never_negative_witness :
  (never_negative
     (W_list (after_fit Concrete.X22 true true 2 (1 # 100000) 3 0 0
                        Concrete.rank1_model))
   /\ never_negative
        (H_list (after_fit Concrete.X22 true true 2 (1 # 100000) 3 0 0
                           Concrete.rank1_model)))
  /\ forall gamma l1_reg l2_reg s,
      nn_state s ->
      nn_state (fst (NMFBase.W_step Concrete.X22 2 gamma l1_reg l2_reg s))
      /\ nn_state (fst (NMFBase.H_step Concrete.X22 2 gamma l1_reg l2_reg s)).
Proof.
  apply (fit_never_negative (torch := Concrete.torch)
                            (metrics := Concrete.metrics)
                            NMFSign.pow_int_nn); repeat constructor.
Defined.

(** C1 as stated fails.  W = [[1]] and H = [[0]] pass [x >= 0]; then
    [WH = 0], the denominator [WH @ H.t()] is 0 and so is the gradient, and
    one iteration leaves [1 * (relu(0 - 0) / 0) = NaN] in W, which does not
    pass [x >= 0]. *)
Lemma zero_component_gives_nan :
  nonneg_blocks (W_list Concrete.zero_component_model)
  /\ nonneg_blocks (H_list Concrete.zero_component_model)
  /\ map data (W_list (after_fit (Concrete.mat [[1]]) true true 2 0 1 0 0
                                 Concrete.zero_component_model))
     = [[NaN]]
  /\ ~ nonneg_blocks
       (W_list (after_fit (Concrete.mat [[1]]) true true 2 0 1 0 0
                          Concrete.zero_component_model)).
Proof.
  split; [repeat constructor|]. split; [repeat constructor|].
  split; [vm_compute; reflexivity|].
  intro H.
  assert (E : map data (W_list (after_fit (Concrete.mat [[1]]) true true 2 0 1
                                          0 0 Concrete.zero_component_model))
              = [[NaN]]) by (vm_compute; reflexivity).
  destruct (W_list _) as [|p [|p' ps]]; try discriminate.
  cbn [map] in E. injection E as E.
  inversion H as [|p0 ps0 Hp _]; subst. rewrite E in Hp.
  inversion Hp as [|x xs Hx _]; subst. discriminate Hx.
Qed.

(** ** The loop of [fit] *)

Module FitLoop.

Import NMFBase.

Ltac break_match E :=
  repeat match type of E with
         | context [match ?x with _ => _ end] => destruct x eqn:?
         end.

Section Generic.

Context {torch : Torch} {metrics : Metrics} {methods : Methods}.

Variables (X : matrix) (update_W update_H : bool) (beta tol : Q).
Variables (gamma l1_reg l2_reg : Q) (loss_scale : fl).

Lemma W_step_frame (s s' : FitState) r :
  W_step X beta gamma l1_reg l2_reg s = (s', r) -> same_report_locals s s'.
Proof.
  intro E. unfold W_step in E. break_match E;
    injection E as <- _; repeat split.
Qed.

Lemma H_step_frame (s s' : FitState) r :
  H_step X beta gamma l1_reg l2_reg s = (s', r) -> same_report_locals s s'.
Proof.
  intro E. unfold H_step in E. break_match E;
    injection E as <- _; repeat split.
Qed.

(** With no trainable block on either requested side the first pass
    through the loop body reads the unassigned [loss]. *)
Lemma iteration_nothing_to_update (i : nat) (s : FitState) :
  W_enabled update_W (model s) = false ->
  H_enabled update_H (model s) = false ->
  loss s = None ->
  iteration X update_W update_H beta tol gamma l1_reg l2_reg loss_scale i s
  = (s, Raise UnboundLocalError).
Proof.
  intros HW HH Hl. unfold iteration, bind. rewrite HW, HH.
  unfold report. now rewrite Hl.
Qed.

Lemma loop_nothing_to_update (i : nat) (rest : list nat) (s : FitState) :
  W_enabled update_W (model s) = false ->
  H_enabled update_H (model s) = false ->
  loss s = None ->
  snd (loop X update_W update_H beta tol gamma l1_reg l2_reg loss_scale
            (i :: rest) s)
  = Raise UnboundLocalError.
Proof.
  intros HW HH Hl. cbn [loop]. unfold bind.
  rewrite iteration_nothing_to_update; [reflexivity|assumption..].
Qed.

Lemma tracks_frame (i : nat) (s s' : FitState) :
  same_report_locals s s' -> tracks i s -> tracks i s'.
Proof.
  intros (E1 & E2 & E3 & _) [Hlen H]. unfold tracks, losses in *.
  rewrite E1, E2, E3. now split.
Qed.

Lemma hd_error_app {A} (xs ys : list A) :
  xs <> [] -> hd_error (xs ++ ys) = hd_error xs.
Proof. destruct xs; [congruence|reflexivity]. Qed.

Lemma losses_print (s : FitState) (i : nat) (l : fl) :
  losses (print s (i, l)) = losses s ++ [l].
Proof. unfold losses, print. cbn [stdout]. now rewrite map_app. Qed.

(** Lines 153-160 at iteration [i]. *)
Lemma report_spec (i : nat) (s s' : FitState) r :
  tracks i s -> n_iter s = Some i ->
  report tol loss_scale i s = (s', r) ->
  n_iter s' = Some i
  /\ match r with
     | Ok false => tracks (S i) s'
     | Ok true => length (stdout s') = S i /\ broke tol s'
     | Raise _ => (length (stdout s') <= S i)%nat
     end.
Proof.
  intros [Hlen Hloc] Hn E. unfold report in E.
  destruct (loss s) as [[v|v]|].
  2,3: injection E as <- <-; split; [assumption|lia].
  set (l := Float.div v loss_scale) in E.
  set (s1 := print (with_loss s (Some (LossFloat l))) (i, l)) in E.
  assert (Hlen1 : length (stdout s1) = S i).
  { subst s1. cbn [print stdout with_loss]. rewrite length_app, Hlen.
    cbn [length]. lia. }
  assert (Hl1 : losses s1 = losses s ++ [l]).
  { subst s1. rewrite losses_print. reflexivity. }
  assert (Hn1 : n_iter s1 = Some i) by exact Hn.
  assert (Hp1 : previous_loss s1 = previous_loss s) by reflexivity.
  assert (Hi1 : loss_init s1 = loss_init s) by reflexivity.
  clearbody s1.
  destruct (i =? 0)%nat eqn:Ei.
  - injection E as <- <-. split; [exact Hn1|]. split; [exact Hlen1|].
    intros _. apply Nat.eqb_eq in Ei. subst i.
    assert (Hnil : losses s = []).
    { unfold losses. now destruct (stdout s). }
    exists l, l, []. repeat split.
    + change (losses s1 = [] ++ [l]). now rewrite Hl1, Hnil.
    + change (hd_error (losses s1) = Some l). now rewrite Hl1, Hnil.
  - apply Nat.eqb_neq in Ei.
    destruct (Hloc Ei) as (init & prev & pre & Hi & Hp & Hls & Hhd).
    rewrite Hp1, Hi1, Hp, Hi in E.
    assert (Hhd1 : hd_error (losses s1) = Some init).
    { rewrite Hl1, hd_error_app; [exact Hhd|].
      rewrite Hls. now destruct pre. }
    destruct (Float.is_zero init).
    + injection E as <- <-. split; [exact Hn1|lia].
    + destruct (Float.ltb _ _) eqn:Eb; injection E as <- <-.
      * split; [exact Hn1|]. split; [exact Hlen1|].
        exists init, pre, prev, l. repeat split.
        -- rewrite Hl1, Hls, <- app_assoc. reflexivity.
        -- exact Hhd1.
        -- exact Eb.
      * split; [exact Hn1|]. split; [exact Hlen1|].
        intros _. exists init, l, (pre ++ [prev]). repeat split.
        -- cbn [with_previous_loss loss_init]. now rewrite Hi1.
        -- change (losses s1 = (pre ++ [prev]) ++ [l]). now rewrite Hl1, Hls.
        -- exact Hhd1.
Qed.

(** One pass through the loop body. *)
Lemma iteration_spec (i : nat) (s s' : FitState) r :
  tracks i s ->
  iteration X update_W update_H beta tol gamma l1_reg l2_reg loss_scale i
            (with_n_iter s (Some i)) = (s', r) ->
  n_iter s' = Some i
  /\ match r with
     | Ok false => tracks (S i) s'
     | Ok true => length (stdout s') = S i /\ broke tol s'
     | Raise _ => (length (stdout s') <= S i)%nat
     end.
Proof.
  intros Ht E. unfold iteration, bind in E.
  set (s0 := with_n_iter s (Some i)) in E.
  assert (Ht0 : tracks i s0) by exact Ht.
  assert (Hn0 : n_iter s0 = Some i) by reflexivity.
  destruct (if W_enabled update_W (model s0)
            then W_step X beta gamma l1_reg l2_reg s0 else (s0, Ok tt))
    as [s1 r1] eqn:E1.
  assert (F1 : same_report_locals s0 s1).
  { destruct (W_enabled update_W (model s0)).
    - eapply W_step_frame; exact E1.
    - injection E1 as <- _. now repeat split. }
  pose proof (tracks_frame F1 Ht0) as Ht1.
  assert (Hn1 : n_iter s1 = Some i).
  { destruct F1 as (_ & _ & _ & ->). exact Hn0. }
  destruct r1 as [u|e].
  2: { injection E as <- <-. split; [exact Hn1|]. destruct Ht1 as [-> _]. lia. }
  destruct (if H_enabled update_H (model s1)
            then H_step X beta gamma l1_reg l2_reg s1 else (s1, Ok tt))
    as [s2 r2] eqn:E2.
  assert (F2 : same_report_locals s1 s2).
  { destruct (H_enabled update_H (model s1)).
    - eapply H_step_frame; exact E2.
    - injection E2 as <- _. now repeat split. }
  pose proof (tracks_frame F2 Ht1) as Ht2.
  assert (Hn2 : n_iter s2 = Some i).
  { destruct F2 as (_ & _ & _ & ->). exact Hn1. }
  destruct r2 as [u2|e].
  2: { injection E as <- <-. split; [exact Hn2|]. destruct Ht2 as [-> _]. lia. }
  eapply report_spec; [exact Ht2|exact Hn2|exact E].
Qed.

(** The loop over [range(i, i + n)]: at most [n] lines are added; when it
    ends without raising after at least one pass, [n_iter] is the index of
    the last pass, one line was printed per pass, and it stopped early only
    on [break]. *)
Lemma loop_spec (n : nat) :
  forall i s s' r,
    tracks i s ->
    loop X update_W update_H beta tol gamma l1_reg l2_reg loss_scale
         (seq i n) s = (s', r) ->
    (length (stdout s') <= i + n)%nat
    /\ (r = Ok tt -> n <> 0%nat ->
        exists k, (k < n)%nat /\ n_iter s' = Some (i + k)%nat
                  /\ length (stdout s') = S (i + k)
                  /\ ((S k < n)%nat -> broke tol s')).
Proof.
  induction n as [|n IH]; intros i s s' r Ht E; cbn [seq loop] in E.
  - injection E as <- <-. split; [destruct Ht as [-> _]; lia|congruence].
  - unfold bind in E.
    destruct (iteration X update_W update_H beta tol gamma l1_reg l2_reg
                        loss_scale i (with_n_iter s (Some i)))
      as [s1 r1] eqn:E1.
    eapply iteration_spec in E1 as [Hn1 H1]; [|exact Ht].
    destruct r1 as [[|]|e].
    + injection E as <- <-. destruct H1 as [Hlen Hb]. split; [lia|].
      intros _ _. exists 0%nat. rewrite Nat.add_0_r.
      repeat split; [lia|exact Hn1|exact Hlen|intros _; exact Hb].
    + destruct (IH _ _ _ _ H1 E) as [Hle Hok]. split; [lia|].
      intros Hr _. destruct n as [|n'].
      * cbn [seq loop] in E. injection E as <- _.
        exists 0%nat. rewrite Nat.add_0_r.
        repeat split; [lia|exact Hn1|exact (proj1 H1)|lia].
      * destruct (Hok Hr ltac:(discriminate)) as (k & Hk & Hnk & Hlk & Hbk).
        exists (S k). replace (i + S k)%nat with (S i + k)%nat by lia.
        repeat split; [lia|exact Hnk|exact Hlk|intros; apply Hbk; lia].
    + injection E as <- <-. split; [lia|discriminate].
Qed.

End Generic.

End FitLoop.

(** ** The test of line 158 when the loss does not rise *)

Module BreakFacts.

Import Float.

Lemma sub_nn (a b : fl) : leb b a = true -> nn (sub a b).
Proof.
  unfold sub.
  destruct a as [p| | |], b as [q| | |];
    cbn [leb neg add nn]; try discriminate; try (intros _; exact I).
  intro H. apply Qle_bool_iff in H. apply FloatFacts.nn_fin.
  unfold fin. rewrite Qred_correct.
  setoid_replace 0 with (q + - q) by ring.
  apply Qplus_le_compat; [exact H|apply Qle_refl].
Qed.

Lemma ltb_nn (x : fl) (tol : Q) : nn x -> tol == 0 -> ltb x (Fin tol) = false.
Proof.
  intros Hx Ht. destruct x as [q| | |]; cbn [ltb nn] in *;
    try reflexivity; try contradiction.
  apply FloatFacts.Qltb_ge. now rewrite Ht.
Qed.

Lemma never_increases_last (pre : list fl) (a b : fl) :
  never_increases (pre ++ [a; b]) -> leb b a = true.
Proof.
  induction pre as [|x pre IH]; cbn [app never_increases].
  - now intros [H _].
  - destruct (pre ++ [a; b]) eqn:E.
    + now destruct pre.
    + intros [_ H]. apply IH. exact H.
Qed.

Lemma no_break (tol : Q) (s : FitState) :
  tol == 0 -> never_increases (losses s) -> starts_not_negative (losses s) ->
  ~ broke tol s.
Proof.
  intros Ht Hni Hinit (init & pre & prev & cur & Hl & Hhd & Hb).
  rewrite Hl in Hni. apply never_increases_last in Hni.
  assert (Hi : nn init).
  { destruct (losses s) as [|i0 rest]; [discriminate|].
    cbn [hd_error] in Hhd. injection Hhd as <-. exact Hinit. }
  rewrite ltb_nn in Hb; [discriminate| |exact Ht].
  apply FloatFacts.nn_div; [now apply sub_nn|exact Hi].
Qed.

End BreakFacts.

(** C7 (as amended).  [fit] never performs more than [max_iter] iterations.
    Whenever it returns, and it can raise instead, the value returned is
    the zero-based index of the last iteration performed, one less than the
    number of iterations performed; if moreover [tol = 0], exactly
    [max_iter] iterations were performed, provided the first loss reported
    is not negative and no loss reported is above the one before it; and
    [fit_transform] returns the same value together with the concatenation
    of the final W blocks. *)
Theorem fit_iteration_count
        {torch : Torch} {metrics : Metrics} {methods : Methods}
        (X : matrix) (update_W update_H : bool) (beta tol : Q) (max_iter : Z)
        (alpha l1_ratio : Q) (m : Model) :
  (iterations_performed
     (fst (NMFBase.fit X update_W update_H beta tol max_iter alpha l1_ratio m))
   <= Z.to_nat max_iter)%nat
  /\ forall s n,
      NMFBase.fit X update_W update_H beta tol max_iter alpha l1_ratio m
      = (s, Ok n) ->
      iterations_performed s = S n
      /\ (tol == 0 -> never_increases (losses s) ->
          starts_not_negative (losses s) ->
          iterations_performed s = Z.to_nat max_iter)
      /\ NMFBase.fit_transform X update_W update_H beta tol max_iter alpha
                               l1_ratio m
         = (s, match NMFBase.W (model s) with
               | Ok w => Ok (n, w)
               | Raise e => Raise e
               end).
Proof.
  unfold NMFBase.fit_transform, NMFBase.fit, iterations_performed.
  set (s0 := mkFitState m None None None None None None []).
  assert (Ht : tracks 0 s0) by (split; [reflexivity|congruence]).
  destruct (Z.to_nat max_iter) as [|n'] eqn:En.
  - cbn [seq NMFBase.loop ret]. split; [cbn; lia|].
    intros s n Hfit. discriminate Hfit.
  - destruct (NMFBase.loop _ _ _ _ _ _ _ _ _ _ s0) as [s1 r1] eqn:E.
    eapply FitLoop.loop_spec in E as [Hle Hok]; [|exact Ht].
    split.
    + destruct r1 as [u|e]; [destruct (n_iter s1)|]; exact Hle.
    + intros s n Hfit. destruct r1 as [[]|e]; [|discriminate].
      destruct (Hok eq_refl ltac:(discriminate)) as (k & Hk & Hnk & Hlk & Hbk).
      rewrite Hnk in Hfit |- *. injection Hfit as <- <-.
      cbn [plus] in *. split; [exact Hlk|]. split.
      * intros Htol Hni Hinit.
        destruct (Nat.eq_dec (S k) (S n')) as [Heq|Hne]; [lia|].
        exfalso. apply (BreakFacts.no_break Htol Hni Hinit).
        apply Hbk. lia.
      * unfold NMFBase.W.
        destruct (Tensor.cat (map data (W_list (model s1)))); reflexivity.
Qed.

Lemma fit_iteration_count_witness :
  snd (NMFBase.fit Concrete.X22 true true 2 0 3 0 0 Concrete.rank1_model)
  = Ok 2%nat
  /\ iterations_performed
       (fst (NMFBase.fit Concrete.X22 true true 2 0 3 0 0
                         Concrete.rank1_model))
     = 3%nat.
Proof.
  assert (Hs : snd (NMFBase.fit Concrete.X22 true true 2 0 3 0 0
                                Concrete.rank1_model) = Ok 2%nat)
    by (vm_compute; reflexivity).
  pose proof (surjective_pairing
                (NMFBase.fit Concrete.X22 true true 2 0 3 0 0
                             Concrete.rank1_model)) as E.
  rewrite Hs in E.
  destruct (fit_iteration_count (torch := Concrete.torch)
              (metrics := Concrete.metrics) (methods := NMF.methods)
              Concrete.X22 true true 2 0 3 0 0 Concrete.rank1_model)
    as [_ H].
  destruct (H _ _ E) as (_ & H2 & _).
  split; [exact Hs|].
  apply H2; vm_compute; repeat split; try reflexivity; discriminate.
Defined.

(** C7 as stated fails.  With [max_iter = 1] one iteration runs and [fit]
    returns 0, not 1.  With [tol = 0], [max_iter = 3] and [alpha = 1] the
    loss rises from 1/8 to 625/1458, the test of line 158 holds and the
    loop stops after 2 iterations, returning 1. *)
Lemma fit_returns_last_index :
  (snd (NMFBase.fit Concrete.X22 true true 2 0 1 0 0 Concrete.rank1_model)
   = Ok 0%nat
   /\ iterations_performed
        (fst (NMFBase.fit Concrete.X22 true true 2 0 1 0 0
                          Concrete.rank1_model))
      = 1%nat)
  /\ (snd (NMFBase.fit Concrete.X11 true true 2 0 3 1 1 Concrete.unit_model)
      = Ok 1%nat
      /\ losses (fst (NMFBase.fit Concrete.X11 true true 2 0 3 1 1
                                  Concrete.unit_model))
         = [Fin (1 # 8); Fin (625 # 1458)]).
Proof. repeat split; vm_compute; reflexivity. Qed.

(** C10.  When [max_iter <= 0], or when neither requested side has a
    trainable block, [fit] raises the unbound-variable error: in the first
    case at [return n_iter] after a loop that never ran, in the second at
    line 153 on the unassigned [loss].  So [fit] returns only when
    [max_iter >= 1] and one of the two steps ran. *)
Theorem fit_unbound_without_a_step
        {torch : Torch} {metrics : Metrics} {methods : Methods}
        (X : matrix) (update_W update_H : bool) (beta tol : Q) (max_iter : Z)
        (alpha l1_ratio : Q) (m : Model) :
  (max_iter <= 0)%Z
  \/ (NMFBase.W_enabled update_W m = false
      /\ NMFBase.H_enabled update_H m = false) ->
  snd (NMFBase.fit X update_W update_H beta tol max_iter alpha l1_ratio m)
  = Raise UnboundLocalError
  /\ forall n,
      snd (NMFBase.fit X update_W update_H beta tol max_iter alpha l1_ratio m)
      <> Ok n.
Proof.
  intro H.
  assert (E : snd (NMFBase.fit X update_W update_H beta tol max_iter alpha
                               l1_ratio m) = Raise UnboundLocalError).
  { unfold NMFBase.fit.
    destruct (Z.to_nat max_iter) as [|n'] eqn:En; [reflexivity|].
    destruct H as [H|[HW HH]]; [lia|].
    cbn [seq].
    match goal with
    | |- context [NMFBase.loop ?a ?b ?c ?d ?e ?f ?g ?h ?i (?j :: ?k) ?s0] =>
        pose proof (@FitLoop.loop_nothing_to_update
                      _ _ _ a b c d e f g h i j k s0 HW HH eq_refl) as Hl;
        destruct (NMFBase.loop a b c d e f g h i (j :: k) s0) as [s r]
    end.
    cbn [snd] in Hl. subst r. reflexivity. }
  split; [exact E|]. intros n Hn. rewrite E in Hn. discriminate.
Qed.

Lemma fit_unbound_without_a_step_witness :
  snd (NMFBase.fit Concrete.X22 true true 2 0 0 0 0 Concrete.rank1_model)
  = Raise UnboundLocalError
  /\ forall n,
      snd (NMFBase.fit Concrete.X22 true true 2 0 0 0 0 Concrete.rank1_model)
      <> Ok n.
Proof.
  apply (fit_unbound_without_a_step (torch := Concrete.torch)
           (metrics := Concrete.metrics) (methods := NMF.methods)).
  left. lia.
Defined.

(** C9 fails on the code.  With every block of both factors fixed, no step
    runs, [loss] is never assigned and line 153 raises; skipping one side
    only is silent. *)
Lemma fit_all_fixed_raises :
  existsb requires_grad (W_list Concrete.all_fixed_model) = false
  /\ existsb requires_grad (H_list Concrete.all_fixed_model) = false
  /\ snd (NMFBase.fit Concrete.X11 true true 2 (1 # 100000) 200 0 0
                      Concrete.all_fixed_model)
     = Raise UnboundLocalError
  /\ snd (NMFBase.fit Concrete.X22 true true 2 (1 # 100000) 1 0 0
                      Concrete.fixed_H_model)
     = Ok 0%nat.
Proof. repeat split; vm_compute; reflexivity. Qed.

(** C2 fails on the code.  W has a fixed block [1] and a trainable block;
    with [alpha = 1], [l1_ratio = 1] one iteration multiplies every block
    of W by [relu(pos - grad) / (pos + l1_reg) = 1 / 2], the fixed one (whose
    gradient is taken as 0) included. *)
Lemma fixed_block_is_rescaled :
  map requires_grad (W_list Concrete.fixed_first_model) = [false; true]
  /\ map data (W_list Concrete.fixed_first_model) = [[Fin 1]; [Fin 1]]
  /\ map data (W_list (after_fit Concrete.X21 true true 2 0 1 1 1
                                 Concrete.fixed_first_model))
     = [[Fin (1 # 2)]; [Fin (1 # 2)]]
  /\ map requires_grad (W_list (after_fit Concrete.X21 true true 2 0 1 1 1
                                          Concrete.fixed_first_model))
     = [false; true].
Proof. repeat split; vm_compute; reflexivity. Qed.

(** C5.  The exponent [fit] hands to [_mu_update] is [1 / (2 - beta)] when
    [beta < 1], [1 / (beta - 1)] when [beta > 2], and 1 when
    [1 <= beta <= 2]. *)
Theorem select_gamma_cases (beta : Q) :
  (beta < 1 -> NMFBase.select_gamma beta = 1 / (2 - beta))
  /\ (2 < beta -> NMFBase.select_gamma beta = 1 / (beta - 1))
  /\ (1 <= beta -> beta <= 2 -> NMFBase.select_gamma beta = 1).
Proof.
  unfold NMFBase.select_gamma. repeat split.
  - intro H. apply FloatFacts.Qltb_lt in H. now rewrite H.
  - intro H. destruct (Qltb beta 1) eqn:E.
    + apply FloatFacts.Qltb_lt in E. exfalso.
      apply (Qlt_irrefl 2). apply Qlt_trans with beta; [assumption|].
      apply Qlt_trans with 1; [assumption|reflexivity].
    + apply FloatFacts.Qltb_lt in H. now rewrite H.
  - intros H1 H2. apply FloatFacts.Qltb_ge in H1, H2. now rewrite H1, H2.
Qed.

Lemma select_gamma_cases_witness :
  NMFBase.select_gamma 0 = 1 / (2 - 0)
  /\ NMFBase.select_gamma 3 = 1 / (3 - 1)
  /\ NMFBase.select_gamma (3 # 2) = 1.
Proof.
  split; [|split].
  - apply (proj1 (select_gamma_cases 0)). reflexivity.
  - apply (proj1 (proj2 (select_gamma_cases 3))). reflexivity.
  - apply (proj2 (proj2 (select_gamma_cases (3 # 2)))); discriminate.
Defined.

(** C6.  On a model whose blocks concatenate, [get_W_positive] and
    [get_H_positive] of the matrix-product model return what the
    specification says: at [beta == 1] the cached sum (the row sums of H,
    the column sums of W, computed only when the cache argument is [None])
    as a view that broadcasts, and otherwise [WH^(beta-1) @ H.t()] and
    [W.t() @ WH^(beta-1)], the power skipped at [beta == 2], with the cache
    passed through. *)
Theorem positive_terms_refine_spec
        {torch : Torch} (self : Model) (Hm Wm WH : matrix) (beta : Q)
        (cache : option row) :
  NMFBase.H self = Ok Hm -> NMFBase.W self = Ok Wm ->
  NMF.get_W_positive self WH beta cache = Spec.W_positive Hm WH beta cache
  /\ NMF.get_H_positive self WH beta cache = Spec.H_positive Wm WH beta cache.
Proof.
  intros EH EW.
  unfold NMF.get_W_positive, NMF.get_H_positive, Spec.W_positive,
    Spec.H_positive, Spec.powered.
  rewrite EH, EW. cbn [rbind].
  destruct (Qeq_bool beta 1).
  - destruct cache; split; reflexivity.
  - destruct (Qeq_bool beta 2); cbn [negb]; split; reflexivity.
Qed.

Lemma positive_terms_refine_spec_witness :
  NMF.get_W_positive Concrete.rank1_model [[Fin 1; Fin 1]; [Fin 1; Fin 1]] 1
                     None
  = Spec.W_positive [[Fin 1; Fin 1]] [[Fin 1; Fin 1]; [Fin 1; Fin 1]] 1 None
  /\ NMF.get_H_positive Concrete.rank1_model
                        [[Fin 1; Fin 1]; [Fin 1; Fin 1]] 1 None
     = Spec.H_positive [[Fin 1]; [Fin 1]] [[Fin 1; Fin 1]; [Fin 1; Fin 1]] 1
                       None.
Proof.
  apply (positive_terms_refine_spec (torch := Concrete.torch));
    reflexivity.
Defined.

(** ** Construction *)

Module InitFacts.

Lemma set_fixed_ok (flags : list bool) :
  forall ps,
    (length flags <= length ps)%nat ->
    exists ps', NMFBase.set_fixed flags ps = Ok ps'
                /\ map data ps' = map data ps.
Proof.
  induction flags as [|f flags IH]; intros ps Hlen; cbn [NMFBase.set_fixed].
  - now exists ps.
  - destruct ps as [|p ps]; [cbn in Hlen; lia|].
    destruct (IH ps) as (ps' & E & Hd); [cbn in Hlen; lia|].
    rewrite E. cbn [rbind]. eexists. split; [reflexivity|].
    cbn [map set_requires_grad data]. now rewrite Hd.
Qed.

Lemma init_blocks_given {torch : Torch} (first : nat) (shape : nat * nat)
      (values : list row) (fixed : list bool) :
  (length fixed <= length values)%nat ->
  exists ps, NMFBase.init_blocks first shape (Some values) fixed = Ok ps
             /\ map data ps = values.
Proof.
  intro Hlen. unfold NMFBase.init_blocks.
  destruct (set_fixed_ok fixed (map NMFBase.new_parameter values))
    as (ps & E & Hd).
  - now rewrite length_map.
  - exists ps. split; [exact E|]. rewrite Hd, map_map.
    cbn [NMFBase.new_parameter data]. apply map_id.
Qed.

End InitFacts.

(** C8 (as amended).  The constructor checks nothing: whatever the
    declared shape of X and the rank, when initial values are supplied for
    both factors and neither tuple of flags is longer than its list of
    blocks, construction succeeds and the model holds the supplied blocks
    as they are. *)
Theorem init_accepts_any_initial_values
        {torch : Torch} (X_shape : nat * nat) (n_components : nat)
        (initial_components : list row) (fix_components : list bool)
        (initial_weights : list row) (fix_weights : list bool) :
  (length fix_weights <= length initial_weights)%nat ->
  (length fix_components <= length initial_components)%nat ->
  exists m,
    NMF.__init__ X_shape n_components (Some initial_components) fix_components
                 (Some initial_weights) fix_weights = Ok m
    /\ map data (W_list m) = initial_weights
    /\ map data (H_list m) = initial_components
    /\ rank m = n_components.
Proof.
  intros HW HH. unfold NMF.__init__, NMFBase.__init__.
  destruct X_shape as [m_examples n_features].
  destruct (InitFacts.init_blocks_given 0 (m_examples, n_components)
              initial_weights fix_weights HW) as (ws & EW & HdW).
  destruct (InitFacts.init_blocks_given (fst (m_examples, n_components))
              (n_components, n_features) initial_components fix_components HH)
    as (hs & EH & HdH).
  rewrite EW. cbn [rbind]. rewrite EH. cbn [rbind].
  eexists. split; [reflexivity|]. cbn [W_list H_list rank]. now repeat split.
Qed.

Lemma init_accepts_any_initial_values_witness :
  exists m,
    NMF.__init__ (2, 2)%nat 1 (Some [[Fin 1; Fin 1]]) [false]
                 (Some [[Fin 1; Fin 2; Fin 3]]) [] = Ok m
    /\ map data (W_list m) = [[Fin 1; Fin 2; Fin 3]]
    /\ map data (H_list m) = [[Fin 1; Fin 1]]
    /\ rank m = 1%nat.
Proof.
  apply (init_accepts_any_initial_values (torch := Concrete.torch));
    cbn [length]; lia.
Defined.

(** C8 as stated fails.  X is declared 2 x 2 and the rank 1, so W is 2 x 1;
    one block of width 3 is supplied for it, and construction succeeds. *)
Lemma init_does_not_check_shapes :
  exists m,
    NMF.__init__ (2, 2)%nat 1 None [] (Some [[Fin 1; Fin 2; Fin 3]]) [] = Ok m
    /\ Tensor.shape (map data (W_list m)) = (1, 3)%nat
    /\ Tensor.shape (map data (W_list m)) <> (2, 1)%nat.
Proof.
  eexists. split; [vm_compute; reflexivity|]. split; [reflexivity|discriminate].
Qed.

(** ** Entries of broadcast results *)

Module Broadcast.

Import Tensor.

Lemma mapM_length {A B} (g : A -> result B) (l : list A) (zs : list B) :
  mapM g l = Ok zs -> length zs = length l.
Proof.
  revert zs. induction l as [|a l IH]; intros zs E; cbn [mapM] in E.
  - now injection E as <-.
  - destruct (g a); cbn [rbind] in E; [|discriminate].
    destruct (mapM g l) as [zs'|]; cbn [rbind] in E; [|discriminate].
    injection E as <-. cbn [length]. now rewrite (IH zs').
Qed.

Lemma mapM_nth {A B} (g : A -> result B) (l : list A) (zs : list B) :
  mapM g l = Ok zs ->
  forall i z, nth_error zs i = Some z ->
              exists a, nth_error l i = Some a /\ g a = Ok z.
Proof.
  revert zs. induction l as [|a l IH]; intros zs E i z Hz; cbn [mapM] in E.
  - injection E as <-. now destruct i.
  - destruct (g a) as [b|] eqn:Ea; cbn [rbind] in E; [|discriminate].
    destruct (mapM g l) as [zs'|]; cbn [rbind] in E; [|discriminate].
    injection E as <-. destruct i as [|i]; cbn [nth_error] in *.
    + injection Hz as <-. now exists a.
    + now apply (IH zs').
Qed.

Lemma zip_with_nth {A B C} (f : A -> B -> C) (xs : list A) (ys : list B) :
  forall i c,
    nth_error (zip_with f xs ys) i = Some c ->
    exists x y, nth_error xs i = Some x /\ nth_error ys i = Some y
                /\ c = f x y.
Proof.
  revert ys. induction xs as [|x xs IH]; intros [|y ys] i c Hc;
    cbn [zip_with] in Hc; try (now destruct i).
  destruct i as [|i]; cbn [nth_error] in *.
  - injection Hc as <-. now exists x, y.
  - now apply IH.
Qed.

Lemma nth_bnth {A} (xs : list A) (i : nat) (x : A) :
  nth_error xs i = Some x -> bnth xs i = Some x.
Proof.
  destruct xs as [|a [|b xs]]; cbn [bnth]; try tauto.
  destruct i as [|i]; cbn [nth_error]; [tauto|]. now destruct i.
Qed.

Lemma bnth_cases {A} (xs : list A) (i : nat) (x : A) :
  bnth xs i = Some x -> xs = [x] \/ (length xs <> 1%nat /\ nth_error xs i = Some x).
Proof.
  destruct xs as [|a [|b xs]]; cbn [bnth length].
  - now destruct i.
  - intro E. injection E as <-. now left.
  - intro E. right. split; [lia|exact E].
Qed.

Lemma bnth_in_range {A} (xs : list A) (i : nat) (x : A) :
  bnth xs i = Some x -> (i < length xs)%nat -> nth_error xs i = Some x.
Proof.
  intros E Hi. destruct (bnth_cases _ _ E) as [->|[_ H]]; [|exact H].
  cbn [length] in Hi. now replace i with 0%nat by lia.
Qed.

Lemma bnth_map {A B} (h : A -> B) (xs : list A) (i : nat) :
  bnth (map h xs) i = option_map h (bnth xs i).
Proof.
  destruct xs as [|a [|b xs]]; cbn [map bnth option_map].
  - now destruct i.
  - reflexivity.
  - change (h a :: h b :: map h xs) with (map h (a :: b :: xs)).
    now rewrite nth_error_map.
Qed.

(** An entry of a broadcast result comes from the entries of the operands
    at the same place under broadcasting. *)
Lemma bcast_bnth {A B C} (f : A -> B -> result C) xs ys zs :
  bcast f xs ys = Ok zs ->
  forall i z, bnth zs i = Some z ->
              exists x y, bnth xs i = Some x /\ bnth ys i = Some y
                          /\ f x y = Ok z.
Proof.
  intros E i z Hz. unfold bcast in E.
  destruct (length xs =? length ys)%nat eqn:El.
  - apply Nat.eqb_eq in El.
    destruct (bnth_cases _ _ Hz) as [->|[_ Hn]].
    + pose proof (mapM_length _ _ E) as Hlen. cbn [length] in Hlen.
      destruct xs as [|x [|x' xs]], ys as [|y [|y' ys]];
        cbn [zip_with length] in *; try discriminate; try lia.
      cbn [mapM] in E. destruct (f x y) as [c|] eqn:Ec; cbn [rbind] in E;
        [|discriminate].
      injection E as ->. now exists x, y.
    + destruct (mapM_nth _ _ E _ Hn) as (c & Hc & ->).
      destruct (zip_with_nth _ _ _ _ Hc) as (x & y & Hx & Hy & ->).
      exists x, y. repeat split; now try apply nth_bnth.
  - apply Nat.eqb_neq in El. destruct xs as [|x [|x' xs]].
    + destruct ys as [|y [|y' ys]]; try discriminate.
      cbn [mapM] in E. injection E as <-. now destruct i.
    + pose proof (mapM_length _ _ E) as Hlen.
      destruct (bnth_cases _ _ Hz) as [->|[_ Hn]].
      * cbn [length] in *. congruence.
      * destruct (mapM_nth _ _ E _ Hn) as (y & Hy & Hf).
        exists x, y. repeat split; [now apply nth_bnth|exact Hf].
    + destruct ys as [|y [|y' ys]]; try discriminate.
      pose proof (mapM_length _ _ E) as Hlen.
      destruct (bnth_cases _ _ Hz) as [->|[_ Hn]].
      * cbn [length] in Hlen. lia.
      * destruct (mapM_nth _ _ E _ Hn) as (x0 & Hx & Hf).
        exists x0, y. repeat split; [now apply nth_bnth|exact Hf].
Qed.

Lemma row_op_bnth (f : fl -> fl -> fl) (r s c : row) :
  row_op f r s = Ok c ->
  forall j z, bnth c j = Some z ->
              exists x y, bnth r j = Some x /\ bnth s j = Some y /\ z = f x y.
Proof.
  intros E j z Hz. destruct (bcast_bnth _ _ _ E _ Hz) as (x & y & Hx & Hy & Hf).
  injection Hf as <-. now exists x, y.
Qed.

Lemma op_bget (f : fl -> fl -> fl) (a b c : matrix) :
  op f a b = Ok c ->
  forall i j z, bget c i j = Some z ->
                exists x y, bget a i j = Some x /\ bget b i j = Some y
                            /\ z = f x y.
Proof.
  intros E i j z Hz. unfold bget in *.
  destruct (bnth c i) as [rc|] eqn:Ec; [|discriminate].
  destruct (bcast_bnth _ _ _ E _ Ec) as (ra & rb & Ha & Hb & Hr).
  rewrite Ha, Hb. exact (row_op_bnth _ _ _ Hr _ Hz).
Qed.

Lemma op__ok (f : fl -> fl -> fl) (a b c : matrix) :
  op_ f a b = Ok c -> op f a b = Ok c /\ length c = length a.
Proof.
  unfold op_. destruct (op f a b) as [c'|]; cbn [rbind]; [|discriminate].
  destruct (shape_eqb (shape c') (shape a)) eqn:Es; [|discriminate].
  intro E. injection E as <-. split; [reflexivity|].
  unfold shape_eqb, shape in Es. cbn [fst] in Es.
  apply andb_prop in Es. now apply Nat.eqb_eq.
Qed.

Lemma row_op__ok (f : fl -> fl -> fl) (r s c : row) :
  row_op_ f r s = Ok c -> row_op f r s = Ok c /\ length c = length r.
Proof.
  unfold row_op_. destruct (row_op f r s) as [c'|]; cbn [rbind]; [|discriminate].
  destruct (length c' =? length r)%nat eqn:El; [|discriminate].
  intro E. injection E as <-. split; [reflexivity|now apply Nat.eqb_eq].
Qed.

Lemma map_entries_bget (h : fl -> fl) (a : matrix) (i j : nat) :
  bget (map_entries h a) i j = option_map h (bget a i j).
Proof.
  unfold bget, map_entries, matrix, row in *. rewrite bnth_map.
  destruct (bnth a i); cbn [option_map]; [apply bnth_map|reflexivity].
Qed.

Lemma mget_bget (a : matrix) (i j : nat) (x : fl) :
  mget a i j = Some x -> bget a i j = Some x.
Proof.
  unfold mget, bget. destruct (nth_error a i) as [r|] eqn:E; [|discriminate].
  rewrite (nth_bnth _ _ E). apply nth_bnth.
Qed.

End Broadcast.

(** ** The entries [_mu_update] writes *)

Module MuEntries.

Import Broadcast.

Section Entries.

Context {torch : Torch}.

Variables gamma l1_reg l2_reg : Q.

Lemma reg_param_values (param : param_arg) (rp : matrix) :
  reg_param_of param = Ok rp -> rp = values param.
Proof.
  destruct param as [ps|v g]; cbn [reg_param_of values]; intro E.
  - now destruct (TensorFacts.cat_ok _ E).
  - now injection E.
Qed.

(** The denominator after lines 16-26. *)
Lemma regularise_entry (param : param_arg) (pos buf pos' : matrix) :
  regularise param pos l1_reg l2_reg = (buf, Ok pos') ->
  forall i j den,
    bget pos' i j = Some den ->
    exists p,
      bget pos i j = Some p
      /\ let p1 := if Qltb 0 l1_reg then Float.add p (Fin l1_reg) else p in
         if Qltb 0 l2_reg
         then exists old, bget (values param) i j = Some old
                          /\ den = Float.add p1 (Float.mul (Fin l2_reg) old)
         else den = p1.
Proof.
  intros E i j den Hden. unfold regularise in E.
  set (pos1 := if Qltb 0 l1_reg then _ else pos) in E.
  assert (H1 : forall x, bget pos1 i j = Some x ->
                         exists p, bget pos i j = Some p
                                   /\ x = if Qltb 0 l1_reg
                                          then Float.add p (Fin l1_reg)
                                          else p).
  { intros x Hx. subst pos1. destruct (Qltb 0 l1_reg).
    - rewrite map_entries_bget in Hx.
      destruct (bget pos i j) as [p|]; [|discriminate].
      injection Hx as <-. now exists p.
    - now exists x. }
  clearbody pos1.
  destruct (Qltb 0 l2_reg).
  - destruct (reg_param_of param) as [rp|] eqn:Erp; [|discriminate].
    apply reg_param_values in Erp. subst rp.
    assert (Hop : Tensor.op Float.add pos1
                    (Tensor.map_entries (Float.mul (Fin l2_reg)) (values param))
                  = Ok pos').
    { destruct (negb _).
      - now injection E.
      - destruct (Tensor.op_ Float.add pos1 _) as [pos2|] eqn:E2;
          [|discriminate].
        injection E as _ <-. exact (proj1 (op__ok _ _ _ E2)). }
    destruct (op_bget _ _ _ Hop _ _ Hden) as (x & y & Hx & Hy & ->).
    destruct (H1 _ Hx) as (p & Hp & ->).
    rewrite map_entries_bget in Hy.
    destruct (bget (values param) i j) as [old|]; [|discriminate].
    injection Hy as <-. exists p. split; [exact Hp|]. now exists old.
  - injection E as _ <-. destruct (H1 _ Hden) as (p & Hp & ->). now exists p.
Qed.

Lemma mul_blocks_entry (multiplier : matrix) :
  forall ps i0 ps',
    mul_blocks i0 ps multiplier = (ps', Ok tt) ->
    forall i b',
      nth_error ps' i = Some b' ->
      exists b m_i,
        nth_error ps i = Some b
        /\ nth_error multiplier (i0 + i) = Some m_i
        /\ Tensor.row_op_ Float.mul (data b) m_i = Ok (data b').
Proof.
  induction ps as [|p ps IH]; intros i0 ps' E i b' Hb; cbn [mul_blocks] in E.
  - injection E as <-. now destruct i.
  - destruct (nth_error multiplier i0) as [m_i|] eqn:Em; [|discriminate].
    destruct (Tensor.row_op_ Float.mul (data p) m_i) as [d|] eqn:Ed;
      [|discriminate].
    destruct (mul_blocks (S i0) ps multiplier) as [rest r] eqn:Er.
    injection E as <- ->. destruct i as [|i]; cbn [nth_error] in *.
    + injection Hb as <-. exists p, m_i. rewrite Nat.add_0_r.
      now repeat split.
    + destruct (IH _ _ Er _ _ Hb) as (b & m' & H1 & H2 & H3).
      exists b, m'. replace (i0 + S i)%nat with (S i0 + i)%nat by lia.
      now repeat split.
Qed.

(** Lines 31-35: each entry is multiplied by the entry of the multiplier at
    its place. *)
Lemma apply_multiplier_entry (param param' : param_arg) (multiplier : matrix) :
  apply_multiplier param multiplier = (param', Ok tt) ->
  forall i j new,
    mget (values param') i j = Some new ->
    exists old mult,
      bget (values param) i j = Some old
      /\ bget multiplier i j = Some mult
      /\ new = Float.mul old mult.
Proof.
  intros E i j new Hnew. destruct param as [ps|v g]; cbn [apply_multiplier] in E.
  - destruct (mul_blocks 0 ps multiplier) as [ps' r] eqn:Em.
    injection E as <- ->. cbn [values] in *. unfold mget in Hnew.
    rewrite nth_error_map in Hnew.
    destruct (nth_error ps' i) as [b'|] eqn:Eb; [|discriminate].
    cbn [option_map] in Hnew.
    destruct (mul_blocks_entry _ _ _ Em _ Eb) as (b & m_i & Hb & Hm & Hrow).
    change (0 + i)%nat with i in Hm.
    destruct (row_op__ok _ _ _ Hrow) as [Hrow' _].
    destruct (row_op_bnth _ _ _ Hrow' _ (nth_bnth _ _ Hnew))
      as (old & mult & Hold & Hmult & ->).
    exists old, mult. unfold bget.
    assert (Hd : nth_error (map data ps) i = Some (data b))
      by (now rewrite nth_error_map, Hb).
    rewrite (nth_bnth _ _ Hd), (nth_bnth _ _ Hm). now repeat split.
  - destruct (Tensor.op_ Float.mul v multiplier) as [v'|] eqn:Ev;
      [|discriminate].
    injection E as <-. cbn [values] in *.
    destruct (op__ok _ _ _ Ev) as [Hop _].
    destruct (op_bget _ _ _ Hop _ _ (mget_bget _ _ _ Hnew))
      as (old & mult & Hold & Hmult & ->).
    now exists old, mult.
Qed.

(** Every entry after a completed call, by the entry before it and the
    denominator and gradient at its place, with the guards of lines 16 and
    18 as they are written. *)
Lemma updated_entry (param param' : param_arg) (pos buf grad : matrix) :
  gradient_of param = Ok (Some grad) ->
  _mu_update gamma l1_reg l2_reg (param, pos) = ((param', buf), Ok tt) ->
  forall i j new,
    mget (values param') i j = Some new ->
    exists old p g,
      bget (values param) i j = Some old
      /\ bget pos i j = Some p
      /\ bget grad i j = Some g
      /\ new = mu_entry gamma l1_reg l2_reg old p g.
Proof.
  intros Hg E i j new Hnew. unfold _mu_update in E. rewrite Hg in E.
  destruct (Tensor.op Float.sub pos grad) as [diff|] eqn:Ediff;
    [|discriminate].
  destruct (regularise param pos l1_reg l2_reg) as [buf0 [pos'|]] eqn:Ereg;
    [|discriminate].
  destruct (Tensor.op_ Float.div _ pos') as [m|] eqn:Ediv; [|discriminate].
  set (m' := if negb (Qeq_bool gamma 1) then _ else m) in E.
  destruct (apply_multiplier param m') as [param0 r] eqn:Eapp.
  injection E as <- _ ->.
  destruct (apply_multiplier_entry _ _ Eapp _ _ Hnew)
    as (old & mult & Hold & Hmult & ->).
  assert (Hratio : exists ratio,
             bget m i j = Some ratio
             /\ mult = if Qeq_bool gamma 1 then ratio else pow ratio gamma).
  { subst m'. destruct (Qeq_bool gamma 1); cbn [negb] in Hmult.
    - now exists mult.
    - rewrite map_entries_bget in Hmult.
      destruct (bget m i j) as [ratio|]; [|discriminate].
      injection Hmult as <-. now exists ratio. }
  destruct Hratio as (ratio & Hm & ->).
  destruct (op__ok _ _ _ Ediv) as [Hdiv _].
  destruct (op_bget _ _ _ Hdiv _ _ Hm) as (num & den & Hnum & Hden & ->).
  rewrite map_entries_bget in Hnum.
  destruct (bget diff i j) as [d|] eqn:Ed; [|discriminate].
  injection Hnum as <-.
  destruct (op_bget _ _ _ Ediff _ _ Ed) as (p & g & Hp & Hgr & ->).
  eapply regularise_entry in Hden as (p0 & Hp0 & Hreg); [|exact Ereg].
  rewrite Hp in Hp0. injection Hp0 as <-.
  exists old, p, g. repeat split; try assumption.
  unfold mu_entry. cbv zeta in Hreg. destruct (Qltb 0 l2_reg).
  - destruct Hreg as (old0 & Hold0 & ->). rewrite Hold in Hold0.
    now injection Hold0 as <-.
  - now rewrite Hreg.
Qed.

Lemma same_value_refl (x : fl) : same_value x x.
Proof. destruct x; cbn [same_value]; [apply Qeq_refl|exact I..]. Qed.

(** A quotient depends on the value of the denominator only. *)
Lemma div_same (x y y' : fl) :
  same_value y y' -> Float.div x y = Float.div x y'.
Proof.
  destruct y as [b| | |], y' as [b'| | |]; cbn [same_value]; try tauto.
  intro H. assert (Hc : (b ?= 0) = (b' ?= 0)) by now rewrite H.
  destruct x as [a| | |]; cbn [Float.div]; rewrite ?Hc; try reflexivity.
  destruct (b' ?= 0); try reflexivity;
    unfold fin; f_equal; apply Qred_complete; now rewrite H.
Qed.

Lemma coefficient_zero (c : Q) : 0 <= c -> Qltb 0 c = false -> c == 0.
Proof.
  intros H0 E. apply FloatFacts.Qltb_ge in E. now apply Qle_antisym.
Qed.

(** A coefficient of zero adds nothing to a finite entry's denominator:
    the guarded denominator of the code has the value of the one the
    specification writes. *)
Lemma denominator_same (old p : fl) :
  0 <= l1_reg -> 0 <= l2_reg -> finite old ->
  same_value
    (let p1 := if Qltb 0 l1_reg then Float.add p (Fin l1_reg) else p in
     if Qltb 0 l2_reg then Float.add p1 (Float.mul (Fin l2_reg) old) else p1)
    (Float.add (Float.add p (Fin l1_reg)) (Float.mul (Fin l2_reg) old)).
Proof.
  intros H1 H2 Ho. cbv zeta.
  destruct old as [o| | |]; cbn [finite] in Ho; try contradiction.
  destruct (Qltb 0 l1_reg) eqn:E1, (Qltb 0 l2_reg) eqn:E2.
  - apply same_value_refl.
  - pose proof (coefficient_zero H2 E2) as Z2.
    destruct p as [q| | |]; cbn [Float.add Float.mul]; unfold fin;
      cbn [Float.add same_value]; unfold fin; cbn [same_value];
      try exact I.
    rewrite !Qred_correct, Z2. ring.
  - pose proof (coefficient_zero H1 E1) as Z1.
    destruct p as [q| | |]; cbn [Float.add Float.mul]; unfold fin;
      cbn [Float.add same_value]; unfold fin; cbn [same_value];
      try exact I.
    rewrite !Qred_correct, Z1. ring.
  - pose proof (coefficient_zero H1 E1) as Z1.
    pose proof (coefficient_zero H2 E2) as Z2.
    destruct p as [q| | |]; cbn [Float.add Float.mul]; unfold fin;
      cbn [Float.add same_value]; unfold fin; cbn [same_value];
      try exact I.
    rewrite !Qred_correct, Z1, Z2. ring.
Qed.

(** With coefficients that are not negative, what the code computes for a
    finite entry is what the specification writes. *)
Lemma formula_on_domain (old p g : fl) :
  0 <= l1_reg -> 0 <= l2_reg -> finite old ->
  mu_entry gamma l1_reg l2_reg old p g
  = claimed_entry gamma l1_reg l2_reg old p g.
Proof.
  intros H1 H2 Ho. unfold mu_entry, claimed_entry. cbv zeta.
  pose proof (@denominator_same old p H1 H2 Ho) as Hd. cbv zeta in Hd.
  now rewrite (@div_same _ _ _ Hd).
Qed.

End Entries.

End MuEntries.

(** C4.  With coefficients that are not negative, as [alpha] split by
    [l1_ratio] gives them, when a call of [_mu_update] on a factor with
    gradient [grad] (the concatenation of the block gradients, zeros for a
    fixed block, or the gradient of the single tensor) completes, every
    entry of the factor that was finite is
    [old * (relu(pos - grad) / (pos + l1_reg + l2_reg * old))^gamma], the
    power skipped when [gamma == 1], with [pos], [grad] and [old] taken at
    the entry's place under broadcasting. *)
Theorem mu_update_entries
        {torch : Torch} (gamma l1_reg l2_reg : Q)
        (param param' : param_arg) (pos buf grad : matrix) :
  0 <= l1_reg -> 0 <= l2_reg ->
  gradient_of param = Ok (Some grad) ->
  _mu_update gamma l1_reg l2_reg (param, pos) = ((param', buf), Ok tt) ->
  forall i j new,
    mget (values param') i j = Some new ->
    exists old p g,
      bget (values param) i j = Some old
      /\ bget pos i j = Some p
      /\ bget grad i j = Some g
      /\ (finite old -> new = claimed_entry gamma l1_reg l2_reg old p g).
Proof.
  intros H1 H2 Hg E i j new Hnew.
  destruct (MuEntries.updated_entry _ _ _ _ _ Hg E _ _ Hnew)
    as (old & p & g & Hold & Hp & Hgr & ->).
  exists old, p, g. repeat split; try assumption.
  intro Ho. now apply MuEntries.formula_on_domain.
Qed.

Lemma mu_update_entries_witness :
  exists old p g,
    bget [[Fin 1]] 0 0 = Some old
    /\ bget [[Fin 2]] 0 0 = Some p
    /\ bget [[Fin 0]] 0 0 = Some g
    /\ (finite old ->
        Fin (1 # 2) = claimed_entry 1 (2 * (1 # 2)) (2 * (1 - (1 # 2)))
                                    old p g).
Proof.
  apply (@mu_update_entries Concrete.torch 1 (2 * (1 # 2))
           (2 * (1 - (1 # 2)))
           (ParameterList [Concrete.graded_block])
           (ParameterList [Concrete.halved_block])
           [[Fin 2]] [[Fin 4]] [[Fin 0]]);
    try (vm_compute; reflexivity); vm_compute; discriminate.
Defined.

(** Outside that domain the guards of lines 16 and 18 show.  With
    [alpha = 1] and [l1_ratio = 2], which is no split of [alpha], the
    coefficients are [l1_reg = 2] and [l2_reg = -1]; for the entry 1 with
    denominator 2 and gradient 0 the code leaves the L2 term out and
    writes [1 * (2 / (2 + 2)) = 1/2], where the formula with the negative
    term would give [1 * (2 / (2 + 2 - 1)) = 2/3]. *)
Remark negative_coefficient_is_left_out :
  _mu_update 1 (1 * 2) (1 * (1 - 2))
             (ParameterList [Concrete.graded_block], [[Fin 2]])
  = ((ParameterList [Concrete.halved_block], [[Fin 4]]), Ok tt)
  /\ data Concrete.halved_block = [Fin (1 # 2)]
  /\ claimed_entry 1 (1 * 2) (1 * (1 - 2)) (Fin 1) (Fin 2) (Fin 0)
     = Fin (2 # 3)
  /\ Fin (1 # 2) <> Fin (2 # 3).
Proof.
  repeat split; try (vm_compute; reflexivity). discriminate.
Qed.

(** * Further properties of the code *)

(** ** What [fit] leaves alone *)

Module FitFrame.

Import NMFBase.

Lemma same_structure_refl (m : Model) : same_structure m m.
Proof. now repeat split. Qed.

Lemma same_structure_trans (m1 m2 m3 : Model) :
  same_structure m1 m2 -> same_structure m2 m3 -> same_structure m1 m3.
Proof.
  intros (A1 & A2 & A3) (B1 & B2 & B3). repeat split; congruence.
Qed.

Lemma skeleton_map (f : Param -> Param) (ps : list Param) :
  (forall p, requires_grad (f p) = requires_grad p) ->
  (forall p, data (f p) = data p) ->
  skeleton (map f ps) = skeleton ps.
Proof.
  intros Hr Hd. unfold skeleton. rewrite map_map. apply map_ext.
  intro p. now rewrite Hr, Hd.
Qed.

Lemma data_map (f : Param -> Param) (ps : list Param) :
  (forall p, data (f p) = data p) -> map data (map f ps) = map data ps.
Proof. intro Hd. rewrite map_map. now apply map_ext. Qed.

Lemma populate_skeleton (g : matrix) (ps : list Param) (i : nat) :
  skeleton (populate i g ps) = skeleton ps.
Proof.
  revert i. induction ps as [|p ps IH]; intro i; cbn [populate skeleton map].
  - reflexivity.
  - fold (skeleton (populate (S i) g ps)). fold (skeleton ps). rewrite IH.
    destruct (requires_grad p) eqn:E; cbn [set_grad requires_grad data];
      now rewrite ?E.
Qed.

Lemma populate_data (g : matrix) (ps : list Param) (i : nat) :
  map data (populate i g ps) = map data ps.
Proof.
  revert i. induction ps as [|p ps IH]; intro i; cbn [populate map].
  - reflexivity.
  - rewrite IH. now destruct (requires_grad p).
Qed.

Lemma enabled_skeleton (ps ps' : list Param) :
  skeleton ps' = skeleton ps ->
  existsb requires_grad ps' = existsb requires_grad ps.
Proof.
  revert ps'. induction ps as [|p ps IH]; intros [|p' ps'] E;
    cbn [skeleton map] in E; try discriminate; [reflexivity|].
  injection E as E1 _ E2. cbn [existsb]. rewrite E1. f_equal. now apply IH.
Qed.

Section WithTorch.

Context {torch : Torch}.

Lemma mul_blocks_skeleton (multiplier : matrix) :
  forall ps i ps' r,
    mul_blocks i ps multiplier = (ps', r) -> skeleton ps' = skeleton ps.
Proof.
  induction ps as [|p ps IH]; intros i ps' r E; cbn [mul_blocks] in E.
  - now injection E as <- _.
  - destruct (nth_error multiplier i) as [m_i|]; [|now injection E as <- _].
    destruct (Tensor.row_op_ Float.mul (data p) m_i) as [d|] eqn:Ed;
      [|now injection E as <- _].
    destruct (mul_blocks (S i) ps multiplier) as [rest r'] eqn:Er.
    injection E as <- _. cbn [skeleton map set_data data requires_grad].
    fold (skeleton rest). fold (skeleton ps). rewrite (IH _ _ _ Er).
    now rewrite (proj2 (Broadcast.row_op__ok _ _ _ Ed)).
Qed.

Lemma mu_update_skeleton (gamma l1_reg l2_reg : Q) (ps : list Param)
      (pos : matrix) param' buf r :
  _mu_update gamma l1_reg l2_reg (ParameterList ps, pos) = ((param', buf), r) ->
  skeleton (blocks_of param' ps) = skeleton ps.
Proof.
  intro E. unfold _mu_update in E.
  destruct (gradient_of (ParameterList ps)) as [[grad|]|];
    [|now injection E as <- _ _..].
  destruct (Tensor.op Float.sub pos grad); [|now injection E as <- _ _].
  destruct (regularise _ _ _ _) as [buf0 [pos'|]]; [|now injection E as <- _ _].
  destruct (Tensor.op_ Float.div _ pos'); [|now injection E as <- _ _].
  cbn [apply_multiplier] in E.
  destruct (mul_blocks 0 ps _) as [ps' r'] eqn:Em.
  injection E as <- _ _. cbn [blocks_of].
  eapply mul_blocks_skeleton; exact Em.
Qed.

End WithTorch.

Section Generic.

Context {torch : Torch} {metrics : Metrics} {methods : Methods}.

Variables (X : matrix) (update_W update_H : bool) (beta tol : Q).
Variables (gamma l1_reg l2_reg : Q) (loss_scale : fl).

(** A W step keeps the structure of the model and the values of H. *)
Lemma W_step_effect (s s' : FitState) r :
  W_step X beta gamma l1_reg l2_reg s = (s', r) ->
  same_structure (model s) (model s')
  /\ map data (H_list (model s')) = map data (H_list (model s)).
Proof.
  intro E. unfold W_step in E.
  assert (H0 : same_structure (model s) (zero_grad (model s))
               /\ map data (H_list (zero_grad (model s)))
                  = map data (H_list (model s))).
  { unfold same_structure, zero_grad. cbn [rank W_list H_list].
    repeat split; try (now apply skeleton_map); now apply data_map. }
  destruct ((Hm <- H (zero_grad (model s)) ;; Wm <- W (zero_grad (model s)) ;;
             WH <- reconstruct Hm Wm ;; Ok (Hm, Wm, WH))%res)
    as [[[Hm Wm] WH]|]; [|now injection E as <- _].
  cbn [with_loss with_model model H_sum] in E.
  set (m1 := with_W (zero_grad (model s)) _) in E.
  assert (H1 : same_structure (model s) m1
               /\ map data (H_list m1) = map data (H_list (model s))).
  { destruct H0 as [(A1 & A2 & A3) A4]. subst m1.
    unfold same_structure. cbn [with_W rank W_list H_list].
    repeat split; try assumption. now rewrite populate_skeleton. }
  destruct (get_W_positive m1 WH beta (H_sum s)); [|now injection E as <- _].
  destruct (_mu_update gamma l1_reg l2_reg _) as [[param buf] r'] eqn:Emu.
  apply mu_update_skeleton in Emu.
  assert (H2 : same_structure (model s)
                 (with_W m1 (blocks_of param (W_list m1)))
               /\ map data (H_list (with_W m1 (blocks_of param (W_list m1))))
                  = map data (H_list (model s))).
  { destruct H1 as [(A1 & A2 & A3) A4].
    unfold same_structure. cbn [with_W rank W_list H_list].
    repeat split; try assumption. now rewrite Emu. }
  destruct r'; now injection E as <- _.
Qed.

(** An H step keeps the structure of the model and the values of W. *)
Lemma H_step_effect (s s' : FitState) r :
  H_step X beta gamma l1_reg l2_reg s = (s', r) ->
  same_structure (model s) (model s')
  /\ map data (W_list (model s')) = map data (W_list (model s)).
Proof.
  intro E. unfold H_step in E.
  assert (H0 : same_structure (model s) (zero_grad (model s))
               /\ map data (W_list (zero_grad (model s)))
                  = map data (W_list (model s))).
  { unfold same_structure, zero_grad. cbn [rank W_list H_list].
    repeat split; try (now apply skeleton_map); now apply data_map. }
  destruct ((Hm <- H (zero_grad (model s)) ;; Wm <- W (zero_grad (model s)) ;;
             WH <- reconstruct Hm Wm ;; Ok (Hm, Wm, WH))%res)
    as [[[Hm Wm] WH]|]; [|now injection E as <- _].
  cbn [with_loss with_model model W_sum] in E.
  set (m1 := with_H (zero_grad (model s)) _) in E.
  assert (H1 : same_structure (model s) m1
               /\ map data (W_list m1) = map data (W_list (model s))).
  { destruct H0 as [(A1 & A2 & A3) A4]. subst m1.
    unfold same_structure. cbn [with_H rank W_list H_list].
    repeat split; try assumption. now rewrite populate_skeleton. }
  destruct (get_H_positive m1 WH beta (W_sum s)); [|now injection E as <- _].
  destruct (_mu_update gamma l1_reg l2_reg _) as [[param buf] r'] eqn:Emu.
  apply mu_update_skeleton in Emu.
  assert (H2 : same_structure (model s)
                 (with_H m1 (blocks_of param (H_list m1)))
               /\ map data (W_list (with_H m1 (blocks_of param (H_list m1))))
                  = map data (W_list (model s))).
  { destruct H1 as [(A1 & A2 & A3) A4].
    unfold same_structure. cbn [with_H rank W_list H_list].
    repeat split; try assumption. now rewrite Emu. }
  destruct r'; now injection E as <- _.
Qed.

Lemma report_model (i : nat) (s s' : FitState) r :
  report tol loss_scale i s = (s', r) -> model s' = model s.
Proof.
  intro E. unfold report in E. FitLoop.break_match E; now injection E as <- _.
Qed.

Lemma enabled_structure (m m' : Model) :
  same_structure m m' ->
  W_enabled update_W m' = W_enabled update_W m
  /\ H_enabled update_H m' = H_enabled update_H m.
Proof.
  intros (_ & HW & HH). unfold W_enabled, H_enabled.
  now rewrite (enabled_skeleton _ _ HW), (enabled_skeleton _ _ HH).
Qed.

Lemma effect_refl (m : Model) : effect update_W update_H m m.
Proof. split; [apply same_structure_refl|now split]. Qed.

Lemma effect_trans (m1 m2 m3 : Model) :
  effect update_W update_H m1 m2 -> effect update_W update_H m2 m3 ->
  effect update_W update_H m1 m3.
Proof.
  intros (S12 & W12 & H12) (S23 & W23 & H23).
  destruct (enabled_structure S12) as [EW EH].
  split; [exact (same_structure_trans S12 S23)|]. split; intro Hoff.
  - rewrite W23, W12; congruence.
  - rewrite H23, H12; congruence.
Qed.

Lemma iteration_effect (i : nat) (s s' : FitState) r :
  iteration X update_W update_H beta tol gamma l1_reg l2_reg loss_scale i s
  = (s', r) ->
  effect update_W update_H (model s) (model s').
Proof.
  intro E. unfold iteration, bind in E.
  destruct (if W_enabled update_W (model s)
            then W_step X beta gamma l1_reg l2_reg s else (s, Ok tt))
    as [s1 r1] eqn:E1.
  assert (F1 : effect update_W update_H (model s) (model s1)).
  { destruct (W_enabled update_W (model s)) eqn:EW.
    - apply W_step_effect in E1 as [S1 D1].
      split; [exact S1|]. split; [intro; congruence|now intros _].
    - injection E1 as <- _. apply effect_refl. }
  destruct r1; [|injection E as <- _; exact F1].
  destruct (if H_enabled update_H (model s1)
            then H_step X beta gamma l1_reg l2_reg s1 else (s1, Ok tt))
    as [s2 r2] eqn:E2.
  assert (F2 : effect update_W update_H (model s1) (model s2)).
  { destruct (H_enabled update_H (model s1)) eqn:EH.
    - apply H_step_effect in E2 as [S2 D2].
      split; [exact S2|]. split; [now intros _|intro; congruence].
    - injection E2 as <- _. apply effect_refl. }
  pose proof (effect_trans F1 F2) as F.
  destruct r2; [|injection E as <- _; exact F].
  apply report_model in E. now rewrite E.
Qed.

Lemma loop_effect (iters : list nat) :
  forall s s' r,
    loop X update_W update_H beta tol gamma l1_reg l2_reg loss_scale iters s
    = (s', r) ->
    effect update_W update_H (model s) (model s').
Proof.
  induction iters as [|i iters IH]; intros s s' r E; cbn [loop] in E.
  - injection E as <- _. apply effect_refl.
  - unfold bind in E.
    destruct (iteration X update_W update_H beta tol gamma l1_reg l2_reg
                        loss_scale i (with_n_iter s (Some i)))
      as [s1 r1] eqn:E1.
    apply iteration_effect in E1. cbn [with_n_iter model] in E1.
    destruct r1 as [[|]|].
    + injection E as <- _. exact E1.
    + apply IH in E. exact (effect_trans E1 E).
    + injection E as <- _. exact E1.
Qed.

End Generic.

Lemma fit_effect {torch : Torch} {metrics : Metrics} {methods : Methods}
      (X : matrix) (update_W update_H : bool) (beta tol : Q) (max_iter : Z)
      (alpha l1_ratio : Q) (m : Model) :
  effect update_W update_H m
         (model (fst (fit X update_W update_H beta tol max_iter alpha
                          l1_ratio m))).
Proof.
  unfold fit.
  destruct (loop _ _ _ _ _ _ _ _ _ _ _) as [s r] eqn:E.
  apply loop_effect in E. cbn [model] in E.
  destruct r; [destruct (n_iter s)|]; exact E.
Qed.

End FitFrame.

(** X1.  Whatever the outcome of [fit], a return or an exception after any
    number of iterations, the model still has the same rank, the same
    number of W and H blocks, each as wide as it was, and the same blocks
    are trainable. *)
Theorem fit_keeps_structure
        {torch : Torch} {metrics : Metrics} {methods : Methods}
        (X : matrix) (update_W update_H : bool) (beta tol : Q) (max_iter : Z)
        (alpha l1_ratio : Q) (m : Model) :
  same_structure m (after_fit X update_W update_H beta tol max_iter alpha
                              l1_ratio m).
Proof. exact (proj1 (FitFrame.fit_effect _ _ _ _ _ _ _ _ _)). Qed.

(** X2.  A side whose guard is false, because the caller switched it off
    or because none of its blocks is trainable, keeps every value: [fit]
    leaves the values of W as they were when the W guard is false, and
    those of H when the H guard is false, whatever the outcome. *)
Theorem fit_leaves_skipped_side
        {torch : Torch} {metrics : Metrics} {methods : Methods}
        (X : matrix) (update_W update_H : bool) (beta tol : Q) (max_iter : Z)
        (alpha l1_ratio : Q) (m : Model) :
  (NMFBase.W_enabled update_W m = false ->
   map data (W_list (after_fit X update_W update_H beta tol max_iter alpha
                               l1_ratio m))
   = map data (W_list m))
  /\ (NMFBase.H_enabled update_H m = false ->
      map data (H_list (after_fit X update_W update_H beta tol max_iter alpha
                                  l1_ratio m))
      = map data (H_list m)).
Proof. exact (proj2 (FitFrame.fit_effect _ _ _ _ _ _ _ _ _)). Qed.

Lemma fit_leaves_skipped_side_witness :
  map data (H_list (after_fit Concrete.X22 true true 2 0 2 0 0
                              Concrete.fixed_H_model))
  = map data (H_list Concrete.fixed_H_model).
Proof.
  apply (proj2 (fit_leaves_skipped_side (torch := Concrete.torch)
                  (metrics := Concrete.metrics) (methods := NMF.methods)
                  Concrete.X22 true true 2 0 2 0 0 Concrete.fixed_H_model)).
  reflexivity.
Defined.

(** ** When [reconstruct] raises *)

Module ReconstructRaises.

Import NMFBase.

Section Generic.

Context {torch : Torch} {metrics : Metrics} {methods : Methods}.

Variables (X : matrix) (update_W update_H : bool) (beta tol : Q).
Variables (gamma l1_reg l2_reg : Q) (loss_scale : fl).

Variables (m : Model) (Hm Wm : matrix) (e : exn).

Hypothesis H_ok : H m = Ok Hm.
Hypothesis W_ok : W m = Ok Wm.
Hypothesis reconstruct_raises : reconstruct Hm Wm = Raise e.

Lemma current_raises :
  (Hm <- H (zero_grad m) ;; Wm <- W (zero_grad m) ;;
   WH <- reconstruct Hm Wm ;; Ok (Hm, Wm, WH))%res = Raise e.
Proof.
  unfold H, W, zero_grad in *. cbn [W_list H_list].
  rewrite !FitFrame.data_map by reflexivity.
  rewrite H_ok. cbn [rbind]. rewrite W_ok. cbn [rbind].
  now rewrite reconstruct_raises.
Qed.

Lemma W_step_raises (s : FitState) :
  model s = m ->
  W_step X beta gamma l1_reg l2_reg s = (with_model s (zero_grad m), Raise e).
Proof. intro Hs. unfold W_step. rewrite Hs. now rewrite current_raises. Qed.

Lemma H_step_raises (s : FitState) :
  model s = m ->
  H_step X beta gamma l1_reg l2_reg s = (with_model s (zero_grad m), Raise e).
Proof. intro Hs. unfold H_step. rewrite Hs. now rewrite current_raises. Qed.

Lemma loop_raises (i : nat) (rest : list nat) (s : FitState) :
  model s = m ->
  W_enabled update_W m = true \/ H_enabled update_H m = true ->
  exists s',
    loop X update_W update_H beta tol gamma l1_reg l2_reg loss_scale
         (i :: rest) s = (s', Raise e)
    /\ model s' = zero_grad m.
Proof.
  intros Hs Hon. cbn [loop]. unfold iteration, bind. cbv beta.
  cbn [with_n_iter model]. rewrite Hs.
  destruct (W_enabled update_W m) eqn:EW.
  - rewrite W_step_raises by (cbn [with_n_iter model]; exact Hs).
    eexists. split; reflexivity.
  - destruct Hon as [Hon|Hon]; [discriminate|].
    cbn [with_n_iter model]. rewrite Hs, Hon.
    rewrite H_step_raises by (cbn [with_n_iter model]; exact Hs).
    eexists. split; reflexivity.
Qed.

End Generic.

Lemma fit_raises {torch : Torch} {metrics : Metrics} {methods : Methods}
      (X : matrix) (update_W update_H : bool) (beta tol : Q) (max_iter : Z)
      (alpha l1_ratio : Q) (m : Model) (Hm Wm : matrix) (e : exn) :
  H m = Ok Hm -> W m = Ok Wm -> reconstruct Hm Wm = Raise e ->
  W_enabled update_W m = true \/ H_enabled update_H m = true ->
  (1 <= max_iter)%Z ->
  snd (fit X update_W update_H beta tol max_iter alpha l1_ratio m) = Raise e
  /\ map data (W_list (model (fst (fit X update_W update_H beta tol max_iter
                                       alpha l1_ratio m))))
     = map data (W_list m)
  /\ map data (H_list (model (fst (fit X update_W update_H beta tol max_iter
                                       alpha l1_ratio m))))
     = map data (H_list m).
Proof.
  intros EH EW Er Hon Hmax. unfold fit.
  destruct (Z.to_nat max_iter) as [|n'] eqn:En; [lia|]. cbn [seq].
  match goal with
  | |- context [loop ?a ?b ?c ?d ?f ?g ?h ?i ?j (?k :: ?l) ?s0] =>
      destruct (@loop_raises _ _ _ a b c d f g h i j m Hm Wm e EH EW Er k l s0
                             eq_refl Hon) as (s' & -> & Hmodel)
  end.
  cbn [fst snd]. rewrite Hmodel. unfold zero_grad. cbn [W_list H_list].
  rewrite !FitFrame.data_map by reflexivity. now repeat split.
Qed.

End ReconstructRaises.

(** X3.  The base class cannot be used as it is: on a model whose blocks
    concatenate, [forward] and [loss] raise [NotImplementedError], and so
    does [fit] as soon as one step is due, that is with [max_iter >= 1]
    and a trainable block on a requested side. *)
Theorem base_class_raises
        {torch : Torch} {metrics : Metrics}
        (X : matrix) (update_W update_H : bool) (beta tol : Q) (max_iter : Z)
        (alpha l1_ratio : Q) (m : Model) (Hm Wm : matrix) :
  NMFBase.H m = Ok Hm -> NMFBase.W m = Ok Wm ->
  Monitoring.forward (methods := NMFBase.abstract_methods) m None None
  = Raise NotImplementedError
  /\ Monitoring.loss (methods := NMFBase.abstract_methods) m X beta
     = Raise NotImplementedError
  /\ (NMFBase.W_enabled update_W m = true
      \/ NMFBase.H_enabled update_H m = true ->
      (1 <= max_iter)%Z ->
      snd (NMFBase.fit (methods := NMFBase.abstract_methods)
                       X update_W update_H beta tol max_iter alpha l1_ratio m)
      = Raise NotImplementedError).
Proof.
  intros EH EW. unfold Monitoring.forward, Monitoring.loss.
  rewrite EH, EW. cbn [rbind]. repeat split.
  intros Hon Hmax.
  exact (proj1 (@ReconstructRaises.fit_raises
                  _ _ NMFBase.abstract_methods
                  X update_W update_H beta tol max_iter alpha l1_ratio
                  m Hm Wm NotImplementedError EH EW eq_refl Hon Hmax)).
Qed.

Lemma base_class_raises_witness :
  Monitoring.forward (methods := NMFBase.abstract_methods)
                     Concrete.rank1_model None None
  = Raise NotImplementedError
  /\ Monitoring.loss (methods := NMFBase.abstract_methods)
                     Concrete.rank1_model Concrete.X22 2
     = Raise NotImplementedError
  /\ (NMFBase.W_enabled true Concrete.rank1_model = true
      \/ NMFBase.H_enabled true Concrete.rank1_model = true ->
      (1 <= 200)%Z ->
      snd (NMFBase.fit (methods := NMFBase.abstract_methods)
                       Concrete.X22 true true 2 (1 # 100000) 200 0 0
                       Concrete.rank1_model)
      = Raise NotImplementedError).
Proof.
  apply (@base_class_raises Concrete.torch Concrete.metrics Concrete.X22
           true true 2 (1 # 100000) 200 0 0 Concrete.rank1_model
           [[Fin 1; Fin 1]] [[Fin 1]; [Fin 1]]);
    reflexivity.
Defined.

(** X4.  Factors of the matrix-product model whose inner sizes disagree
    (the width of W is not the number of rows of H) are found out by the
    first reconstruction only: with [max_iter >= 1] and a step due, [fit]
    raises [RuntimeError], and the values of W and H are those at entry. *)
Theorem fit_raises_on_mismatch
        {torch : Torch} {metrics : Metrics}
        (X : matrix) (update_W update_H : bool) (beta tol : Q) (max_iter : Z)
        (alpha l1_ratio : Q) (m : Model) (Hm Wm : matrix) :
  NMFBase.H m = Ok Hm -> NMFBase.W m = Ok Wm ->
  snd (Tensor.shape Wm) <> length Hm ->
  NMFBase.W_enabled update_W m = true \/ NMFBase.H_enabled update_H m = true ->
  (1 <= max_iter)%Z ->
  snd (NMFBase.fit (methods := NMF.methods) X update_W update_H beta tol
                   max_iter alpha l1_ratio m)
  = Raise RuntimeError
  /\ map data (W_list (after_fit (methods := NMF.methods) X update_W update_H
                                 beta tol max_iter alpha l1_ratio m))
     = map data (W_list m)
  /\ map data (H_list (after_fit (methods := NMF.methods) X update_W update_H
                                 beta tol max_iter alpha l1_ratio m))
     = map data (H_list m).
Proof.
  intros EH EW Hne Hon Hmax.
  apply (@ReconstructRaises.fit_raises _ _ NMF.methods
           X update_W update_H beta tol max_iter alpha l1_ratio
           m Hm Wm RuntimeError EH EW);
    try assumption.
  cbn. unfold NMF.reconstruct, Tensor.matmul.
  apply Nat.eqb_neq in Hne. now rewrite Hne.
Qed.

Lemma fit_raises_on_mismatch_witness :
  snd (NMFBase.fit (methods := NMF.methods) Concrete.X22 true true 2
                   (1 # 100000) 200 0 0 Concrete.misshapen_model)
  = Raise RuntimeError
  /\ map data (W_list (after_fit (methods := NMF.methods) Concrete.X22 true
                                 true 2 (1 # 100000) 200 0 0
                                 Concrete.misshapen_model))
     = map data (W_list Concrete.misshapen_model)
  /\ map data (H_list (after_fit (methods := NMF.methods) Concrete.X22 true
                                 true 2 (1 # 100000) 200 0 0
                                 Concrete.misshapen_model))
     = map data (H_list Concrete.misshapen_model).
Proof.
  apply (@fit_raises_on_mismatch Concrete.torch Concrete.metrics
           Concrete.X22 true true 2 (1 # 100000) 200 0 0
           Concrete.misshapen_model
           [[Fin 1; Fin 1]] [[Fin 1; Fin 2; Fin 3]]);
    try reflexivity.
  - cbn. discriminate.
  - now left.
  - lia.
Defined.

(** ** Shapes at construction and reconstruction *)

Module ShapeFacts.

Import Tensor.

Lemma same_width_Forall (k : nat) (rows : list row) :
  same_width k rows = true <-> Forall (fun r => length r = k) rows.
Proof.
  induction rows as [|r rows IH]; cbn [same_width].
  - split; [constructor|reflexivity].
  - rewrite andb_true_iff, Nat.eqb_eq, IH. split.
    + intros [H1 H2]. now constructor.
    + intro H. now inversion H.
Qed.

(** [torch.cat] accepts a non-empty list of blocks of one width. *)
Lemma cat_rectangular (k : nat) (blocks : list row) :
  blocks <> [] -> Forall (fun r => length r = k) blocks ->
  cat blocks = Ok blocks.
Proof.
  intros Hne Hk. unfold cat. destruct blocks as [|r rest]; [congruence|].
  inversion Hk as [|r' rest' Hr Hrest]; subst.
  now rewrite (proj2 (same_width_Forall (length r) rest) Hrest).
Qed.

Lemma t_length (a : matrix) : length (t a) = snd (shape a).
Proof. unfold t. now rewrite length_map, length_seq. Qed.

Lemma matmul_shape (a b c : matrix) :
  matmul a b = Ok c ->
  length c = length a /\ Forall (fun r => length r = snd (shape b)) c.
Proof.
  unfold matmul. destruct (snd (shape a) =? length b)%nat; [|discriminate].
  intro E. injection E as <-. split; [apply length_map|].
  apply Forall_map, Forall_forall. intros r _.
  now rewrite length_map, t_length.
Qed.

End ShapeFacts.

Module InitShape.

Import NMFBase.

Lemma set_fixed_spec (flags : list bool) :
  forall ps,
    (length flags <= length ps)%nat ->
    exists ps',
      set_fixed flags ps = Ok ps'
      /\ map data ps' = map data ps
      /\ map grad ps' = map grad ps
      /\ map requires_grad ps'
         = map negb flags ++ skipn (length flags) (map requires_grad ps).
Proof.
  induction flags as [|f flags IH]; intros ps Hlen; cbn [set_fixed].
  - exists ps. now repeat split.
  - destruct ps as [|p ps]; [cbn in Hlen; lia|].
    destruct (IH ps) as (ps' & E & Hd & Hg & Hr); [cbn in Hlen; lia|].
    rewrite E. cbn [rbind]. eexists. split; [reflexivity|].
    cbn [map set_requires_grad data grad requires_grad length skipn app].
    now rewrite Hd, Hg, Hr.
Qed.

Lemma set_fixed_raises (flags : list bool) :
  forall ps,
    (length ps < length flags)%nat -> set_fixed flags ps = Raise IndexError.
Proof.
  induction flags as [|f flags IH]; intros ps Hlen; cbn [set_fixed].
  - cbn in Hlen. lia.
  - destruct ps as [|p ps]; [reflexivity|].
    rewrite IH; [reflexivity|cbn in Hlen; lia].
Qed.

Section WithTorch.

Context {torch : Torch}.

Lemma fresh_length first shape initial :
  length (fresh first shape initial) = block_count (fst shape) initial.
Proof.
  unfold fresh, block_count. destruct initial; rewrite length_map;
    [reflexivity|apply length_seq].
Qed.

Lemma map_constant {A B} (f : A -> B) (c : B) (l : list A) :
  (forall x, f x = c) -> map f l = repeat c (length l).
Proof.
  intro Hf. induction l as [|x l IH]; cbn [map length repeat];
    [reflexivity|]. now rewrite Hf, IH.
Qed.

Lemma fresh_trainable first shape initial :
  map requires_grad (fresh first shape initial)
  = repeat true (block_count (fst shape) initial)
  /\ map grad (fresh first shape initial)
     = repeat None (block_count (fst shape) initial).
Proof.
  rewrite <- (fresh_length first shape initial).
  unfold fresh. destruct initial as [values|];
    split; rewrite map_map, length_map; now apply map_constant.
Qed.

Lemma skipn_repeat {A} (x : A) (k n : nat) :
  skipn k (repeat x n) = repeat x (n - k).
Proof.
  revert k. induction n as [|n IH]; intros [|k]; cbn [repeat skipn Nat.sub];
    try reflexivity. apply IH.
Qed.

Lemma init_blocks_ok first shape initial fixed :
  (length fixed <= block_count (fst shape) initial)%nat ->
  exists ps,
    init_blocks first shape initial fixed = Ok ps
    /\ map data ps = map data (fresh first shape initial)
    /\ map grad ps = repeat None (block_count (fst shape) initial)
    /\ map requires_grad ps
       = map negb fixed
         ++ repeat true (block_count (fst shape) initial - length fixed).
Proof.
  intro Hlen.
  destruct (set_fixed_spec fixed (fresh first shape initial))
    as (ps & E & Hd & Hg & Hr); [now rewrite fresh_length|].
  exists ps. destruct (fresh_trainable first shape initial) as [Ht Hn].
  repeat split; try assumption.
  - now rewrite Hg.
  - now rewrite Hr, Ht, skipn_repeat.
Qed.

Lemma init_blocks_raises first shape initial fixed :
  (block_count (fst shape) initial < length fixed)%nat ->
  init_blocks first shape initial fixed = Raise IndexError.
Proof.
  intro Hlen. apply (set_fixed_raises fixed (fresh first shape initial)).
  now rewrite fresh_length.
Qed.

End WithTorch.

End InitShape.

(** X5.  Construction raises [IndexError] when a tuple of fix flags is
    longer than the list of blocks it is applied to: the supplied initial
    values, or else as many blocks as the declared shape has rows. *)
Theorem init_too_many_flags
        {torch : Torch} (m_examples n_features n_components : nat)
        (initial_components : option (list row)) (fix_components : list bool)
        (initial_weights : option (list row)) (fix_weights : list bool) :
  (block_count m_examples initial_weights < length fix_weights)%nat
  \/ (block_count n_components initial_components < length fix_components)%nat
  ->
  NMF.__init__ (m_examples, n_features) n_components initial_components
               fix_components initial_weights fix_weights
  = Raise IndexError.
Proof.
  intro H. unfold NMF.__init__, NMFBase.__init__.
  destruct (Nat.lt_ge_cases (block_count m_examples initial_weights)
                            (length fix_weights)) as [HW|HW].
  - now rewrite (InitShape.init_blocks_raises 0 (m_examples, n_components)
                   initial_weights fix_weights HW).
  - destruct H as [H|H]; [lia|].
    destruct (InitShape.init_blocks_ok 0 (m_examples, n_components)
                initial_weights fix_weights HW) as (ws & -> & _).
    cbn [rbind].
    now rewrite (InitShape.init_blocks_raises
                   (fst (m_examples, n_components))
                   (n_components, n_features) initial_components
                   fix_components H).
Qed.

Lemma init_too_many_flags_witness :
  NMF.__init__ (2, 2)%nat 1 None [] None [true; false; true]
  = Raise IndexError.
Proof.
  apply (@init_too_many_flags Concrete.torch 2 2 1 None [] None
           [true; false; true]).
  left. cbn. lia.
Defined.

(** X6.  When neither tuple of flags is longer than its list of blocks,
    construction succeeds: block [i] of a factor is fixed exactly when flag
    [i] is true, the blocks beyond the flags are trainable, no block has a
    gradient yet, and the rank is [n_components]. *)
Theorem init_applies_flags
        {torch : Torch} (m_examples n_features n_components : nat)
        (initial_components : option (list row)) (fix_components : list bool)
        (initial_weights : option (list row)) (fix_weights : list bool) :
  (length fix_weights <= block_count m_examples initial_weights)%nat ->
  (length fix_components <= block_count n_components initial_components)%nat ->
  exists m,
    NMF.__init__ (m_examples, n_features) n_components initial_components
                 fix_components initial_weights fix_weights = Ok m
    /\ rank m = n_components
    /\ map requires_grad (W_list m)
       = map negb fix_weights
         ++ repeat true (block_count m_examples initial_weights
                         - length fix_weights)
    /\ map requires_grad (H_list m)
       = map negb fix_components
         ++ repeat true (block_count n_components initial_components
                         - length fix_components)
    /\ map grad (W_list m)
       = repeat None (block_count m_examples initial_weights)
    /\ map grad (H_list m)
       = repeat None (block_count n_components initial_components).
Proof.
  intros HW HH. unfold NMF.__init__, NMFBase.__init__.
  destruct (InitShape.init_blocks_ok 0 (m_examples, n_components)
              initial_weights fix_weights HW) as (ws & -> & _ & Wg & Wr).
  destruct (InitShape.init_blocks_ok (fst (m_examples, n_components))
              (n_components, n_features) initial_components fix_components HH)
    as (hs & -> & _ & Hg & Hr).
  cbn [rbind]. eexists. split; [reflexivity|].
  cbn [rank W_list H_list fst] in *. now repeat split.
Qed.

Lemma init_applies_flags_witness :
  exists m,
    NMF.__init__ (3, 2)%nat 1 None [] None [true; false] = Ok m
    /\ rank m = 1%nat
    /\ map requires_grad (W_list m)
       = map negb [true; false] ++ repeat true (block_count 3 None - 2)
    /\ map requires_grad (H_list m)
       = map negb [] ++ repeat true (block_count 1 None - 0)
    /\ map grad (W_list m) = repeat None (block_count 3 None)
    /\ map grad (H_list m) = repeat None (block_count 1 None).
Proof.
  apply (@init_applies_flags Concrete.torch 3 2 1 None [] None
           [true; false]); cbn; lia.
Defined.

Module DefaultModel.

Import NMFBase.

Section WithTorch.

Context {torch : Torch}.

Lemma rand_block_length (c width : nat) : length (rand_block c width) = width.
Proof. unfold rand_block. now rewrite length_map, length_seq. Qed.

Lemma fresh_default_widths (first : nat) (shape : nat * nat) :
  Forall (fun r => length r = snd shape) (map data (fresh first shape None)).
Proof.
  unfold fresh. rewrite map_map. apply Forall_map, Forall_forall.
  intros i _. cbn [new_parameter data]. apply rand_block_length.
Qed.

Lemma fresh_default_nonneg (first : nat) (shape : nat * nat) :
  (forall c j, 0 <= rand c j) ->
  Forall (Forall Float.nonneg) (map data (fresh first shape None)).
Proof.
  intro Hr. unfold fresh. rewrite map_map. apply Forall_map, Forall_forall.
  intros i _. cbn [new_parameter data]. unfold rand_block.
  apply Forall_map, Forall_forall. intros j _.
  unfold Float.nonneg, Float.zero. cbn [Float.leb]. now apply Qle_bool_iff.
Qed.

(** The values of a model built without initial values. *)
Lemma default_values (m_examples n_features n_components : nat)
      (fix_components fix_weights : list bool) (m : Model) :
  NMF.__init__ (m_examples, n_features) n_components None fix_components None
               fix_weights = Ok m ->
  map data (W_list m) = map data (fresh 0 (m_examples, n_components) None)
  /\ map data (H_list m)
     = map data (fresh m_examples (n_components, n_features) None).
Proof.
  intro E. unfold NMF.__init__, NMFBase.__init__ in E.
  destruct (Nat.lt_ge_cases (block_count m_examples None)
                            (length fix_weights)) as [HW|HW].
  { now rewrite (InitShape.init_blocks_raises 0 (m_examples, n_components)
                   None fix_weights HW) in E. }
  destruct (InitShape.init_blocks_ok 0 (m_examples, n_components) None
              fix_weights HW) as (ws & EW & Wd & _).
  rewrite EW in E. cbn [rbind fst] in E.
  destruct (Nat.lt_ge_cases (block_count n_components None)
                            (length fix_components)) as [HH|HH].
  { now rewrite (InitShape.init_blocks_raises m_examples
                   (n_components, n_features) None fix_components HH) in E. }
  destruct (InitShape.init_blocks_ok m_examples (n_components, n_features)
              None fix_components HH) as (hs & EH & Hd & _).
  rewrite EH in E. cbn [rbind] in E. injection E as <-.
  cbn [W_list H_list]. now split.
Qed.

End WithTorch.

End DefaultModel.

(** X7.  A model built without initial values has the declared shapes: W
    has [m_examples] blocks of width [n_components], H has [n_components]
    blocks of width [n_features]; and all its values pass [x >= 0] when
    the random numbers are not negative. *)
Theorem init_default_shapes
        {torch : Torch} (m_examples n_features n_components : nat)
        (fix_components fix_weights : list bool) (m : Model) :
  NMF.__init__ (m_examples, n_features) n_components None fix_components None
               fix_weights = Ok m ->
  length (W_list m) = m_examples
  /\ Forall (fun p => length (data p) = n_components) (W_list m)
  /\ length (H_list m) = n_components
  /\ Forall (fun p => length (data p) = n_features) (H_list m)
  /\ ((forall c j, 0 <= rand c j) ->
      nonneg_blocks (W_list m) /\ nonneg_blocks (H_list m)).
Proof.
  intro E. destruct (DefaultModel.default_values _ _ _ _ _ E) as [EW EH].
  pose proof (f_equal (@length _) EW) as LW.
  pose proof (f_equal (@length _) EH) as LH.
  rewrite !length_map, InitShape.fresh_length in LW, LH.
  cbn [block_count fst] in LW, LH.
  pose proof (DefaultModel.fresh_default_widths 0 (m_examples, n_components))
    as WW.
  pose proof (DefaultModel.fresh_default_widths m_examples
                (n_components, n_features)) as WH.
  rewrite <- EW in WW. rewrite <- EH in WH.
  rewrite Forall_map in WW, WH. cbn [snd] in WW, WH.
  repeat split; try assumption.
  - pose proof (DefaultModel.fresh_default_nonneg 0
                  (m_examples, n_components) H) as N.
    rewrite <- EW, Forall_map in N. exact N.
  - pose proof (DefaultModel.fresh_default_nonneg m_examples
                  (n_components, n_features) H) as N.
    rewrite <- EH, Forall_map in N. exact N.
Qed.

Lemma init_default_shapes_witness :
  length (W_list Concrete.rank1_half) = 2%nat
  /\ Forall (fun p => length (data p) = 1%nat) (W_list Concrete.rank1_half)
  /\ length (H_list Concrete.rank1_half) = 1%nat
  /\ Forall (fun p => length (data p) = 2%nat) (H_list Concrete.rank1_half)
  /\ ((forall c j, 0 <= rand c j) ->
      nonneg_blocks (W_list Concrete.rank1_half)
      /\ nonneg_blocks (H_list Concrete.rank1_half)).
Proof.
  apply (@init_default_shapes Concrete.torch 2 2 1 [] []
           Concrete.rank1_half).
  reflexivity.
Defined.

(** ** Entries that the update keeps, sets to zero or keeps at zero *)

Module EntryFacts.

Import Float.

Lemma positive_fin (q : Q) : 0 < q -> finite_positive (fin q).
Proof. intro H. unfold fin, finite_positive. now rewrite Qred_correct. Qed.

Lemma nonneg_fin (q : Q) : 0 <= q -> finite_nonneg (fin q).
Proof. intro H. unfold fin, finite_nonneg. now rewrite Qred_correct. Qed.

Lemma same_fin (q r : Q) : q == r -> same_value (fin q) (Fin r).
Proof. intro H. unfold fin, same_value. now rewrite Qred_correct. Qed.

Lemma positive_nonneg (x : fl) : finite_positive x -> finite_nonneg x.
Proof. destruct x; cbn; try tauto. apply Qlt_le_weak. Qed.

Lemma nonneg_finite (x : fl) : finite_nonneg x -> finite x.
Proof. destruct x; cbn; tauto. Qed.

Lemma add_positive (x y : fl) :
  finite_positive x -> finite_nonneg y -> finite_positive (add x y).
Proof.
  destruct x as [a| | |], y as [b| | |]; cbn [finite_positive finite_nonneg];
    try tauto.
  intros Ha Hb. cbn [add]. apply positive_fin.
  setoid_replace 0 with (0 + 0) by ring. now apply Qplus_lt_le_compat.
Qed.

Lemma mul_nonneg (x y : fl) :
  finite_nonneg x -> finite_nonneg y -> finite_nonneg (mul x y).
Proof.
  destruct x as [a| | |], y as [b| | |]; cbn [finite_nonneg]; try tauto.
  intros Ha Hb. cbn [mul]. apply nonneg_fin. now apply Qmult_le_0_compat.
Qed.

(** Zero times anything is zero, or NaN when the other factor is an
    infinity or NaN. *)
Lemma mul_zero_or_nan (x y : fl) :
  same_value x (Fin 0) -> same_value (mul x y) (Fin 0) \/ mul x y = NaN.
Proof.
  destruct x as [a| | |]; cbn [same_value]; try tauto. intro Ha.
  assert (Hs : (a ?= 0) = Eq) by now apply Qeq_alt.
  destruct y as [b| | |]; cbn [mul sign].
  - left. apply same_fin. rewrite Ha. ring.
  - right. now rewrite Hs.
  - right. now rewrite Hs.
  - now right.
Qed.

(** [relu(pos - grad)] is zero where the gradient is at least the
    denominator. *)
Lemma relu_clipped (p g : fl) :
  finite p -> finite g -> leb p g = true -> relu (sub p g) = Fin 0.
Proof.
  destruct p as [a| | |], g as [b| | |]; cbn [finite]; try tauto.
  intros _ _ Hle. cbn [leb] in Hle. apply Qle_bool_iff in Hle.
  unfold sub. cbn [neg add]. unfold fin. cbn [relu].
  destruct (Qltb 0 _) eqn:E; [|reflexivity].
  apply FloatFacts.Qltb_lt in E. rewrite !Qred_correct in E.
  exfalso. apply (Qlt_not_le _ _ E).
  setoid_replace 0 with (b + - b) by ring.
  apply Qplus_le_compat; [assumption|apply Qle_refl].
Qed.

Lemma zero_over_positive (d : fl) :
  finite_positive d -> same_value (div (Fin 0) d) (Fin 0).
Proof.
  destruct d as [b| | |]; cbn [finite_positive]; try tauto. intro Hb.
  cbn [div]. apply Qgt_alt in Hb. rewrite Hb. apply same_fin.
  unfold Qdiv. ring.
Qed.

(** With a zero gradient and a positive denominator the ratio is 1. *)
Lemma ratio_one (p : fl) :
  finite_positive p -> same_value (div (relu (sub p (Fin 0))) p) (Fin 1).
Proof.
  destruct p as [a| | |]; cbn [finite_positive]; try tauto.
  intro Ha. unfold sub. cbn [neg add]. unfold fin. cbn [relu].
  assert (E : Qred (a + Qred (- 0)) == a).
  { rewrite !Qred_correct. ring. }
  assert (Hpos : Qltb 0 (Qred (a + Qred (- 0))) = true).
  { apply FloatFacts.Qltb_lt. now rewrite E. }
  rewrite Hpos. cbn [div].
  destruct (a ?= 0) eqn:Ea.
  - apply Qeq_alt in Ea. rewrite Ea in Ha. now apply Qlt_irrefl in Ha.
  - apply Qlt_alt in Ea. exfalso. apply (Qlt_irrefl 0).
    now apply Qlt_trans with a.
  - apply same_fin. rewrite E. field. intro H0. rewrite H0 in Ha.
    now apply Qlt_irrefl in Ha.
Qed.

Lemma mul_one (x y : fl) :
  finite x -> same_value y (Fin 1) -> same_value (mul x y) x.
Proof.
  destruct x as [a| | |], y as [b| | |]; cbn [same_value finite]; try tauto.
  intros _ Hb. cbn [mul]. apply same_fin. rewrite Hb. ring.
Qed.

Section Entry.

Context {torch : Torch}.

Variables gamma l1_reg l2_reg : Q.

Hypothesis gamma_one : gamma == 1.

(** The regularised denominator stays positive. *)
Lemma denominator_positive (old p : fl) :
  finite_nonneg old -> finite_positive p ->
  finite_positive
    (let p1 := if Qltb 0 l1_reg then add p (Fin l1_reg) else p in
     if Qltb 0 l2_reg then add p1 (mul (Fin l2_reg) old) else p1).
Proof.
  intros Ho Hp. cbv zeta.
  assert (H1 : finite_positive
                 (if Qltb 0 l1_reg then add p (Fin l1_reg) else p)).
  { destruct (Qltb 0 l1_reg) eqn:E1; [|assumption].
    apply add_positive; [assumption|]. cbn [finite_nonneg].
    apply FloatFacts.Qltb_lt in E1. now apply Qlt_le_weak. }
  destruct (Qltb 0 l2_reg) eqn:E2; [|assumption].
  apply add_positive; [assumption|]. apply mul_nonneg; [|assumption].
  cbn [finite_nonneg]. apply FloatFacts.Qltb_lt in E2. now apply Qlt_le_weak.
Qed.

Lemma mu_entry_clipped (old p g : fl) :
  l2_reg <= 0 \/ finite_positive old ->
  finite old -> finite_positive p -> finite g -> leb p g = true ->
  same_value (mu_entry gamma l1_reg l2_reg old p g) (Fin 0).
Proof.
  intros Hreg Ho Hp Hg Hle. unfold mu_entry. cbv zeta.
  rewrite (proj2 (Qeq_bool_iff gamma 1) gamma_one).
  rewrite relu_clipped;
    [|now apply nonneg_finite, positive_nonneg|assumption..].
  set (den := if Qltb 0 l2_reg then _ else _).
  assert (Hden : finite_positive den).
  { subst den. destruct Hreg as [H2|Hpos].
    - rewrite (proj2 (FloatFacts.Qltb_ge 0 l2_reg) H2).
      destruct (Qltb 0 l1_reg) eqn:E1; [|assumption].
      apply add_positive; [assumption|]. cbn [finite_nonneg].
      apply FloatFacts.Qltb_lt in E1. now apply Qlt_le_weak.
    - apply (denominator_positive old p); [|assumption].
      now apply positive_nonneg. }
  pose proof (zero_over_positive den Hden) as Hz. clearbody den.
  destruct (div (Fin 0) den) as [z| | |]; cbn [same_value] in Hz;
    try contradiction.
  destruct old as [o| | |]; cbn [finite] in Ho; try contradiction.
  cbn [mul]. apply same_fin. rewrite Hz. ring.
Qed.

Lemma mu_entry_kept (old p : fl) :
  l1_reg <= 0 -> l2_reg <= 0 -> finite old -> finite_positive p ->
  same_value (mu_entry gamma l1_reg l2_reg old p (Fin 0)) old.
Proof.
  intros H1 H2 Ho Hp. unfold mu_entry. cbv zeta.
  rewrite (proj2 (Qeq_bool_iff gamma 1) gamma_one).
  rewrite (proj2 (FloatFacts.Qltb_ge 0 l1_reg) H1).
  rewrite (proj2 (FloatFacts.Qltb_ge 0 l2_reg) H2).
  apply mul_one; [assumption|]. now apply ratio_one.
Qed.

End Entry.

Section Update.

Context {torch : Torch}.

(** The gradient that line 9 gives a fixed block is zero at every place. *)
Lemma fixed_block_gradient (ps : list Param) (grad : matrix) :
  gradient_of (ParameterList ps) = Ok (Some grad) ->
  forall i j b g,
    nth_error ps i = Some b -> requires_grad b = false ->
    bget grad i j = Some g -> g = Fin 0.
Proof.
  cbn [gradient_of]. intros E i j b g Hb Hfix Hg.
  destruct (mapM block_grad ps) as [gs|] eqn:Egs; cbn [rbind] in E;
    [|discriminate].
  destruct (Tensor.cat gs) as [c|] eqn:Ec; cbn [rbind] in E; [|discriminate].
  injection E as <-. destruct (TensorFacts.cat_ok _ Ec) as [-> _].
  pose proof (Broadcast.mapM_length _ _ Egs) as Hlen.
  assert (Hi : (i < length gs)%nat).
  { rewrite Hlen. apply nth_error_Some. congruence. }
  unfold bget in Hg. destruct (bnth gs i) as [r|] eqn:Er; [|discriminate].
  apply Broadcast.bnth_in_range in Er; [|exact Hi].
  destruct (Broadcast.mapM_nth _ _ Egs _ Er) as (b0 & Hb0 & Hgrad).
  rewrite Hb in Hb0. injection Hb0 as <-.
  unfold block_grad in Hgrad. rewrite Hfix in Hgrad. injection Hgrad as <-.
  unfold Tensor.zeros_like in Hg.
  destruct (Broadcast.bnth_cases _ _ Hg) as [H1|[_ H1]].
  - destruct (data b) as [|x [|y rest]]; cbn [map] in H1; try discriminate.
    now injection H1.
  - rewrite nth_error_map in H1. destruct (nth_error (data b) j);
      [|discriminate]. now injection H1.
Qed.

End Update.

End EntryFacts.

(** X8.  Without regularisation ([l1_reg <= 0], [l2_reg <= 0]) and with
    [gamma == 1], a completed call of [_mu_update] on a collection leaves
    every finite entry of a fixed block at its value, provided the
    denominator at its place is finite and positive. *)
Theorem mu_update_keeps_fixed_block
        {torch : Torch} (gamma l1_reg l2_reg : Q) (ps ps' : list Param)
        (pos buf : matrix) (i j : nat) (b : Param) (old p new : fl) :
  gamma == 1 -> l1_reg <= 0 -> l2_reg <= 0 ->
  _mu_update gamma l1_reg l2_reg (ParameterList ps, pos)
  = ((ParameterList ps', buf), Ok tt) ->
  nth_error ps i = Some b -> requires_grad b = false ->
  nth_error (data b) j = Some old -> finite old ->
  bget pos i j = Some p -> finite_positive p ->
  mget (map data ps') i j = Some new ->
  same_value new old.
Proof.
  intros Hgamma H1 H2 E Hb Hfix Hold Hfin Hp Hpos Hnew.
  assert (Hm : mget (map data ps) i j = Some old).
  { unfold mget. now rewrite nth_error_map, Hb. }
  destruct (gradient_of (ParameterList ps)) as [[grad|]|e] eqn:Eg.
  - destruct (MuEntries.updated_entry _ _ _ _ _ Eg E _ _ Hnew)
      as (old0 & p0 & g0 & Hold0 & Hp0 & Hg0 & ->).
    cbn [values] in Hold0. rewrite (Broadcast.mget_bget _ _ _ Hm) in Hold0.
    injection Hold0 as <-. rewrite Hp in Hp0. injection Hp0 as <-.
    rewrite (EntryFacts.fixed_block_gradient _ Eg _ _ Hb Hfix Hg0).
    now apply EntryFacts.mu_entry_kept.
  - unfold _mu_update in E. rewrite Eg in E. injection E as <- _.
    rewrite Hm in Hnew. injection Hnew as <-.
    destruct old; cbn [finite same_value] in *; try tauto. apply Qeq_refl.
  - unfold _mu_update in E. rewrite Eg in E. discriminate.
Qed.

Lemma mu_update_keeps_fixed_block_witness :
  _mu_update 1 0 0
             (ParameterList [Concrete.kept_block; Concrete.moved_block],
              [[Fin 2]; [Fin 2]])
  = ((ParameterList [Concrete.kept_block;
                     set_data Concrete.moved_block [Fin (1 # 2)]],
      [[Fin 2]; [Fin 2]]), Ok tt)
  /\ same_value (Fin 3) (Fin 3).
Proof.
  split; [vm_compute; reflexivity|].
  apply (@mu_update_keeps_fixed_block Concrete.torch 1 0 0
           [Concrete.kept_block; Concrete.moved_block]
           [Concrete.kept_block; set_data Concrete.moved_block [Fin (1 # 2)]]
           [[Fin 2]; [Fin 2]] [[Fin 2]; [Fin 2]] 0 0 Concrete.kept_block
           (Fin 3) (Fin 2) (Fin 3));
    try (vm_compute; reflexivity); try exact I;
    vm_compute; discriminate.
Defined.

(** X9.  With [gamma == 1], a completed call of [_mu_update] sets to zero
    every finite entry at whose place the gradient is finite and at least
    the finite positive denominator, [relu] clipping the numerator;
    provided there is no L2 term ([l2_reg <= 0]) or the entry is
    positive. *)
Theorem mu_update_clips_to_zero
        {torch : Torch} (gamma l1_reg l2_reg : Q) (param param' : param_arg)
        (pos buf grad : matrix) (i j : nat) (old p g new : fl) :
  gamma == 1 ->
  l2_reg <= 0 \/ finite_positive old ->
  gradient_of param = Ok (Some grad) ->
  _mu_update gamma l1_reg l2_reg (param, pos) = ((param', buf), Ok tt) ->
  mget (values param) i j = Some old -> finite old ->
  bget pos i j = Some p -> finite_positive p ->
  bget grad i j = Some g -> finite g -> Float.leb p g = true ->
  mget (values param') i j = Some new ->
  same_value new (Fin 0).
Proof.
  intros Hgamma Hreg Eg E Hold Hn Hp Hpos Hg Hfin Hle Hnew.
  destruct (MuEntries.updated_entry _ _ _ _ _ Eg E _ _ Hnew)
    as (old0 & p0 & g0 & Hold0 & Hp0 & Hg0 & ->).
  rewrite (Broadcast.mget_bget _ _ _ Hold) in Hold0. injection Hold0 as <-.
  rewrite Hp in Hp0. injection Hp0 as <-.
  rewrite Hg in Hg0. injection Hg0 as <-.
  now apply EntryFacts.mu_entry_clipped.
Qed.

Lemma mu_update_clips_to_zero_witness :
  _mu_update 1 1 1 (ParameterList [Concrete.steep_block], [[Fin 2; Fin 2]])
  = ((ParameterList [set_data Concrete.steep_block [Fin 0; Fin (1 # 4)]],
      [[Fin 4; Fin 4]]), Ok tt)
  /\ same_value (Fin 0) (Fin 0).
Proof.
  split; [vm_compute; reflexivity|].
  apply (@mu_update_clips_to_zero Concrete.torch 1 1 1
           (ParameterList [Concrete.steep_block])
           (ParameterList [set_data Concrete.steep_block
                                    [Fin 0; Fin (1 # 4)]])
           [[Fin 2; Fin 2]] [[Fin 4; Fin 4]] [[Fin 3; Fin 1]] 0 0
           (Fin 1) (Fin 2) (Fin 3) (Fin 0));
    try (vm_compute; reflexivity); try exact I;
    try (right; vm_compute; reflexivity).
Defined.

(** X10.  A zero entry is never revived: after a completed call of
    [_mu_update], whatever the exponent, the regularisation, the
    denominator and the gradient, an entry that was zero is zero, or NaN
    when its multiplier is an infinity or NaN. *)
Theorem mu_update_keeps_zero
        {torch : Torch} (gamma l1_reg l2_reg : Q) (param param' : param_arg)
        (pos buf : matrix) (i j : nat) (old new : fl) :
  _mu_update gamma l1_reg l2_reg (param, pos) = ((param', buf), Ok tt) ->
  mget (values param) i j = Some old -> same_value old (Fin 0) ->
  mget (values param') i j = Some new ->
  same_value new (Fin 0) \/ new = NaN.
Proof.
  intros E Hold Hz Hnew. unfold _mu_update in E.
  destruct (gradient_of param) as [[grad|]|e]; [| |discriminate].
  - destruct (Tensor.op Float.sub pos grad); [|discriminate].
    destruct (regularise param pos l1_reg l2_reg) as [buf0 [pos'|]];
      [|discriminate].
    destruct (Tensor.op_ Float.div _ pos'); [|discriminate].
    destruct (apply_multiplier param _) as [param0 r] eqn:Eapp.
    injection E as <- _ ->.
    destruct (MuEntries.apply_multiplier_entry _ _ Eapp _ _ Hnew)
      as (old0 & mult & Hold0 & _ & ->).
    rewrite (Broadcast.mget_bget _ _ _ Hold) in Hold0.
    injection Hold0 as <-. now apply EntryFacts.mul_zero_or_nan.
  - injection E as <- _. rewrite Hold in Hnew. injection Hnew as <-.
    now left.
Qed.

Lemma mu_update_keeps_zero_witness :
  _mu_update 1 1 1 (ParameterList [Concrete.sparse_block], [[Fin 2; Fin 2]])
  = ((ParameterList [set_data Concrete.sparse_block [Fin 0; Fin (1 # 4)]],
      [[Fin 3; Fin 4]]), Ok tt)
  /\ (same_value (Fin 0) (Fin 0) \/ Fin 0 = NaN).
Proof.
  split; [vm_compute; reflexivity|].
  apply (@mu_update_keeps_zero Concrete.torch 1 1 1
           (ParameterList [Concrete.sparse_block])
           (ParameterList [set_data Concrete.sparse_block
                                    [Fin 0; Fin (1 # 4)]])
           [[Fin 2; Fin 2]] [[Fin 3; Fin 4]] 0 0 (Fin 0) (Fin 0));
    vm_compute; reflexivity.
Defined.

(** ** What [fit] prints *)

Module PrintFacts.

Import NMFBase.

Section Generic.

Context {torch : Torch} {metrics : Metrics} {methods : Methods}.

Variables (X : matrix) (update_W update_H : bool) (beta tol : Q).
Variables (gamma l1_reg l2_reg : Q) (loss_scale : fl).

Lemma extends_refl (s : FitState) : extends s s.
Proof. exists []. now rewrite app_nil_r. Qed.

Lemma extends_trans (s1 s2 s3 : FitState) :
  extends s1 s2 -> extends s2 s3 -> extends s1 s3.
Proof.
  intros [a Ha] [b Hb]. exists (a ++ b). now rewrite Hb, Ha, app_assoc.
Qed.

Lemma frame_extends (s s' : FitState) :
  same_report_locals s s' -> extends s s'.
Proof. intros (E & _). exists []. now rewrite E, app_nil_r. Qed.

Lemma frame_numbered (s s' : FitState) :
  same_report_locals s s' -> numbered s -> numbered s'.
Proof. intros (E & _). unfold numbered, epochs. now rewrite E. Qed.

Lemma print_numbered (s : FitState) (i : nat) (l : fl) :
  length (stdout s) = i -> numbered s -> numbered (print s (i, l)).
Proof.
  intros Hlen Hn. unfold numbered, epochs in *. cbn [print stdout].
  rewrite map_app, length_app, Hn, Hlen. cbn [map fst length].
  now rewrite Nat.add_1_r, seq_S.
Qed.

(** Lines 153-160 print at most one line, numbered [i]. *)
Lemma report_prints (i : nat) (s s' : FitState) r :
  report tol loss_scale i s = (s', r) ->
  stdout s' = stdout s
  \/ exists l, stdout s' = stdout s ++ [(i, l)].
Proof.
  intro E. unfold report in E.
  destruct (loss s) as [[v|v]|].
  2,3: injection E as <- _; now left.
  right. exists (Float.div v loss_scale).
  destruct (i =? 0)%nat.
  - now injection E as <- _.
  - destruct (previous_loss _) as [previous|];
      [destruct (loss_init _) as [init|]|].
    + destruct (Float.is_zero init); [now injection E as <- _|].
      destruct (Float.ltb _ _); now injection E as <- _.
    + now injection E as <- _.
    + now injection E as <- _.
Qed.

Lemma report_extends (i : nat) (s s' : FitState) r :
  report tol loss_scale i s = (s', r) -> extends s s'.
Proof.
  intro E. destruct (report_prints _ _ E) as [H|[l H]].
  - exists []. now rewrite H, app_nil_r.
  - now exists [(i, l)].
Qed.

Lemma report_numbered (i : nat) (s s' : FitState) r :
  length (stdout s) = i -> numbered s ->
  report tol loss_scale i s = (s', r) -> numbered s'.
Proof.
  intros Hlen Hn E. destruct (report_prints _ _ E) as [H|[l H]];
    unfold numbered, epochs in *; rewrite H.
  - exact Hn.
  - rewrite map_app, length_app, Hn, Hlen. cbn [map fst length].
    now rewrite Nat.add_1_r, seq_S.
Qed.

(** The two guarded steps of a pass. *)
Lemma W_part_frame (s0 s1 : FitState) r1 :
  (if W_enabled update_W (model s0)
   then W_step X beta gamma l1_reg l2_reg s0 else (s0, Ok tt)) = (s1, r1) ->
  same_report_locals s0 s1.
Proof.
  intro E1. destruct (W_enabled update_W (model s0)).
  - eapply FitLoop.W_step_frame; exact E1.
  - injection E1 as <- _. now repeat split.
Qed.

Lemma H_part_frame (s1 s2 : FitState) r2 :
  (if H_enabled update_H (model s1)
   then H_step X beta gamma l1_reg l2_reg s1 else (s1, Ok tt)) = (s2, r2) ->
  same_report_locals s1 s2.
Proof.
  intro E2. destruct (H_enabled update_H (model s1)).
  - eapply FitLoop.H_step_frame; exact E2.
  - injection E2 as <- _. now repeat split.
Qed.

Lemma iteration_prints (i : nat) (s s' : FitState) r :
  length (stdout s) = i -> numbered s ->
  iteration X update_W update_H beta tol gamma l1_reg l2_reg loss_scale i
            (with_n_iter s (Some i)) = (s', r) ->
  numbered s' /\ extends s s'.
Proof.
  intros Hlen Hn E. unfold iteration, bind in E.
  set (s0 := with_n_iter s (Some i)) in E.
  assert (Hn0 : numbered s0) by exact Hn.
  assert (Hl0 : length (stdout s0) = i) by exact Hlen.
  assert (Hx0 : extends s s0) by (exists []; now rewrite app_nil_r).
  clearbody s0.
  destruct (if W_enabled update_W (model s0)
            then W_step X beta gamma l1_reg l2_reg s0 else (s0, Ok tt))
    as [s1 r1] eqn:E1.
  pose proof (W_part_frame _ E1) as F1.
  destruct r1 as [u|e].
  2: { injection E as <- _. split.
       - now apply (frame_numbered F1).
       - eapply extends_trans; [exact Hx0|now apply frame_extends]. }
  destruct (if H_enabled update_H (model s1)
            then H_step X beta gamma l1_reg l2_reg s1 else (s1, Ok tt))
    as [s2 r2] eqn:E2.
  pose proof (H_part_frame _ E2) as F2.
  assert (Hn2 : numbered s2)
    by (apply (frame_numbered F2), (frame_numbered F1), Hn0).
  assert (Hx2 : extends s s2).
  { eapply extends_trans; [exact Hx0|].
    eapply extends_trans; apply frame_extends; eassumption. }
  destruct r2 as [u2|e].
  2: { injection E as <- _. now split. }
  split.
  - eapply report_numbered; [|exact Hn2|exact E].
    destruct F2 as (-> & _), F1 as (-> & _). exact Hl0.
  - eapply extends_trans; [exact Hx2|]. eapply report_extends; exact E.
Qed.

Lemma loop_prints (n : nat) :
  forall i s s' r,
    tracks i s -> numbered s ->
    loop X update_W update_H beta tol gamma l1_reg l2_reg loss_scale
         (seq i n) s = (s', r) ->
    numbered s' /\ extends s s'.
Proof.
  induction n as [|n IH]; intros i s s' r Ht Hn E; cbn [seq loop] in E.
  - injection E as <- _. split; [exact Hn|apply extends_refl].
  - unfold bind in E.
    destruct (iteration X update_W update_H beta tol gamma l1_reg l2_reg
                        loss_scale i (with_n_iter s (Some i)))
      as [s1 r1] eqn:E1.
    destruct (iteration_prints (proj1 Ht) Hn E1) as [Hn1 Hx1].
    eapply FitLoop.iteration_spec in E1 as [_ H1]; [|exact Ht].
    destruct r1 as [[|]|e].
    + injection E as <- _. now split.
    + destruct (IH _ _ _ _ H1 Hn1 E) as [Hn' Hx']. split; [exact Hn'|].
      eapply extends_trans; eassumption.
    + injection E as <- _. now split.
Qed.

End Generic.

End PrintFacts.

(** X11.  Whatever the outcome of [fit], a return or an exception, the
    lines it has printed carry the epochs 0, 1, 2, ... in order, one line
    for each iteration that reached line 154. *)
Theorem fit_prints_epochs_in_order
        {torch : Torch} {metrics : Metrics} {methods : Methods}
        (X : matrix) (update_W update_H : bool) (beta tol : Q) (max_iter : Z)
        (alpha l1_ratio : Q) (m : Model) :
  epochs (fst (NMFBase.fit X update_W update_H beta tol max_iter alpha
                           l1_ratio m))
  = seq 0 (iterations_performed
             (fst (NMFBase.fit X update_W update_H beta tol max_iter alpha
                               l1_ratio m))).
Proof.
  unfold NMFBase.fit, iterations_performed.
  set (s0 := mkFitState m None None None None None None []).
  assert (Ht : tracks 0 s0) by (split; [reflexivity|congruence]).
  assert (Hn : numbered s0) by reflexivity.
  destruct (NMFBase.loop _ _ _ _ _ _ _ _ _ _ s0) as [s1 r1] eqn:E.
  eapply PrintFacts.loop_prints in E as [H _]; [|exact Ht|exact Hn].
  destruct r1 as [u|e]; [destruct (n_iter s1)|]; exact H.
Qed.

(** ** A first loss of zero *)

Module ZeroLoss.

Import NMFBase.

Section Generic.

Context {torch : Torch} {metrics : Metrics} {methods : Methods}.

Variables (X : matrix) (update_W update_H : bool) (beta tol : Q).
Variables (gamma l1_reg l2_reg : Q) (loss_scale : fl).

(** From the second pass on, line 158 divides by [loss_init]: a Python
    float, so that a zero raises. *)
Lemma report_not_zero (i : nat) (s s' : FitState) (b : bool) :
  tracks i s -> i <> 0%nat ->
  report tol loss_scale i s = (s', Ok b) -> first_loss_not_zero s'.
Proof.
  intros [_ Hloc] Hi E.
  destruct (Hloc Hi) as (init & prev & pre & Hin & Hp & _ & Hhd).
  unfold report in E. destruct (loss s) as [[v|v]|]; try discriminate.
  apply Nat.eqb_neq in Hi. rewrite Hi in E.
  cbn [print with_loss previous_loss loss_init] in E.
  rewrite Hp, Hin in E.
  destruct (Float.is_zero init) eqn:Ez; [discriminate|].
  exists init. split; [|exact Ez].
  assert (Hl : losses s' = losses s ++ [Float.div v loss_scale]).
  { destruct (Float.ltb _ _); injection E as <- _; unfold losses;
      cbn [print with_loss with_previous_loss stdout]; now rewrite map_app. }
  rewrite Hl. destruct (losses s); [discriminate|exact Hhd].
Qed.

Lemma iteration_not_zero (i : nat) (s s' : FitState) (b : bool) :
  tracks i s -> i <> 0%nat ->
  iteration X update_W update_H beta tol gamma l1_reg l2_reg loss_scale i
            (with_n_iter s (Some i)) = (s', Ok b) ->
  first_loss_not_zero s'.
Proof.
  intros Ht Hi E. unfold iteration, bind in E.
  set (s0 := with_n_iter s (Some i)) in E.
  assert (Ht0 : tracks i s0) by exact Ht. clearbody s0.
  destruct (if W_enabled update_W (model s0)
            then W_step X beta gamma l1_reg l2_reg s0 else (s0, Ok tt))
    as [s1 r1] eqn:E1.
  pose proof (PrintFacts.W_part_frame _ _ _ _ _ _ _ E1) as F1.
  destruct r1 as [u|e]; [|discriminate].
  destruct (if H_enabled update_H (model s1)
            then H_step X beta gamma l1_reg l2_reg s1 else (s1, Ok tt))
    as [s2 r2] eqn:E2.
  pose proof (PrintFacts.H_part_frame _ _ _ _ _ _ _ E2) as F2.
  destruct r2 as [u2|e]; [|discriminate].
  eapply report_not_zero; [|exact Hi|exact E].
  eapply FitLoop.tracks_frame; [exact F2|].
  eapply FitLoop.tracks_frame; [exact F1|exact Ht0].
Qed.

Lemma loop_not_zero (n : nat) :
  forall i s s',
    tracks i s -> i <> 0%nat -> first_loss_not_zero s ->
    loop X update_W update_H beta tol gamma l1_reg l2_reg loss_scale
         (seq i n) s = (s', Ok tt) ->
    first_loss_not_zero s'.
Proof.
  induction n as [|n IH]; intros i s s' Ht Hi Hz E; cbn [seq loop] in E.
  - now injection E as <-.
  - unfold bind in E.
    destruct (iteration X update_W update_H beta tol gamma l1_reg l2_reg
                        loss_scale i (with_n_iter s (Some i)))
      as [s1 r1] eqn:E1.
    destruct r1 as [b|e]; [|discriminate].
    assert (Hz1 : first_loss_not_zero s1)
      by (eapply iteration_not_zero; [exact Ht|exact Hi|exact E1]).
    eapply FitLoop.iteration_spec in E1 as [_ H1]; [|exact Ht].
    destruct b.
    + now injection E as <-.
    + eapply IH; [exact H1|lia|exact Hz1|exact E].
Qed.

(** A loop that starts after the first pass and makes a pass. *)
Lemma later_passes_not_zero (n : nat) (i : nat) (s s' : FitState) :
  tracks i s -> i <> 0%nat -> n <> 0%nat ->
  loop X update_W update_H beta tol gamma l1_reg l2_reg loss_scale
       (seq i n) s = (s', Ok tt) ->
  first_loss_not_zero s'.
Proof.
  intros Ht Hi Hn E. destruct n as [|n]; [congruence|].
  cbn [seq loop] in E. unfold bind in E.
  destruct (iteration X update_W update_H beta tol gamma l1_reg l2_reg
                      loss_scale i (with_n_iter s (Some i)))
    as [s1 r1] eqn:E1.
  destruct r1 as [b|e]; [|discriminate].
  assert (Hz1 : first_loss_not_zero s1)
    by (eapply iteration_not_zero; [exact Ht|exact Hi|exact E1]).
  eapply FitLoop.iteration_spec in E1 as [_ H1]; [|exact Ht].
  destruct b.
  - now injection E as <-.
  - eapply loop_not_zero; [exact H1|lia|exact Hz1|exact E].
Qed.

End Generic.

End ZeroLoss.

(** X12.  [fit] returns after more than one iteration only when the first
    loss it reported was not zero: line 158 divides two Python floats by
    [loss_init], and when that is 0 the division raises, so that [fit]
    cannot return from a later iteration. *)
Theorem fit_needs_nonzero_first_loss
        {torch : Torch} {metrics : Metrics} {methods : Methods}
        (X : matrix) (update_W update_H : bool) (beta tol : Q) (max_iter : Z)
        (alpha l1_ratio : Q) (m : Model) (s : FitState) (n : nat) :
  NMFBase.fit X update_W update_H beta tol max_iter alpha l1_ratio m
  = (s, Ok n) ->
  (1 <= n)%nat ->
  first_loss_not_zero s.
Proof.
  unfold NMFBase.fit.
  set (s0 := mkFitState m None None None None None None []).
  assert (Ht : tracks 0 s0) by (split; [reflexivity|congruence]).
  destruct (Z.to_nat max_iter) as [|n'].
  - cbn [seq NMFBase.loop ret]. discriminate.
  - cbn [seq NMFBase.loop]. unfold bind.
    destruct (NMFBase.iteration _ _ _ _ _ _ _ _ _ 0 _) as [s1 r1] eqn:E1.
    eapply FitLoop.iteration_spec in E1 as [Hn1 H1]; [|exact Ht].
    destruct r1 as [[|]|e].
    + unfold ret. rewrite Hn1. intros E Hn. injection E as _ <-. lia.
    + destruct (NMFBase.loop _ _ _ _ _ _ _ _ _ (seq 1 n') s1)
        as [s2 r2] eqn:E2.
      destruct r2 as [[]|e]; [|discriminate].
      destruct n' as [|n''].
      * cbn [seq NMFBase.loop ret] in E2. injection E2 as <-.
        rewrite Hn1. intros E Hn. injection E as _ <-. lia.
      * eapply ZeroLoss.later_passes_not_zero in E2;
          [|exact H1|lia|lia].
        destruct (n_iter s2); [|discriminate].
        intros E _. now injection E as <- _.
    + discriminate.
Qed.

Lemma fit_needs_nonzero_first_loss_witness :
  first_loss_not_zero
    (fst (NMFBase.fit Concrete.X22 true true 2 0 3 0 0 Concrete.rank1_model)).
Proof.
  assert (Hs : snd (NMFBase.fit Concrete.X22 true true 2 0 3 0 0
                                Concrete.rank1_model) = Ok 2%nat)
    by (vm_compute; reflexivity).
  pose proof (surjective_pairing
                (NMFBase.fit Concrete.X22 true true 2 0 3 0 0
                             Concrete.rank1_model)) as E.
  rewrite Hs in E.
  apply (fit_needs_nonzero_first_loss (torch := Concrete.torch)
           (metrics := Concrete.metrics) (methods := NMF.methods)
           Concrete.X22 true true 2 0 3 0 0 Concrete.rank1_model E).
  lia.
Defined.

(** The exception itself, on a model that starts at its target: the first
    loss is 0 and the second iteration divides by it. *)
Example perfect_start_divides_by_zero :
  snd (NMFBase.fit Concrete.X11 true true 2 0 3 0 0 Concrete.unit_model)
  = Raise ZeroDivisionError
  /\ losses (fst (NMFBase.fit Concrete.X11 true true 2 0 3 0 0
                              Concrete.unit_model))
     = [Fin 0; Fin 0].
Proof. split; vm_compute; reflexivity. Qed.

(** ** The loss that is printed first *)

Module FirstLoss.

Import NMFBase.

Section Generic.

Context {torch : Torch} {metrics : Metrics} {methods : Methods}.

Variables (X : matrix) (update_W update_H : bool) (beta tol : Q).
Variables (gamma l1_reg l2_reg : Q) (loss_scale : fl).

Lemma zero_grad_H (m : Model) : H (zero_grad m) = H m.
Proof.
  unfold H, zero_grad. cbn [H_list]. now rewrite FitFrame.data_map.
Qed.

Lemma zero_grad_W (m : Model) : W (zero_grad m) = W m.
Proof.
  unfold W, zero_grad. cbn [W_list]. now rewrite FitFrame.data_map.
Qed.

(** A step that gets as far as line 136 leaves in [loss] the divergence of
    the model it started from. *)
Lemma W_step_loss (s s1 : FitState) (r : result unit) (l : fl) :
  Monitoring.loss (model s) X beta = Ok l ->
  W_step X beta gamma l1_reg l2_reg s = (s1, r) ->
  loss s1 = Some (LossTensor l).
Proof.
  intros Hl E. unfold Monitoring.loss in Hl. unfold W_step in E.
  rewrite zero_grad_H, zero_grad_W in E.
  destruct (H (model s)) as [Hm|]; cbn [rbind] in *; [|discriminate].
  destruct (W (model s)) as [Wm|]; cbn [rbind] in *; [|discriminate].
  destruct (reconstruct Hm Wm) as [WH|]; cbn [rbind] in *; [|discriminate].
  injection Hl as <-.
  FitLoop.break_match E; injection E as <- _; reflexivity.
Qed.

Lemma H_step_loss (s s1 : FitState) (r : result unit) (l : fl) :
  Monitoring.loss (model s) X beta = Ok l ->
  H_step X beta gamma l1_reg l2_reg s = (s1, r) ->
  loss s1 = Some (LossTensor l).
Proof.
  intros Hl E. unfold Monitoring.loss in Hl. unfold H_step in E.
  rewrite zero_grad_H, zero_grad_W in E.
  destruct (H (model s)) as [Hm|]; cbn [rbind] in *; [|discriminate].
  destruct (W (model s)) as [Wm|]; cbn [rbind] in *; [|discriminate].
  destruct (reconstruct Hm Wm) as [WH|]; cbn [rbind] in *; [|discriminate].
  injection Hl as <-.
  FitLoop.break_match E; injection E as <- _; reflexivity.
Qed.

Lemma report_first (s s1 : FitState) (r : result bool) (l : fl) :
  stdout s = [] -> loss s = Some (LossTensor l) ->
  report tol loss_scale 0 s = (s1, r) ->
  stdout s1 = [(0%nat, Float.div l loss_scale)].
Proof.
  intros Hout Hl E. unfold report in E. rewrite Hl in E.
  cbn [Nat.eqb] in E. injection E as <- _.
  cbn [with_previous_loss with_loss_init print with_loss stdout].
  now rewrite Hout.
Qed.

(** The first pass when one side only is updated. *)
Lemma first_pass (s s1 : FitState) (r : result bool) (l : fl) :
  stdout s = [] ->
  W_enabled update_W (model s) <> H_enabled update_H (model s) ->
  Monitoring.loss (model s) X beta = Ok l ->
  iteration X update_W update_H beta tol gamma l1_reg l2_reg loss_scale 0 s
  = (s1, r) ->
  stdout s1 = [] \/ stdout s1 = [(0%nat, Float.div l loss_scale)].
Proof.
  intros Hout Hx Hl E. unfold iteration, bind in E.
  destruct (W_enabled update_W (model s)) eqn:EW.
  - destruct (H_enabled update_H (model s)) eqn:EH; [congruence|].
    destruct (W_step X beta gamma l1_reg l2_reg s) as [s' r1] eqn:E1.
    destruct (FitLoop.W_step_frame _ _ _ _ _ _ E1) as (F & _).
    pose proof (W_step_loss _ Hl E1) as Hloss.
    destruct r1 as [u|e]; [|injection E as <- _; left; congruence].
    destruct (FitFrame.W_step_effect _ _ _ _ _ _ E1) as [Hst _].
    destruct (FitFrame.enabled_structure update_W update_H Hst) as [_ HH].
    rewrite HH, EH in E. right.
    eapply report_first; [|exact Hloss|exact E]. congruence.
  - destruct (H_enabled update_H (model s)) eqn:EH; [|congruence].
    destruct (H_step X beta gamma l1_reg l2_reg s) as [s' r1] eqn:E1.
    destruct (FitLoop.H_step_frame _ _ _ _ _ _ E1) as (F & _).
    pose proof (H_step_loss _ Hl E1) as Hloss.
    destruct r1 as [u|e]; [|injection E as <- _; left; congruence].
    right. eapply report_first; [|exact Hloss|exact E]. congruence.
Qed.

End Generic.

End FirstLoss.

(** X13.  When one side only is updated, the loss printed for epoch 0 is
    the loss of the model as [fit] received it, divided by the number of
    entries of [X]: [loss] is computed before the update of the same
    iteration. *)
Theorem fit_first_loss_is_of_entry_model
        {torch : Torch} {metrics : Metrics} {methods : Methods}
        (X : matrix) (update_W update_H : bool) (beta tol : Q) (max_iter : Z)
        (alpha l1_ratio : Q) (m : Model) (l : fl) (line : nat * fl) :
  NMFBase.W_enabled update_W m <> NMFBase.H_enabled update_H m ->
  Monitoring.loss m (fix_neg X) beta = Ok l ->
  hd_error (stdout (fst (NMFBase.fit X update_W update_H beta tol max_iter
                                     alpha l1_ratio m)))
  = Some line ->
  line = (0%nat, Float.div l (NMFBase.loss_scale_of (fix_neg X))).
Proof.
  intros Hx Hl. unfold NMFBase.fit.
  set (s0 := mkFitState m None None None None None None []).
  assert (Ht : tracks 0 s0) by (split; [reflexivity|congruence]).
  destruct (Z.to_nat max_iter) as [|n'].
  - cbn [seq NMFBase.loop ret fst stdout s0]. discriminate.
  - cbn [seq NMFBase.loop]. unfold bind.
    destruct (NMFBase.iteration _ _ _ _ _ _ _ _ _ 0 _) as [s1 r1] eqn:E1.
    assert (H1 : stdout s1 = []
                 \/ stdout s1
                    = [(0%nat, Float.div l (NMFBase.loss_scale_of (fix_neg X)))]).
    { eapply FirstLoss.first_pass; [| | |exact E1];
        [reflexivity|exact Hx|exact Hl]. }
    eapply FitLoop.iteration_spec in E1 as [_ H2]; [|exact Ht].
    destruct r1 as [[|]|e].
    + unfold ret. destruct (n_iter s1); cbn [fst];
        (destruct H1 as [-> | ->]; cbn [hd_error]; congruence).
    + destruct (NMFBase.loop _ _ _ _ _ _ _ _ _ (seq 1 n') s1)
        as [s2 r2] eqn:E2.
      destruct H1 as [H1|H1].
      { destruct H2 as [H2 _]. rewrite H1 in H2. discriminate. }
      eapply PrintFacts.loop_prints in E2 as [_ [more Hmore]];
        [|exact H2|unfold numbered, epochs; now rewrite H1].
      assert (Hs2 : hd_error (stdout s2)
                    = Some (0%nat,
                            Float.div l (NMFBase.loss_scale_of (fix_neg X))))
        by now rewrite Hmore, H1.
      destruct r2 as [u|e]; [destruct (n_iter s2)|]; cbn [fst]; congruence.
    + cbn [fst]. destruct H1 as [-> | ->]; cbn [hd_error]; congruence.
Qed.

Lemma fit_first_loss_is_of_entry_model_witness :
  (0%nat, Fin (7 # 4)) = (0%nat, Float.div (Fin 7) (Fin 4)).
Proof.
  apply (fit_first_loss_is_of_entry_model (torch := Concrete.torch)
           (metrics := Concrete.metrics) (methods := NMF.methods)
           Concrete.X22 true true 2 0 2 0 0 Concrete.fixed_H_model).
  - vm_compute. discriminate.
  - vm_compute. reflexivity.
  - vm_compute. reflexivity.
Defined.

(** ** The cached sums and the in-place penalty *)

Module CacheFacts.

Section WithTorch.

Context {torch : Torch}.

(** On a collection line 9 always gives a gradient or raises. *)
Lemma gradient_of_list (ps : list Param) :
  gradient_of (ParameterList ps) <> Ok None.
Proof.
  cbn [gradient_of]. destruct (mapM block_grad ps) as [gs|]; cbn [rbind];
    [|discriminate].
  destruct (Tensor.cat gs); cbn [rbind]; discriminate.
Qed.

(** With an L1 term only, the caller's denominator holds [pos + l1_reg]
    after a completed call. *)
Lemma mu_update_buffer (gamma l1_reg l2_reg : Q) (ps : list Param)
      (pos buf : matrix) (param' : param_arg) :
  Qltb 0 l1_reg = true -> Qltb 0 l2_reg = false ->
  _mu_update gamma l1_reg l2_reg (ParameterList ps, pos)
  = ((param', buf), Ok tt) ->
  buf = Tensor.map_entries (fun x => Float.add x (Fin l1_reg)) pos.
Proof.
  intros H1 H2 E. unfold _mu_update in E.
  pose proof (gradient_of_list ps) as Hg.
  destruct (gradient_of (ParameterList ps)) as [[grad|]|]; try congruence.
  destruct (Tensor.op Float.sub pos grad); [|discriminate].
  unfold regularise in E. rewrite H1, H2 in E.
  destruct (Tensor.op_ Float.div _ _); [|discriminate].
  destruct (apply_multiplier _ _) as [p r]. now injection E as _ <- _.
Qed.

End WithTorch.

End CacheFacts.

(** X14.  With [beta == 1] and an L1 term only ([l1_reg > 0],
    [l2_reg <= 0]), a completed W step of the matrix-product model leaves
    in [H_sum] the cache it used, the one it found or else the row sums of
    H, with [l1_reg] added to every entry: the denominator is a view of
    the cache and [pos.add_(l1_reg)] writes through it, so the penalty
    adds up over the W steps that share a cache. *)
Theorem W_step_penalises_cache
        {torch : Torch} {metrics : Metrics}
        (X : matrix) (beta gamma l1_reg l2_reg : Q) (s s' : FitState)
        (Hm : matrix) :
  beta == 1 -> 0 < l1_reg -> l2_reg <= 0 ->
  NMFBase.H (model s) = Ok Hm ->
  NMFBase.W_step (methods := NMF.methods) X beta gamma l1_reg l2_reg s
  = (s', Ok tt) ->
  H_sum s'
  = Some (penalised l1_reg
                    match H_sum s with
                    | Some cache => cache
                    | None => Tensor.sum_dim1 Hm
                    end).
Proof.
  intros Hb H1 H2 HH E.
  apply Qeq_bool_iff in Hb. apply FloatFacts.Qltb_lt in H1.
  apply FloatFacts.Qltb_ge in H2.
  unfold NMFBase.W_step in E.
  rewrite FirstLoss.zero_grad_H, FirstLoss.zero_grad_W, HH in E.
  cbn [rbind] in E.
  destruct (NMFBase.W (model s)) as [Wm|]; cbn [rbind] in E; [|discriminate].
  destruct (reconstruct Hm Wm) as [WH|]; cbn [rbind] in E; [|discriminate].
  cbn [get_W_positive NMF.methods] in E. unfold NMF.get_W_positive in E.
  assert (HH1 : NMFBase.H
                  (with_W (NMFBase.zero_grad (model s))
                          (NMFBase.populate 0 (backward_W Hm Wm WH X beta)
                             (W_list (NMFBase.zero_grad (model s)))))
                = Ok Hm).
  { rewrite <- HH, <- (FirstLoss.zero_grad_H (model s)). reflexivity. }
  cbn [with_model with_loss model H_sum] in E.
  rewrite HH1 in E. cbn [rbind] in E. rewrite Hb in E.
  cbn [denominator_of cache_of] in E.
  destruct (_mu_update gamma l1_reg l2_reg _) as [[param buf] r] eqn:Emu.
  destruct r as [[]|e]; [|discriminate].
  eapply CacheFacts.mu_update_buffer in Emu; [|exact H1|exact H2].
  subst buf.
  injection E as <-. reflexivity.
Qed.

Lemma W_step_penalises_cache_witness :
  H_sum (fst (NMFBase.W_step (methods := NMF.methods) Concrete.X22 1 1 1 0
                             Concrete.cached_state))
  = Some (penalised 1 [Fin 5]).
Proof.
  assert (Hs : snd (NMFBase.W_step (methods := NMF.methods) Concrete.X22
                                   1 1 1 0 Concrete.cached_state)
               = Ok tt)
    by (vm_compute; reflexivity).
  pose proof (surjective_pairing
                (NMFBase.W_step (methods := NMF.methods) Concrete.X22
                                1 1 1 0 Concrete.cached_state)) as E.
  rewrite Hs in E.
  apply (@W_step_penalises_cache Concrete.torch Concrete.metrics
           Concrete.X22 1 1 1 0 Concrete.cached_state _ [[Fin 1; Fin 1]]
           ltac:(reflexivity) ltac:(reflexivity) ltac:(discriminate)
           ltac:(reflexivity) E).
Defined.

(** The penalty adds up: with [update_H=False], [beta = 1], [alpha = 1] and
    [l1_ratio = 1], two iterations leave 2 + 1 + 1 in the cache of the row
    sum 2 of H. *)
Example cache_accumulates_penalty :
  H_sum (fst (NMFBase.fit Concrete.X22 true false 1 0 2 1 1
                          Concrete.rank1_model))
  = Some [Fin 4]
  /\ NMFBase.H Concrete.rank1_model = Ok [[Fin 1; Fin 1]]
  /\ Tensor.sum_dim1 [[Fin 1; Fin 1]] = [Fin 2].
Proof. repeat split; vm_compute; reflexivity. Qed.

(** ** The reconstruction of a freshly built model *)

Module ForwardShape.

Import Tensor.

Lemma shape_rectangular (w : nat) (a : matrix) :
  a <> [] -> Forall (fun r => length r = w) a -> snd (shape a) = w.
Proof.
  intros Hne Hw. destruct a as [|r rest]; [congruence|].
  cbn [shape snd]. now inversion Hw.
Qed.

Lemma not_empty {A} (xs : list A) : (1 <= length xs)%nat -> xs <> [].
Proof. destruct xs; cbn [length]; [lia|discriminate]. Qed.

(** [W @ H] of an [m x k] and a [k x n] tensor, [m] and [k] not zero. *)
Lemma matmul_rectangular (m k n : nat) (a b : matrix) :
  (1 <= m)%nat -> (1 <= k)%nat ->
  length a = m -> Forall (fun r => length r = k) a ->
  length b = k -> Forall (fun r => length r = n) b ->
  exists c, matmul a b = Ok c
            /\ length c = m /\ Forall (fun r => length r = n) c.
Proof.
  intros Hm Hk La Wa Lb Wb.
  assert (Ha : snd (shape a) = k)
    by (apply shape_rectangular; [apply not_empty; lia|exact Wa]).
  assert (Hb : snd (shape b) = n)
    by (apply shape_rectangular; [apply not_empty; lia|exact Wb]).
  destruct (matmul a b) as [c|e] eqn:E.
  - exists c. destruct (ShapeFacts.matmul_shape _ _ E) as [L W].
    rewrite Hb in W. repeat split; [congruence|exact W].
  - unfold matmul in E. rewrite Ha, Lb, Nat.eqb_refl in E. discriminate.
Qed.

End ForwardShape.

(** X15.  For a matrix-product model built without initial values,
    [forward()] gives a tensor of the declared shape of X, [m_examples]
    rows of [n_features] entries, when [m_examples] and [n_components] are
    at least 1; with one of them 0 a factor has no block and [forward()]
    raises ValueError ([torch.cat] of an empty list). *)
Theorem forward_of_default_model
        {torch : Torch} (m_examples n_features n_components : nat)
        (fix_components fix_weights : list bool) (m : Model) :
  NMF.__init__ (m_examples, n_features) n_components None fix_components None
               fix_weights = Ok m ->
  ((1 <= m_examples)%nat /\ (1 <= n_components)%nat ->
   exists WH,
     Monitoring.forward (methods := NMF.methods) m None None = Ok WH
     /\ length WH = m_examples
     /\ Forall (fun r => length r = n_features) WH)
  /\ (m_examples = 0%nat \/ n_components = 0%nat ->
      Monitoring.forward (methods := NMF.methods) m None None
      = Raise ValueError).
Proof.
  intro E. destruct (DefaultModel.default_values _ _ _ _ _ E) as [EW EH].
  pose proof (DefaultModel.fresh_default_widths 0 (m_examples, n_components))
    as WW.
  pose proof (DefaultModel.fresh_default_widths m_examples
                (n_components, n_features)) as WH.
  pose proof (InitShape.fresh_length 0 (m_examples, n_components) None) as LW.
  pose proof (InitShape.fresh_length m_examples (n_components, n_features)
                None) as LH.
  rewrite <- (length_map data) in LW, LH.
  rewrite <- EW in WW, LW. rewrite <- EH in WH, LH.
  cbn [block_count fst snd] in *.
  unfold Monitoring.forward, NMFBase.H, NMFBase.W.
  cbn [reconstruct NMF.methods]. unfold NMF.reconstruct.
  split.
  - intros [Hm Hk].
    assert (NH : map data (H_list m) <> [])
      by (apply ForwardShape.not_empty; lia).
    assert (NW : map data (W_list m) <> [])
      by (apply ForwardShape.not_empty; lia).
    rewrite (ShapeFacts.cat_rectangular NH WH). cbn [rbind].
    rewrite (ShapeFacts.cat_rectangular NW WW). cbn [rbind].
    now apply ForwardShape.matmul_rectangular with (k := n_components).
  - intros [Hm|Hk].
    + rewrite Hm in LW. apply length_zero_iff_nil in LW.
      destruct (map data (H_list m)) as [|r rest] eqn:EHl; [reflexivity|].
      assert (NH : r :: rest <> []) by discriminate.
      rewrite (ShapeFacts.cat_rectangular NH WH). cbn [rbind].
      now rewrite LW.
    + rewrite Hk in LH. apply length_zero_iff_nil in LH. now rewrite LH.
Qed.

Lemma forward_of_default_model_witness :
  exists WH,
    Monitoring.forward (methods := NMF.methods) Concrete.rank1_half None None
    = Ok WH
    /\ length WH = 2%nat
    /\ Forall (fun r => length r = 2%nat) WH.
Proof.
  apply (proj1 (@forward_of_default_model Concrete.torch 2 2 1 [] []
                  Concrete.rank1_half ltac:(reflexivity))).
  split; lia.
Defined.

(** ** A collection with a gradient missing *)

Module MissingGradient.

Section WithTorch.

Context {torch : Torch}.

Lemma block_grad_cases (x : Param) :
  (exists g, block_grad x = Ok g) \/ block_grad x = Raise TypeError.
Proof.
  unfold block_grad. destruct (requires_grad x); [destruct (grad x)|];
    eauto.
Qed.

Lemma gradients_raise (ps : list Param) :
  Exists (fun x => requires_grad x = true /\ grad x = None) ps ->
  mapM block_grad ps = Raise TypeError.
Proof.
  induction 1 as [x rest [Hr Hg]|x rest _ IH]; cbn [mapM].
  - unfold block_grad. now rewrite Hr, Hg.
  - destruct (block_grad_cases x) as [[g ->]| ->]; cbn [rbind];
      [now rewrite IH|reflexivity].
Qed.

End WithTorch.

End MissingGradient.

(** X16.  Called on a collection in which a trainable block has no
    gradient yet, [_mu_update] raises TypeError ([torch.cat] meets a
    [None]) before anything is written: the blocks and the caller's
    denominator are as they were. *)
Theorem mu_update_without_gradient
        {torch : Torch} (gamma l1_reg l2_reg : Q) (ps : list Param)
        (pos : matrix) :
  Exists (fun x => requires_grad x = true /\ grad x = None) ps ->
  _mu_update gamma l1_reg l2_reg (ParameterList ps, pos)
  = ((ParameterList ps, pos), Raise TypeError).
Proof.
  intro H. unfold _mu_update. cbn [gradient_of].
  now rewrite (MissingGradient.gradients_raise H).
Qed.

Lemma mu_update_without_gradient_witness :
  _mu_update 1 0 0
             (ParameterList [Concrete.kept_block; Concrete.block true [1]],
              [[Fin 2]; [Fin 2]])
  = ((ParameterList [Concrete.kept_block; Concrete.block true [1]],
      [[Fin 2]; [Fin 2]]), Raise TypeError).
Proof.
  apply (@mu_update_without_gradient Concrete.torch 1 0 0
           [Concrete.kept_block; Concrete.block true [1]]
           [[Fin 2]; [Fin 2]]).
  apply Exists_cons_tl, Exists_cons_hd. split; reflexivity.
Defined.
